(** * Host-side toolchain of the design3 broadcast scheme

    A shallow embedding of the Python sources under
    [design3/decoder/ppp_common/ppp_common] and
    [design3/design/ectf25_design], with the properties of the
    KDF tree, the range cover, the subscription builder, the frame
    encoder and the secrets bundle stated and proved over it.

    Python integers are [Z]; [bytes] are lists of [Byte.byte]; a [dict]
    is a [gmap]; an exception is a value of [result]. *)

From Stdlib Require Import ZArith Lia List String Ascii DecimalString DecimalZ.
From coqutil Require Import Byte Word.LittleEndianList.
From stdpp Require Import gmap strings list.

Local Open Scope Z_scope.
#[local] Set Warnings "-clear-no-such-hyp".

(** ** Python values and exceptions *)

Abbreviation bytes := (list Init.Byte.byte).

(** The exceptions the modelled code can raise.  [OutOfFuel] is not a
    Python exception: it marks the exhaustion of the bounded unrolling of
    a [while] loop. *)
Inductive exn : Set :=
| AssertionError
| KeyError
| ValueError
| TypeError
| AttributeError
| StructError
| OutOfFuel.

Inductive result (A : Type) : Type :=
| Ok (a : A)
| Raise (e : exn).
Arguments Ok {A} a.
Arguments Raise {A} e.

#[global] Instance result_ret : MRet result := fun A a => Ok a.
#[global] Instance result_bind : MBind result := fun A B f m =>
  match m with
  | Ok a => f a
  | Raise e => Raise e
  end.

(** [assert c] *)
Definition assert (c : bool) : result unit :=
  if c then Ok tt else Raise AssertionError.

(** ** gen_secrets.py: [Vertex] *)

Record Vertex : Set := MkVertex { prefix : Z; bits : Z }.

(** [Vertex.__init__]: [assert 0 <= self.prefix < (1 << self.bits)].
    The chained comparison tests [0 <= self.prefix] first and stops there
    when it fails; only otherwise is [1 << self.bits] computed, and a
    negative shift count is then a [ValueError]. *)
Definition new_Vertex (prefix bits : Z) : result Vertex :=
  if 0 <=? prefix then
    if bits <? 0 then Raise ValueError
    else
      _ ← assert (prefix <? Z.shiftl 1 bits);
      Ok (MkVertex prefix bits)
  else Raise AssertionError.

(** ** gen_subscription.py: [vertices_for_range] *)

(** The [while start != end] loop; one unit of [fuel] per test of the
    loop condition. *)
Fixpoint vertices_loop (fuel : nat) (start end_ bits : Z)
    (keys_front keys_back : list Vertex) : result (list Vertex) :=
  match fuel with
  | O => Raise OutOfFuel
  | S fuel =>
    if start =? end_ then
      v ← new_Vertex start bits;
      Ok (keys_front ++ [v] ++ rev keys_back)
    else
      _ ← assert (start <? end_);
      if (Z.land start 1 =? 0) && (Z.land end_ 1 =? 1) then
        vertices_loop fuel (Z.shiftr start 1) (Z.shiftr end_ 1) (bits - 1)
          keys_front keys_back
      else if Z.land start 1 =? 1 then
        v ← new_Vertex start bits;
        vertices_loop fuel (start + 1) end_ bits (keys_front ++ [v]) keys_back
      else
        v ← new_Vertex end_ bits;
        vertices_loop fuel start (end_ - 1) bits keys_front (keys_back ++ [v])
  end.

(** On a 64-bit range every level costs at most three iterations (emit
    front, emit back, move up); two more cover the tests that leave the
    loop.  On other integers the loop can take more turns before it
    raises: what it does there is stated on [vertices_loop], for every
    fuel. *)
Definition loop_fuel : nat := 3 * 64 + 2.

Definition vertices_for_range (start end_ : Z) : result (list Vertex) :=
  vertices_loop loop_fuel start end_ 64 [] [].

(** *** The timestamps under a vertex *)

(** A vertex is the [bits]-bit prefix of the 64-bit timestamps below it:
    it is an ancestor of the leaf [Vertex(t, 64)] exactly when
    [t >> (64 - bits) == prefix]. *)
Definition covers (v : Vertex) (t : Z) : Prop :=
  0 <= t < 2 ^ 64 /\ Z.shiftr t (64 - bits v) = prefix v.

Definition valid_vertex (v : Vertex) : Prop :=
  0 <= bits v <= 64 /\ 0 <= prefix v < 2 ^ bits v.

(** Two vertices can be merged when one vertex covers exactly the
    timestamps the two cover together. *)
Definition mergeable (v1 v2 : Vertex) : Prop :=
  exists w, valid_vertex w /\
    forall t, covers w t <-> covers v1 t \/ covers v2 t.

(** First timestamp under a vertex, and first timestamp after it. *)
Definition v_lo (v : Vertex) : Z := prefix v * 2 ^ (64 - bits v).
Definition v_next (v : Vertex) : Z := (prefix v + 1) * 2 ^ (64 - bits v).

(** [chain a vs b]: the vertices tile [a, b) one after the other. *)
Fixpoint chain (a : Z) (vs : list Vertex) (b : Z) : Prop :=
  match vs with
  | [] => a = b
  | v :: vs => v_lo v = a /\ chain (v_next v) vs b
  end.

(** The state of the [while] loop of [vertices_for_range] on the range
    [start0, end0]: what holds each time its condition is tested. *)
Record cover_inv (start0 end0 s e b : Z) (front back : list Vertex) : Prop :=
  MkCoverInv {
    inv_bits : 0 <= b <= 64;
    inv_range : 0 <= s /\ s <= e /\ e < 2 ^ b;
    inv_front_chain : chain start0 front (s * 2 ^ (64 - b));
    inv_back_chain : chain ((e + 1) * 2 ^ (64 - b)) (rev back) (end0 + 1);
    inv_front_valid :
      Forall (fun v => valid_vertex v /\ Z.odd (prefix v) = true) front;
    inv_back_valid :
      Forall (fun v => valid_vertex v /\ Z.even (prefix v) = true) back;
    inv_front_len :
      Z.of_nat (length front) <= 64 - b + (if Z.even s then 1 else 0);
    inv_back_len :
      Z.of_nat (length back) <= 64 - b + (if Z.odd e then 1 else 0);
    inv_front_ne : front <> [] -> 1 <= s;
    inv_back_ne : back <> [] -> e <= 2 ^ b - 2
  }.

(** Iterations still needed from a loop state. *)
Definition loop_cost (s e b : Z) : Z :=
  3 * b + 2 - (if Z.even s then 1 else 0) - (if Z.odd e then 1 else 0).

(** ** cstruct.py: packed little-endian records *)

(** The [struct] format characters the records use: ["I"], ["Q"] and
    ["<n>s"]. *)
Inductive fmt : Set :=
| FI
| FQ
| Fs (n : nat).

(** The values handed to [pack]. *)
Inductive pyval : Set :=
| VInt (z : Z)
| VBytes (b : bytes).

(** [struct.calcsize] of one field under ["<"]: no alignment. *)
Definition fmt_size (f : fmt) : nat :=
  match f with
  | FI => 4
  | FQ => 8
  | Fs n => n
  end.

(** A ["<n>s"] field: a longer value is cut, a shorter one is filled
    with zero bytes. *)
Definition pack_s (n : nat) (b : bytes) : bytes :=
  take n b ++ replicate (n - length b) Byte.x00.

Definition pack_uint (width : nat) (z : Z) : result bytes :=
  if (0 <=? z) && (z <? 2 ^ (8 * Z.of_nat width)) then Ok (le_split width z)
  else Raise StructError.

Definition pack_field (f : fmt) (v : pyval) : result bytes :=
  match f, v with
  | FI, VInt z => pack_uint 4 z
  | FQ, VInt z => pack_uint 8 z
  | Fs n, VBytes b => Ok (pack_s n b)
  | _, _ => Raise StructError
  end.

(** [st.pack(v1, ..., vn)] of a [struct.Struct] with byte order ["<"]:
    [struct.error] unless there is one fitting value per field. *)
Fixpoint struct_pack (fs : list fmt) (vs : list pyval) : result bytes :=
  match fs, vs with
  | [], [] => Ok []
  | f :: fs, v :: vs =>
    b ← pack_field f v;
    rest ← struct_pack fs vs;
    Ok (b ++ rest)
  | _, _ => Raise StructError
  end.

(** A record class made by [cstruct] is a [NamedTuple] with one field
    per format character: its constructor takes one value per field and
    raises [TypeError] on any other number of values. *)
Definition cstruct_new (fs : list fmt) (vs : list pyval)
    : result (list pyval) :=
  if (length vs =? length fs)%nat then Ok vs else Raise TypeError.

(** [Cls(v1, ..., vn).pack()]: the record is built first, then its
    values are handed to [st.pack]. *)
Definition cstruct_pack (fs : list fmt) (vs : list pyval) : result bytes :=
  self ← cstruct_new fs vs;
  struct_pack fs self.

(** The [size] property of a [cstruct] class. *)
Definition struct_size (fs : list fmt) : nat :=
  foldr (fun f n => (fmt_size f + n)%nat) 0%nat fs.

(** ** crypto_wrappers.py *)

Definition SYMMETRIC_KEY_LEN : nat := 32.
Definition SYMMETRIC_NONCE_LEN : nat := 24.
Definition SYMMETRIC_MAC_LEN : nat := 16.
Definition SYMMETRIC_METADATA_LEN : nat := SYMMETRIC_NONCE_LEN + SYMMETRIC_MAC_LEN.

Definition TREE_KEY_LEN : nat := 16.
Definition TREE_LEFT_RIGHT_LEN : nat := 32.

Definition PUBLIC_KEY_LEN : nat := 64.
Definition PRIVATE_KEY_LEN : nat := 64.
Definition SIGNATURE_LEN : nat := 64.

(** The operations of the [monocypher] package the wrappers call.  The
    random source is a state that every draw advances. *)
Class Monocypher : Type := {
  Rng : Type;
  generate_key : nat -> Rng -> bytes * Rng;
  generate_signing_key_pair : Rng -> (bytes * bytes) * Rng;
  (** [lock(key, nonce, message)] returns [(mac, ciphertext)] *)
  lock : bytes -> bytes -> bytes -> bytes * bytes;
  (** [signature_sign(secret_key, message)] *)
  signature_sign : bytes -> bytes -> bytes;
  (** [Blake2b(hash_size=n)], [update(message)], [finalize()] *)
  blake2b : nat -> bytes -> bytes
}.

(** What the wrappers rely on, and assert, about these operations. *)
Class MonocypherSpec (mc : Monocypher) : Prop := {
  generate_key_length n g : length (generate_key n g).1 = n;
  key_pair_length g :
    length (generate_signing_key_pair g).1.1 = PRIVATE_KEY_LEN;
  lock_length k n m :
    length (lock k n m).1 = SYMMETRIC_MAC_LEN /\
    length (lock k n m).2 = length m;
  signature_sign_length k m : length (signature_sign k m) = SIGNATURE_LEN;
  blake2b_length n m : length (blake2b n m) = n
}.

(** The [base64] module: [b64encode] and [b64decode]. *)
Class Base64 : Type := {
  b64encode : bytes -> string;
  b64decode : string -> option bytes
}.

Class Base64Spec (b : Base64) : Prop := {
  b64decode_encode x : b64decode (b64encode x) = Some x
}.

Section Toolchain.
Context {mc : Monocypher} {b64 : Base64}.

(** What a call can change: the random source and the log. *)
Record World : Type := MkWorld { w_rng : Rng; w_log : list string }.

(** Code that draws random bytes or logs. *)
Definition M (A : Type) : Type := World -> result A * World.

#[global] Instance M_ret : MRet M := fun A a w => (Ok a, w).
#[global] Instance M_bind : MBind M := fun A B f m w =>
  match m w with
  | (Ok a, w') => f a w'
  | (Raise e, w') => (Raise e, w')
  end.

Definition lift {A} (r : result A) : M A := fun w => (r, w).

Definition random_bytes (n : nat) : M bytes := fun w =>
  let '(k, g) := generate_key n (w_rng w) in
  (Ok k, MkWorld g (w_log w)).

(** The world after one draw of [n] random bytes. *)
Definition after_draw (n : nat) (w : World) : World :=
  MkWorld (generate_key n (w_rng w)).2 (w_log w).

Definition random_key_pair : M (bytes * bytes) := fun w =>
  let '(kp, g) := generate_signing_key_pair (w_rng w) in
  (Ok kp, MkWorld g (w_log w)).

(** [logger.error(msg)] *)
Definition logger_error (msg : string) : M unit := fun w =>
  (Ok tt, MkWorld (w_rng w) (w_log w ++ [msg])).

Definition encrypt_symmetric (plaintext sym_key : bytes) : M bytes :=
  _ ← lift (assert (length sym_key =? SYMMETRIC_KEY_LEN)%nat);
  nonce ← random_bytes SYMMETRIC_NONCE_LEN;
  let '(mac, ct) := lock sym_key nonce plaintext in
  let ciphertext := mac ++ nonce ++ ct in
  _ ← lift (assert (length ciphertext =?
                    length plaintext + SYMMETRIC_METADATA_LEN)%nat);
  mret ciphertext.

Definition sign_asymmetric (message secret_key : bytes) : result bytes :=
  _ ← assert (length secret_key =? PRIVATE_KEY_LEN)%nat;
  let out := signature_sign secret_key message in
  _ ← assert (length out =? SIGNATURE_LEN)%nat;
  Ok out.

Definition hash_length (message : bytes) (hash_size : nat) : result bytes :=
  let hash := blake2b hash_size message in
  _ ← assert (length hash =? hash_size)%nat;
  Ok hash.

Definition TreeChildTmp : list fmt := [Fs TREE_KEY_LEN; Fs TREE_LEFT_RIGHT_LEN].

Definition kdf_tree_child (parent_key left_right : bytes) : result bytes :=
  _ ← assert (length parent_key =? TREE_KEY_LEN)%nat;
  _ ← assert (length left_right =? TREE_LEFT_RIGHT_LEN)%nat;
  packed ← cstruct_pack TreeChildTmp [VBytes parent_key; VBytes left_right];
  child_key ← hash_length packed TREE_KEY_LEN;
  _ ← assert (length child_key =? TREE_KEY_LEN)%nat;
  Ok child_key.

Definition kdf_tree_leaf (leaf_key : bytes) : result bytes :=
  _ ← assert (length leaf_key =? TREE_KEY_LEN)%nat;
  frame_key ← hash_length leaf_key SYMMETRIC_KEY_LEN;
  _ ← assert (length frame_key =? SYMMETRIC_KEY_LEN)%nat;
  Ok frame_key.

Definition kdf_id (id_root_key : bytes) (decoder_id : Z) : result bytes :=
  _ ← assert (length id_root_key =? SYMMETRIC_KEY_LEN)%nat;
  _ ← assert ((0 <=? decoder_id) && (decoder_id <? 2 ^ 32));
  packed ← struct_pack [FI; Fs 32] [VInt decoder_id; VBytes id_root_key];
  key ← hash_length packed SYMMETRIC_KEY_LEN;
  _ ← assert (length key =? SYMMETRIC_KEY_LEN)%nat;
  Ok key.

Definition kdf_symbol_shimmy (shimmy_root_key : bytes) (decoder_id : Z)
    : result bytes :=
  kdf_id shimmy_root_key decoder_id.

(** ** gen_secrets.py *)

Definition to_base64 (b : bytes) : string := b64encode b.

(** A malformed string makes [base64.b64decode] raise [binascii.Error],
    a [ValueError]. *)
Definition from_base64 (s : string) : result bytes :=
  match b64decode s with
  | Some b => Ok b
  | None => Raise ValueError
  end.

Record GlobalSecrets : Type := MkGlobalSecrets {
  enc_private_key : bytes;
  enc_public_key : bytes;
  id_root_key : bytes;
  channel_keys : gmap Z bytes;
  left_tree_key : bytes;
  right_tree_key : bytes;
  tree_root_keys : gmap Z bytes;
  symbol_shimmy_root_key : bytes
}.

(** [{ch: monocypher.generate_key(n) for ch in chs}], one draw per
    element, a later duplicate replacing the earlier entry. *)
Fixpoint generate_keys (n : nat) (chs : list Z) (acc : gmap Z bytes)
    : M (gmap Z bytes) :=
  match chs with
  | [] => mret acc
  | ch :: chs =>
    k ← random_bytes n;
    generate_keys n chs (<[ch := k]> acc)
  end.

(** [GlobalSecrets.generate] *)
Definition generate (channels : list Z) : M GlobalSecrets :=
  '(enc_private, enc_public) ← random_key_pair;
  channel_keys ← generate_keys SYMMETRIC_KEY_LEN (channels ++ [0]) ∅;
  tree_root_keys ← generate_keys TREE_KEY_LEN (channels ++ [0]) ∅;
  id_root ← random_bytes SYMMETRIC_KEY_LEN;
  left ← random_bytes TREE_LEFT_RIGHT_LEN;
  right ← random_bytes TREE_LEFT_RIGHT_LEN;
  shimmy ← random_bytes SYMMETRIC_KEY_LEN;
  mret (MkGlobalSecrets enc_private enc_public id_root channel_keys
          left right tree_root_keys shimmy).

(** *** The secrets file *)

(** The JSON documents the secrets file can hold: strings and objects.
    The text of a document, which [json.dumps] writes and [json.loads]
    reads, is identified with the document; the members of an object
    are the items of the [dict] it is loaded as. *)
#[warnings="-register-all"] Inductive json : Type :=
| JString (s : string)
| JObject (members : list (string * json)).

(** [str(n)], which [json.dumps] applies to an integer key. *)
Definition str_of_int (n : Z) : string :=
  NilZero.string_of_int (Z.to_int n).

(** [int(s)] on a decimal numeral; anything else is a [ValueError]. *)
Definition int_of_str (s : string) : result Z :=
  match NilZero.int_of_string s with
  | Some d => Ok (Z.of_int d)
  | None => Raise ValueError
  end.

(** [json.dumps] of a [dict] from integers to strings; the members come
    in the order of [map_to_list], which nothing below observes. *)
Definition dumps_int_dict (d : gmap Z string) : json :=
  JObject ((fun kv => (str_of_int kv.1, JString kv.2)) <$> map_to_list d).

(** [GlobalSecrets.serialize] *)
Definition serialize (self : GlobalSecrets) : json :=
  let channel_keys := to_base64 <$> channel_keys self in
  let tree_root_keys := to_base64 <$> tree_root_keys self in
  JObject [
    ("ENCODER_PRIVATE_KEY", JString (to_base64 (enc_private_key self)));
    ("ENCODER_PUBLIC_KEY", JString (to_base64 (enc_public_key self)));
    ("ID_ROOT_KEY", JString (to_base64 (id_root_key self)));
    ("CHANNEL_KEYS", dumps_int_dict channel_keys);
    ("LEFT_TREE_KEY", JString (to_base64 (left_tree_key self)));
    ("RIGHT_TREE_KEY", JString (to_base64 (right_tree_key self)));
    ("TREE_ROOT_KEYS", dumps_int_dict tree_root_keys);
    ("SYMBOL_SHIMMY_ROOT_KEY", JString (to_base64 (symbol_shimmy_root_key self)))
  ]%string.

Fixpoint assoc (k : string) (ms : list (string * json)) : option json :=
  match ms with
  | [] => None
  | (k', v) :: ms => if String.eqb k k' then Some v else assoc k ms
  end.

(** [secrets[key]] *)
Definition getitem (j : json) (key : string) : result json :=
  match j with
  | JObject ms =>
    match assoc key ms with
    | Some v => Ok v
    | None => Raise KeyError
    end
  | JString _ => Raise TypeError
  end.

(** [j.items()] *)
Definition items (j : json) : result (list (string * json)) :=
  match j with
  | JObject ms => Ok ms
  | JString _ => Raise AttributeError
  end.

(** [from_base64(k)] on a loaded value *)
Definition from_base64_json (j : json) : result bytes :=
  match j with
  | JString s => from_base64 s
  | JObject _ => Raise TypeError
  end.

(** [{int(ch): from_base64(k) for ch, k in ms}] *)
Fixpoint loads_int_dict (ms : list (string * json)) (acc : gmap Z bytes)
    : result (gmap Z bytes) :=
  match ms with
  | [] => Ok acc
  | (ch, k) :: ms =>
    n ← int_of_str ch;
    b ← from_base64_json k;
    loads_int_dict ms (<[n := b]> acc)
  end.

(** [GlobalSecrets.deserialize] *)
Definition deserialize (secrets : json) : result GlobalSecrets :=
  cks ← getitem secrets "CHANNEL_KEYS" ≫= items;
  channel_keys ← loads_int_dict cks ∅;
  trks ← getitem secrets "TREE_ROOT_KEYS" ≫= items;
  tree_root_keys ← loads_int_dict trks ∅;
  enc_private ← getitem secrets "ENCODER_PRIVATE_KEY" ≫= from_base64_json;
  enc_public ← getitem secrets "ENCODER_PUBLIC_KEY" ≫= from_base64_json;
  id_root ← getitem secrets "ID_ROOT_KEY" ≫= from_base64_json;
  left ← getitem secrets "LEFT_TREE_KEY" ≫= from_base64_json;
  right ← getitem secrets "RIGHT_TREE_KEY" ≫= from_base64_json;
  shimmy ← getitem secrets "SYMBOL_SHIMMY_ROOT_KEY" ≫= from_base64_json;
  Ok (MkGlobalSecrets enc_private enc_public id_root channel_keys
        left right tree_root_keys shimmy).

(** [GlobalSecrets.derive_id_key] *)
Definition derive_id_key (self : GlobalSecrets) (device_id : Z) : result bytes :=
  _ ← assert ((0 <=? device_id) && (device_id <? 2 ^ 32));
  kdf_id (id_root_key self) device_id.

(** The [for _ in range(vertex.bits)] loop of [derive_tree_key]. *)
Fixpoint tree_walk (self : GlobalSecrets) (n : nat) (prefix bitmask : Z)
    (key : bytes) : result bytes :=
  match n with
  | O => Ok key
  | S n =>
    let curr_direction := Z.land prefix bitmask in
    key ← (if curr_direction =? 0
           then kdf_tree_child key (left_tree_key self)
           else kdf_tree_child key (right_tree_key self));
    tree_walk self n prefix (Z.shiftr bitmask 1) key
  end.

(** [GlobalSecrets.derive_tree_key] *)
Definition derive_tree_key (self : GlobalSecrets) (ch : Z) (vertex : Vertex)
    : result bytes :=
  _ ← assert ((0 <=? ch) && (ch <? 2 ^ 32));
  _ ← assert (0 <=? bits vertex);
  _ ← assert ((0 <=? prefix vertex) && (prefix vertex <? Z.shiftl 1 (bits vertex)));
  match tree_root_keys self !! ch with
  | None => Raise AssertionError
  | Some root_key =>
    let key := root_key in
    if bits vertex =? 0 then Ok key
    else
      let bitmask := Z.shiftl 1 (bits vertex - 1) in
      tree_walk self (Z.to_nat (bits vertex)) (prefix vertex) bitmask key
  end.

(** [GlobalSecrets.symbol_shimmy_seed] *)
Definition symbol_shimmy_seed (self : GlobalSecrets) (id : Z) : result bytes :=
  kdf_symbol_shimmy (symbol_shimmy_root_key self) id.

(** [gen_secrets] *)
Definition gen_secrets (channels : list Z) : M json :=
  secrets ← generate channels;
  mret (serialize secrets).

(** ** gen_subscription.py *)

Definition SUBSCRIPTION_MAGIC : Z := 0x41594E42.

Definition MAX_TREE_KEYS : nat := 126.

Definition ValidSubscription : list fmt :=
  [Fs (MAX_TREE_KEYS * TREE_KEY_LEN); Fs SYMMETRIC_KEY_LEN; FQ; FQ; FI; FI; FI; Fs 4].

Definition SubscriptionUpdatePayload : list fmt :=
  [FI; Fs (SYMMETRIC_METADATA_LEN + struct_size ValidSubscription)].

Definition SubscriptionUpdate : list fmt :=
  [Fs (struct_size SubscriptionUpdatePayload); Fs SIGNATURE_LEN].

(** [for v in vertices: ktree += secrets.derive_tree_key(channel, v)] *)
Fixpoint concat_tree_keys (secrets : GlobalSecrets) (channel : Z)
    (vertices : list Vertex) (ktree : bytes) : result bytes :=
  match vertices with
  | [] => Ok ktree
  | v :: vertices =>
    k ← derive_tree_key secrets channel v;
    concat_tree_keys secrets channel vertices (ktree ++ k)
  end.

Definition gen_embeddable_subscription (secrets : json)
    (device_id start end_ channel : Z) : result bytes :=
  secrets ← deserialize secrets;
  kch ← match channel_keys secrets !! channel with
        | Some k => Ok k
        | None => Raise KeyError
        end;
  vertices ← vertices_for_range start end_;
  ktree ← concat_tree_keys secrets channel vertices [];
  _ ← assert (length ktree =? length vertices * TREE_KEY_LEN)%nat;
  cstruct_pack ValidSubscription
    [VBytes ktree; VBytes kch; VInt start; VInt end_; VInt channel;
     VInt (Z.of_nat (length vertices)); VInt SUBSCRIPTION_MAGIC; VBytes []].

Definition gen_subscription (secrets : json)
    (device_id start end_ channel : Z) : M bytes :=
  valid_subscription ←
    lift (gen_embeddable_subscription secrets device_id start end_ channel);
  secrets ← lift (deserialize secrets);
  kid ← lift (derive_id_key secrets device_id);
  encrypted_subscription ← encrypt_symmetric valid_subscription kid;
  subscription_to_sign ←
    lift (cstruct_pack SubscriptionUpdatePayload
            [VInt device_id; VBytes encrypted_subscription]);
  ke_sig ← lift (sign_asymmetric subscription_to_sign (enc_private_key secrets));
  lift (cstruct_pack SubscriptionUpdate
          [VBytes subscription_to_sign; VBytes ke_sig]).

(** ** encoder.py *)

Definition MAX_FRAME_SIZE : nat := 64.

Definition FrameData : list fmt := [FI; Fs MAX_FRAME_SIZE].

Definition FrameCh : list fmt :=
  [FQ; Fs (SYMMETRIC_METADATA_LEN + struct_size FrameData); Fs 4].

Definition FramePacketPayload : list fmt :=
  [FI; Fs (SYMMETRIC_METADATA_LEN + struct_size FrameCh)].

Definition FramePacket : list fmt :=
  [Fs (struct_size FramePacketPayload); Fs SIGNATURE_LEN].

Record Encoder : Type := MkEncoder {
  keys : GlobalSecrets;
  self_channel_keys : gmap Z bytes;
  self_enc_private_key : bytes
}.

(** [Encoder.__init__] *)
Definition new_Encoder (secrets : json) : result Encoder :=
  keys ← deserialize secrets;
  Ok (MkEncoder keys (channel_keys keys) (enc_private_key keys)).

(** The [FrameData(len(frame), frame).pack()] of [encode]. *)
Definition pack_frame_data (frame : bytes) : result bytes :=
  cstruct_pack FrameData [VInt (Z.of_nat (length frame)); VBytes frame].

(** [Encoder.encode] *)
Definition encode (self : Encoder) (channel : Z) (frame : bytes) (timestamp : Z)
    : M bytes :=
  match self_channel_keys self !! channel with
  | None =>
    _ ← logger_error ("Channel " ++ str_of_int channel ++ " Not Defined" ++
                      String (ascii_of_nat 10) "");
    mret []
  | Some kch =>
    frame_data ← lift (pack_frame_data frame);
    frame_vertex ← lift (new_Vertex timestamp 64);
    tree_key ← lift (derive_tree_key (keys self) channel frame_vertex);
    ktree ← lift (kdf_tree_leaf tree_key);
    enc_frame ← encrypt_symmetric frame_data ktree;
    timestamped_frame ←
      lift (cstruct_pack FrameCh [VInt timestamp; VBytes enc_frame; VBytes []]);
    enc_timestamp ← encrypt_symmetric timestamped_frame kch;
    ch_enc_timestamp ←
      lift (cstruct_pack FramePacketPayload [VInt channel; VBytes enc_timestamp]);
    signature ←
      lift (sign_asymmetric ch_enc_timestamp (enc_private_key (keys self)));
    lift (cstruct_pack FramePacket [VBytes ch_enc_timestamp; VBytes signature])
  end.

End Toolchain.

(** ** Well-formed bundles, layouts and the descent of the specification *)

(** The line [encode] logs for a channel it does not know. *)
Definition not_defined (channel : Z) : string :=
  "Channel " ++ str_of_int channel ++ " Not Defined" ++
  String (ascii_of_nat 10) "".

(** The embeddable subscription, field by field. *)
Definition embeddable_layout (ktree kch : bytes) (start end_ channel : Z)
    (key_count : nat) : bytes :=
  pack_s (MAX_TREE_KEYS * TREE_KEY_LEN) ktree ++ pack_s SYMMETRIC_KEY_LEN kch ++
  le_split 8 start ++ le_split 8 end_ ++ le_split 4 channel ++
  le_split 4 (Z.of_nat key_count) ++ le_split 4 SUBSCRIPTION_MAGIC ++
  pack_s 4 [] ++ [].

(** The key widths of a bundle, and the two per-channel maps on the same
    channels. *)
Record wf_secrets (s : GlobalSecrets) : Prop := MkWfSecrets {
  wf_enc_private_key : length (enc_private_key s) = PRIVATE_KEY_LEN;
  wf_id_root_key : length (id_root_key s) = SYMMETRIC_KEY_LEN;
  wf_left_tree_key : length (left_tree_key s) = TREE_LEFT_RIGHT_LEN;
  wf_right_tree_key : length (right_tree_key s) = TREE_LEFT_RIGHT_LEN;
  wf_channel_keys :
    map_Forall (fun _ k => length k = SYMMETRIC_KEY_LEN) (channel_keys s);
  wf_tree_root_keys :
    map_Forall (fun _ k => length k = TREE_KEY_LEN) (tree_root_keys s);
  wf_same_channels : dom (tree_root_keys s) = dom (channel_keys s)
}.

Section Descent.
Context {mc : Monocypher}.

(** The child step as the specification words it:
    [Blake2b-16(parent_key || direction_key)], the direction key being
    the left one for bit 0 and the right one for bit 1. *)
Definition spec_child_step (s : GlobalSecrets) (parent_key : bytes) (bit : bool)
    : bytes :=
  blake2b 16 (parent_key ++ (if bit then right_tree_key s else left_tree_key s)).

(** The [n] low bits of [prefix], most significant first. *)
Definition msb_first (prefix : Z) (n : nat) : list bool :=
  (fun i => Z.testbit prefix (Z.of_nat i)) <$> rev (seq 0 n).

(** The descent as the specification words it: the child step folded
    over the bits from the most significant to the least significant. *)
Definition spec_descend (s : GlobalSecrets) (root : bytes) (path : list bool)
    : bytes :=
  foldl (spec_child_step s) root path.

End Descent.

(** ** A small instance of the library operations, to run the code on *)

Definition toy_generate_key (n : nat) (g : nat) : bytes * nat :=
  (replicate n (byte.of_Z (Z.of_nat g)), S g).

Definition toy_monocypher : Monocypher := {|
  Rng := nat;
  generate_key := toy_generate_key;
  generate_signing_key_pair g :=
    ((replicate 64 (byte.of_Z (Z.of_nat g)),
      replicate 64 (byte.of_Z (Z.of_nat g + 1))), S g);
  lock k n m := (pack_s 16 k, m);
  signature_sign k m := pack_s 64 m;
  blake2b n m := pack_s n m
|}.

Definition toy_base64 : Base64 := {|
  b64encode b := string_of_list_byte b;
  b64decode s := Some (list_byte_of_string s)
|}.

Definition toy_world : @World toy_monocypher :=
  @MkWorld toy_monocypher 0%nat [].

(** A bundle for the channels 1 and 2. *)
Definition toy_secrets : GlobalSecrets := {|
  enc_private_key := replicate 64 Byte.x10;
  enc_public_key := replicate 64 Byte.x11;
  id_root_key := replicate 32 Byte.x12;
  channel_keys :=
    <[2 := replicate 32 Byte.x22]> (<[1 := replicate 32 Byte.x21]>
      {[0 := replicate 32 Byte.x20]});
  left_tree_key := replicate 32 Byte.x13;
  right_tree_key := replicate 32 Byte.x14;
  tree_root_keys :=
    <[2 := replicate 16 Byte.x32]> (<[1 := replicate 16 Byte.x31]>
      {[0 := replicate 16 Byte.x30]});
  symbol_shimmy_root_key := replicate 32 Byte.x15
|}.

(** Its secrets file. *)
Definition toy_secrets_file : json := @serialize toy_base64 toy_secrets.

(** The encoder built from it. *)
Definition toy_encoder : Encoder :=
  MkEncoder toy_secrets (channel_keys toy_secrets) (enc_private_key toy_secrets).

(** ** Further notions *)

(** [v1] is [v2] or one of its ancestors. *)
Definition ancestor (v1 v2 : Vertex) : Prop :=
  bits v1 <= bits v2 /\ Z.shiftr (prefix v2) (bits v2 - bits v1) = prefix v1.

(** The vertex one level up. *)
Definition parent (v : Vertex) : Vertex :=
  MkVertex (Z.shiftr (prefix v) 1) (bits v - 1).

(** The block of [v] lies inside the range [start, end]. *)
Definition within (start end_ : Z) (v : Vertex) : Prop :=
  start <= v_lo v /\ v_next v <= end_ + 1.

(** No larger block around [v] lies inside the range: [v] is the root,
    or the block of its parent leaves the range. *)
Definition maximal (start end_ : Z) (v : Vertex) : Prop :=
  bits v = 0 \/ ~ within start end_ (parent v).

(** What the loop of [vertices_for_range] keeps besides [cover_inv]: the
    vertices packaged so far are maximal, and what they cover on each
    side is less than a block of the current level (of the next level,
    once the side is aligned). *)
Record gap_inv (start0 end0 s e b : Z) (front back : list Vertex) : Prop :=
  MkGapInv {
    gap_front :
      s * 2 ^ (64 - b) - start0
        < (if Z.odd s then 1 else 2) * 2 ^ (64 - b);
    gap_back :
      (end0 + 1) - (e + 1) * 2 ^ (64 - b)
        < (if Z.even e then 1 else 2) * 2 ^ (64 - b);
    gap_front_max : Forall (maximal start0 end0) front;
    gap_back_max : Forall (maximal start0 end0) back
  }.

(** The block of [w] starts in [a, b). *)
Definition starts_in (a b : Z) (w : Vertex) : bool :=
  (a <=? v_lo w) && (v_lo w <? b).

(** *** cstruct.py: [unpack] *)

(** The values of the fields laid out in a buffer. *)
Fixpoint unpack_fields (fs : list fmt) (buf : bytes) : list pyval :=
  match fs with
  | [] => []
  | f :: fs =>
    let field := take (fmt_size f) buf in
    match f with
    | FI | FQ => VInt (le_combine field)
    | Fs _ => VBytes field
    end :: unpack_fields fs (drop (fmt_size f) buf)
  end.

(** [unpack] of a [struct.Struct] with byte order ["<"]: the buffer must
    have the size of the record. *)
Definition struct_unpack (fs : list fmt) (buf : bytes) : result (list pyval) :=
  if (length buf =? struct_size fs)%nat then Ok (unpack_fields fs buf)
  else Raise StructError.

(** The value a field holds once [v] is packed into it. *)
Definition stored (f : fmt) (v : pyval) : pyval :=
  match f, v with
  | Fs n, VBytes b => VBytes (pack_s n b)
  | _, _ => v
  end.

(** The values a field accepts. *)
Definition fits (f : fmt) (v : pyval) : Prop :=
  match f, v with
  | FI, VInt z => 0 <= z < 2 ^ 32
  | FQ, VInt z => 0 <= z < 2 ^ 64
  | Fs _, VBytes _ => True
  | _, _ => False
  end.

(** The names of the members of a secrets file. *)
Definition secrets_fields : list string :=
  ["ENCODER_PRIVATE_KEY"; "ENCODER_PUBLIC_KEY"; "ID_ROOT_KEY"; "CHANNEL_KEYS";
   "LEFT_TREE_KEY"; "RIGHT_TREE_KEY"; "TREE_ROOT_KEYS";
   "SYMBOL_SHIMMY_ROOT_KEY"]%string.

(** ** design1: ectf25_design/encoder.py *)

(** AES in ECB mode as the [cryptography] package gives it:
    [Cipher(algorithms.AES(key), modes.ECB())], then [update(data)] and
    [finalize()] of its encryptor; a key or a data length it does not
    accept is an exception. *)
Class AesEcb : Type := {
  aes_ecb : bytes -> bytes -> result bytes
}.

(** With a 16-byte key, whole blocks are encrypted into as many bytes. *)
Class AesEcbSpec (aes : AesEcb) : Prop := {
  aes_ecb_blocks key data :
    length key = 16%nat -> (length data mod 16 = 0)%nat ->
    exists c, aes_ecb key data = Ok c /\ length c = length data
}.

Section Design1.
Context {aes : AesEcb}.

(** The attributes of the design1 [Encoder]. *)
Record Encoder1 : Type := MkEncoder1 {
  d1_channel_keys : gmap Z bytes;
  d1_secret_key : bytes
}.

(** [Encoder._encrypt] *)
Definition _encrypt (data key : bytes) : result bytes := aes_ecb key data.

(** The padding [encode] applies, to the frame and to the packet: if
    the length is not a multiple of 16, [0x80] and zero bytes up to the
    next multiple. *)
Definition pad16 (data : bytes) : bytes :=
  if (length data mod 16 =? 0)%nat then data
  else
    let padding := (16 - length data mod 16)%nat in
    data ++ [Byte.x80] ++ replicate (padding - 1) Byte.x00.

(** [Encoder.encode] of design1 *)
Definition encode1 (self : Encoder1) (channel : Z) (frame : bytes)
    (timestamp : Z) : result bytes :=
  if (64 <? length frame)%nat then Raise ValueError
  else
    let frame_size := length frame in
    let effective_channel := channel mod 10007 in
    channel_key ←
      (if channel =? 0 then Ok (d1_secret_key self)
       else match d1_channel_keys self !! effective_channel with
            | Some k => Ok k
            | None => Raise KeyError
            end);
    let frame := pad16 frame in
    encrypted_frame ← _encrypt frame channel_key;
    header ← struct_pack [FI; FQ; FI]
               [VInt channel; VInt timestamp; VInt (Z.of_nat frame_size)];
    let full_packet := pad16 (header ++ encrypted_frame) in
    _encrypt full_packet (d1_secret_key self).

End Design1.

(** A stand-in for AES to run design1 on: it returns the data. *)
Definition toy_aes : AesEcb := {| aes_ecb key data := Ok data |}.

Definition toy_encoder1 : Encoder1 :=
  MkEncoder1 (<[1 := replicate 16 Byte.x41]> {[0 := replicate 16 Byte.x40]})
    (replicate 16 Byte.x53).

(** ** Properties of the range cover *)

Example cover_full :
  vertices_for_range 0 (2 ^ 64 - 1) = Ok [MkVertex 0 0].
Proof. vm_compute. reflexivity. Qed.

Example cover_8_11 : vertices_for_range 8 11 = Ok [MkVertex 2 62].
Proof. vm_compute. reflexivity. Qed.

Example cover_5_10 :
  vertices_for_range 5 10 =
  Ok [MkVertex 5 64; MkVertex 3 63; MkVertex 4 63; MkVertex 10 64].
Proof. vm_compute. reflexivity. Qed.

Example cover_widest :
  (vs ← vertices_for_range 1 (2 ^ 64 - 2); Ok (length vs)) = Ok 126%nat.
Proof. vm_compute. reflexivity. Qed.

(** *** Arithmetic of the low bit and of the shift *)

Lemma land_1_even z : (Z.land z 1 =? 0) = Z.even z.
Proof.
  change 1 with (Z.ones 1). rewrite Z.land_ones by lia.
  rewrite Zeven_mod. reflexivity.
Qed.

Lemma land_1_odd z : (Z.land z 1 =? 1) = Z.odd z.
Proof.
  change 1 with (Z.ones 1) at 1. rewrite Z.land_ones by lia.
  rewrite Zodd_mod. reflexivity.
Qed.

Lemma even_half z : Z.even z = true -> z = 2 * Z.shiftr z 1.
Proof.
  intros H. rewrite Z.shiftr_div_pow2 by lia. change (2 ^ 1) with 2.
  apply Zeven_bool_iff in H. rewrite (Zeven_div2 z H) at 1.
  rewrite Z.div2_div. reflexivity.
Qed.

Lemma odd_half z : Z.odd z = true -> z = 2 * Z.shiftr z 1 + 1.
Proof.
  intros H. rewrite Z.shiftr_div_pow2 by lia. change (2 ^ 1) with 2.
  apply Zodd_bool_iff in H. rewrite (Zodd_div2 z H) at 1.
  rewrite Z.div2_div. reflexivity.
Qed.

Lemma even_odd_cases z :
  (Z.even z = true /\ Z.odd z = false) \/ (Z.even z = false /\ Z.odd z = true).
Proof. rewrite <- Z.negb_even. destruct (Z.even z); auto. Qed.

Lemma even_succ_of_odd z : Z.odd z = true -> Z.even (z + 1) = true.
Proof. intros H. rewrite Z.add_1_r, Z.even_succ. exact H. Qed.

Lemma odd_pred_of_even z : Z.even z = true -> Z.odd (z - 1) = true.
Proof. intros H. rewrite Z.sub_1_r, Z.odd_pred. exact H. Qed.

Lemma pow2_level b : 0 <= b -> 2 ^ (64 - (b - 1)) = 2 * 2 ^ (64 - b) \/ 64 < b.
Proof.
  intros Hb. destruct (Z_le_gt_dec b 64) as [H|H]; [left | right; lia].
  replace (64 - (b - 1)) with (Z.succ (64 - b)) by lia.
  apply Z.pow_succ_r. lia.
Qed.

Lemma new_Vertex_ok p b :
  0 <= b -> 0 <= p < 2 ^ b -> new_Vertex p b = Ok (MkVertex p b).
Proof.
  intros Hb [Hp1 Hp2]. unfold new_Vertex.
  destruct (Z.leb_spec 0 p); [|lia].
  destruct (Z.ltb_spec b 0); [lia|].
  rewrite Z.shiftl_1_l.
  destruct (Z.ltb_spec p (2 ^ b)); [|lia].
  reflexivity.
Qed.

(** *** Chains *)

Lemma chain_app a l1 m l2 b :
  chain a l1 m -> chain m l2 b -> chain a (l1 ++ l2) b.
Proof.
  revert a. induction l1 as [|v l1 IH]; simpl; intros a H1 H2.
  - subst. exact H2.
  - destruct H1 as [Hlo H1]. split; [exact Hlo | eauto].
Qed.

Lemma chain_snoc a l v :
  chain a l (v_lo v) -> chain a (l ++ [v]) (v_next v).
Proof.
  intros H. eapply chain_app; [exact H|]. simpl. auto.
Qed.

Lemma chain_cons_back v l b :
  chain (v_next v) l b -> chain (v_lo v) (v :: l) b.
Proof. simpl. auto. Qed.

(** *** The loop invariant *)

Lemma cover_inv_init start end_ :
  0 <= start <= end_ -> end_ < 2 ^ 64 ->
  cover_inv start end_ start end_ 64 [] [].
Proof.
  intros [H0 H1] H2. split; simpl; try lia; try constructor; try congruence.
  - destruct (Z.even start); lia.
  - destruct (Z.odd end_); lia.
Qed.

Lemma loop_cost_pos start0 end0 s e b front back :
  cover_inv start0 end0 s e b front back -> 1 <= loop_cost s e b.
Proof.
  intros [Hb (Hs & Hse & He) _ _ _ _ _ _ _ _]. unfold loop_cost.
  destruct (Z.eq_dec b 0) as [->|Hb0].
  - change (2 ^ 0) with 1 in He. assert (e = 0) as -> by lia.
    simpl. destruct (Z.even s); lia.
  - destruct (Z.even s), (Z.odd e); lia.
Qed.

Lemma cover_inv_up start0 end0 s e b front back :
  cover_inv start0 end0 s e b front back -> s < e ->
  Z.even s = true -> Z.odd e = true ->
  cover_inv start0 end0 (Z.shiftr s 1) (Z.shiftr e 1) (b - 1) front back.
Proof.
  intros [Hb (Hs & Hse & He) Hfc Hbc Hfv Hbv Hfl Hbl Hfn Hbn] Hlt Hev Hod.
  pose proof (even_half s Hev) as Es. pose proof (odd_half e Hod) as Ee.
  set (s' := Z.shiftr s 1) in *. set (e' := Z.shiftr e 1) in *.
  assert (Hb1 : 1 <= b).
  { destruct (Z.eq_dec b 0) as [->|]; [change (2 ^ 0) with 1 in He|]; lia. }
  assert (Hp : 2 ^ b = 2 * 2 ^ (b - 1)).
  { replace b with (Z.succ (b - 1)) at 1 by lia. apply Z.pow_succ_r. lia. }
  destruct (pow2_level b) as [Hq|]; [lia| |lia].
  rewrite Hev in Hfl. rewrite Hod in Hbl.
  split; try rewrite Hq.
  - lia.
  - lia.
  - replace (s' * (2 * 2 ^ (64 - b))) with (s * 2 ^ (64 - b)) by lia. exact Hfc.
  - replace ((e' + 1) * (2 * 2 ^ (64 - b))) with ((e + 1) * 2 ^ (64 - b)) by lia.
    exact Hbc.
  - exact Hfv.
  - exact Hbv.
  - destruct (Z.even s'); lia.
  - destruct (Z.odd e'); lia.
  - intros Hne. specialize (Hfn Hne). lia.
  - intros Hne. specialize (Hbn Hne). lia.
Qed.

Lemma cover_inv_front start0 end0 s e b front back :
  cover_inv start0 end0 s e b front back -> s < e ->
  Z.odd s = true ->
  cover_inv start0 end0 (s + 1) e b (front ++ [MkVertex s b]) back.
Proof.
  intros [Hb (Hs & Hse & He) Hfc Hbc Hfv Hbv Hfl Hbl Hfn Hbn] Hlt Hod.
  assert (Hev : Z.even s = false) by (rewrite <- Z.negb_odd, Hod; reflexivity).
  rewrite Hev in Hfl.
  split; try assumption.
  - lia.
  - apply (chain_snoc _ _ (MkVertex s b)). exact Hfc.
  - apply Forall_app. split; [exact Hfv|].
    constructor; [|constructor]. repeat split; simpl; try lia. exact Hod.
  - rewrite length_app. simpl. rewrite (even_succ_of_odd s Hod). lia.
  - intros _. lia.
Qed.

Lemma cover_inv_back start0 end0 s e b front back :
  cover_inv start0 end0 s e b front back -> s < e ->
  Z.even e = true ->
  cover_inv start0 end0 s (e - 1) b front (back ++ [MkVertex e b]).
Proof.
  intros [Hb (Hs & Hse & He) Hfc Hbc Hfv Hbv Hfl Hbl Hfn Hbn] Hlt Hev.
  assert (Hod : Z.odd e = false) by (rewrite <- Z.negb_even, Hev; reflexivity).
  rewrite Hod in Hbl.
  split; try assumption.
  - lia.
  - rewrite rev_app_distr. simpl. split.
    + unfold v_lo. simpl. f_equal. lia.
    + exact Hbc.
  - apply Forall_app. split; [exact Hbv|].
    constructor; [|constructor]. repeat split; simpl; try lia. exact Hev.
  - rewrite length_app. simpl. rewrite (odd_pred_of_even e Hev). lia.
  - intros _. lia.
Qed.

Lemma vertices_loop_inv start0 end0 fuel : forall s e b front back,
  cover_inv start0 end0 s e b front back ->
  loop_cost s e b <= Z.of_nat fuel ->
  exists m b' front' back',
    vertices_loop fuel s e b front back
      = Ok (front' ++ [MkVertex m b'] ++ rev back') /\
    cover_inv start0 end0 m m b' front' back'.
Proof.
  induction fuel as [|fuel IH]; intros s e b front back Hinv Hcost.
  - pose proof (loop_cost_pos _ _ _ _ _ _ _ Hinv). lia.
  - pose proof Hinv as [Hb (Hs & Hse & He) _ _ _ _ _ _ _ _].
    cbn [vertices_loop].
    destruct (Z.eqb_spec s e) as [->|Hne].
    + rewrite new_Vertex_ok by lia. exists e, b, front, back. split; [reflexivity|exact Hinv].
    + assert (Hlt : s < e) by lia.
      destruct (Z.ltb_spec s e) as [_|]; [|lia]. cbn [assert mbind result_bind].
      rewrite land_1_even, !land_1_odd. unfold loop_cost in Hcost.
      destruct (even_odd_cases s) as [[Hs1 Hs2]|[Hs1 Hs2]];
        destruct (even_odd_cases e) as [[He1 He2]|[He1 He2]];
        rewrite Hs1, ?Hs2, He2 in *; cbn [andb].
      * (* s even, e even: package end *)
        rewrite new_Vertex_ok by lia. cbn [mbind result_bind].
        apply IH; [apply cover_inv_back; assumption|].
        unfold loop_cost. rewrite Hs1, (odd_pred_of_even e He1). lia.
      * (* s even, e odd: move up *)
        apply IH; [apply cover_inv_up; assumption|].
        unfold loop_cost.
        destruct (Z.even (Z.shiftr s 1)), (Z.odd (Z.shiftr e 1)); lia.
      * (* s odd, e even: package start *)
        rewrite new_Vertex_ok by lia. cbn [mbind result_bind].
        apply IH; [apply cover_inv_front; assumption|].
        unfold loop_cost. rewrite (even_succ_of_odd s Hs2), He2. lia.
      * (* s odd, e odd: package start *)
        rewrite new_Vertex_ok by lia. cbn [mbind result_bind].
        apply IH; [apply cover_inv_front; assumption|].
        unfold loop_cost. rewrite (even_succ_of_odd s Hs2), He2. lia.
Qed.

(** *** Vertices as intervals of timestamps *)

Lemma pow2_split b : 0 <= b <= 64 -> 2 ^ b * 2 ^ (64 - b) = 2 ^ 64.
Proof. intros H. rewrite <- Z.pow_add_r by lia. f_equal. lia. Qed.

Lemma v_lo_next v :
  valid_vertex v -> 0 <= v_lo v /\ v_lo v < v_next v /\ v_next v <= 2 ^ 64.
Proof.
  intros [Hb Hp]. unfold v_lo, v_next.
  assert (0 < 2 ^ (64 - bits v)) by (apply Z.pow_pos_nonneg; lia).
  pose proof (pow2_split _ Hb). nia.
Qed.

Lemma covers_iff v t :
  valid_vertex v -> covers v t <-> v_lo v <= t < v_next v.
Proof.
  intros Hv. pose proof (v_lo_next v Hv) as (H0 & H1 & H2).
  destruct Hv as [Hb Hp]. unfold covers, v_lo, v_next in *.
  rewrite Z.shiftr_div_pow2 by lia.
  assert (Hpos : 0 < 2 ^ (64 - bits v)) by (apply Z.pow_pos_nonneg; lia).
  split.
  - intros [Ht <-].
    pose proof (Z.mul_div_le t _ Hpos).
    pose proof (Z.mul_succ_div_gt t _ Hpos). lia.
  - intros Ht. split; [lia|].
    symmetry. apply (Z.div_unique t _ (prefix v) (t - prefix v * 2 ^ (64 - bits v))); lia.
Qed.

Lemma chain_le a vs b : Forall valid_vertex vs -> chain a vs b -> a <= b.
Proof.
  intros Hv. revert a. induction Hv as [|v vs Hv _ IH]; simpl; intros a H.
  - lia.
  - destruct H as [<- H]. apply IH in H. pose proof (v_lo_next v Hv). lia.
Qed.

Lemma chain_covers a vs b :
  Forall valid_vertex vs -> chain a vs b ->
  forall t, (exists v, v ∈ vs /\ covers v t) <-> a <= t < b.
Proof.
  intros Hv. revert a. induction Hv as [|v vs Hv Hvs IH]; simpl; intros a H t.
  - split; [intros (v & Hin & _); inversion Hin | lia].
  - destruct H as [<- H]. pose proof (chain_le _ _ _ Hvs H) as Hle.
    pose proof (v_lo_next v Hv) as (_ & Hlt & _).
    specialize (IH _ H t). split.
    + intros (w & Hin & Hc). apply elem_of_cons in Hin as [->|Hin].
      * apply covers_iff in Hc; [lia|assumption].
      * assert (v_next v <= t < b) by (apply IH; eauto). lia.
    + intros Ht. destruct (Z_lt_ge_dec t (v_next v)) as [Hl|Hg].
      * exists v. split; [left|]. apply covers_iff; [assumption|lia].
      * destruct IH as [_ IH]. destruct IH as (w & Hin & Hc); [lia|].
        exists w. split; [right; exact Hin | exact Hc].
Qed.

Lemma chain_lookup_lo a vs b i v :
  Forall valid_vertex vs -> chain a vs b -> vs !! i = Some v ->
  a <= v_lo v /\ v_next v <= b.
Proof.
  intros Hv. revert a i. induction Hv as [|w vs Hw Hvs IH]; simpl; intros a i H Hi.
  - discriminate.
  - destruct H as [<- H]. pose proof (chain_le _ _ _ Hvs H).
    pose proof (v_lo_next w Hw). destruct i as [|i]; simpl in Hi.
    + injection Hi as ->. lia.
    + destruct (IH _ _ H Hi). lia.
Qed.

Lemma chain_ordered a vs b i j vi vj :
  Forall valid_vertex vs -> chain a vs b -> (i < j)%nat ->
  vs !! i = Some vi -> vs !! j = Some vj -> v_next vi <= v_lo vj.
Proof.
  intros Hv. revert a i j.
  induction Hv as [|w vs Hw Hvs IH]; simpl; intros a i j H Hij Hi Hj.
  - discriminate.
  - destruct H as [<- H]. destruct j as [|j]; [lia|]. simpl in Hj.
    destruct i as [|i]; simpl in Hi.
    + injection Hi as ->. destruct (chain_lookup_lo _ _ _ _ _ Hvs H Hj). lia.
    + apply (IH _ i j H); [lia|assumption..].
Qed.

Lemma chain_adjacent a vs b i v1 v2 :
  chain a vs b -> vs !! i = Some v1 -> vs !! S i = Some v2 ->
  v_next v1 = v_lo v2.
Proof.
  revert a i. induction vs as [|w vs IH]; simpl; intros a i H H1 H2.
  - discriminate.
  - destruct H as [_ H]. destruct i as [|i]; simpl in H1, H2.
    + injection H1 as ->. destruct vs as [|u vs]; [discriminate|].
      injection H2 as ->. destruct H as [H _]. symmetry. exact H.
    + eapply IH; eassumption.
Qed.

(** *** Mergeable vertices are siblings *)

Lemma pow2_sum a b c :
  0 <= a -> 0 <= b -> 0 <= c -> 2 ^ c = 2 ^ a + 2 ^ b -> a = b /\ c = a + 1.
Proof.
  intros Ha Hb Hc H.
  assert (Hpa : 0 < 2 ^ a) by (apply Z.pow_pos_nonneg; lia).
  assert (Hpb : 0 < 2 ^ b) by (apply Z.pow_pos_nonneg; lia).
  assert (Hac : a < c) by (apply (Z.pow_lt_mono_r_iff 2); lia).
  assert (Hbc : b < c) by (apply (Z.pow_lt_mono_r_iff 2); lia).
  assert (Hab : a = b).
  { destruct (Z.lt_trichotomy a b) as [Hlt|[Heq|Hgt]]; [exfalso|exact Heq|exfalso].
    - replace c with (a + Z.succ (c - a - 1)) in H by lia.
      replace b with (a + Z.succ (b - a - 1)) in H by lia.
      rewrite !Z.pow_add_r, !Z.pow_succ_r in H by lia.
      assert (0 < 2 ^ (c - a - 1)) by (apply Z.pow_pos_nonneg; lia).
      assert (0 < 2 ^ (b - a - 1)) by (apply Z.pow_pos_nonneg; lia).
      assert (2 * 2 ^ (c - a - 1) = 1 + 2 * 2 ^ (b - a - 1)) by nia. lia.
    - replace c with (b + Z.succ (c - b - 1)) in H by lia.
      replace a with (b + Z.succ (a - b - 1)) in H by lia.
      rewrite !Z.pow_add_r, !Z.pow_succ_r in H by lia.
      assert (0 < 2 ^ (c - b - 1)) by (apply Z.pow_pos_nonneg; lia).
      assert (0 < 2 ^ (a - b - 1)) by (apply Z.pow_pos_nonneg; lia).
      assert (2 * 2 ^ (c - b - 1) = 2 * 2 ^ (a - b - 1) + 1) by nia. lia. }
  split; [exact Hab|]. subst b.
  apply (Z.pow_inj_r 2); try lia.
  rewrite Z.pow_add_r by lia. change (2 ^ 1) with 2. lia.
Qed.

Lemma mergeable_siblings v1 v2 :
  valid_vertex v1 -> valid_vertex v2 -> v_next v1 = v_lo v2 ->
  mergeable v1 v2 ->
  bits v1 = bits v2 /\ Z.even (prefix v1) = true /\ Z.odd (prefix v2) = true.
Proof.
  intros Hv1 Hv2 Hadj (w & Hw & Hcov).
  pose proof (v_lo_next v1 Hv1) as (? & ? & ?).
  pose proof (v_lo_next v2 Hv2) as (? & ? & ?).
  pose proof (v_lo_next w Hw) as (? & ? & ?).
  assert (Hcov' : forall t, v_lo w <= t < v_next w <->
                            v_lo v1 <= t < v_next v1 \/ v_lo v2 <= t < v_next v2).
  { intros t. rewrite <- !covers_iff by assumption. apply Hcov. }
  assert (Hlo : v_lo w = v_lo v1).
  { pose proof (proj2 (Hcov' (v_lo v1))). pose proof (proj1 (Hcov' (v_lo w))). lia. }
  assert (Hnx : v_next w = v_next v2).
  { pose proof (proj2 (Hcov' (v_next v2 - 1))).
    pose proof (proj1 (Hcov' (v_next w - 1))). lia. }
  destruct Hv1 as [Hb1 Hp1], Hv2 as [Hb2 Hp2], Hw as [Hbw Hpw].
  unfold v_lo, v_next in *.
  set (n1 := 64 - bits v1) in *. set (n2 := 64 - bits v2) in *.
  set (nw := 64 - bits w) in *.
  assert (Hsum : 2 ^ nw = 2 ^ n1 + 2 ^ n2) by lia.
  apply pow2_sum in Hsum as [Hn Hnw]; try (subst n1 n2 nw; lia).
  assert (0 < 2 ^ n1) by (apply Z.pow_pos_nonneg; subst n1; lia).
  rewrite Hnw, <- Hn in *.
  rewrite Z.pow_add_r in Hlo by (subst n1; lia). change (2 ^ 1) with 2 in Hlo.
  assert (E1 : prefix v1 = 2 * prefix w) by nia.
  assert (E2 : prefix v2 = 2 * prefix w + 1) by nia.
  split; [subst n1 n2; lia|]. rewrite E1, E2. split.
  - apply Z.even_mul.
  - rewrite Z.add_1_r, Z.odd_succ. apply Z.even_mul.
Qed.

(** *** What the loop returns *)

Lemma vertices_for_range_shape start end_ :
  0 <= start -> start <= end_ -> end_ < 2 ^ 64 ->
  exists m b front back,
    vertices_for_range start end_ = Ok (front ++ [MkVertex m b] ++ rev back) /\
    cover_inv start end_ m m b front back.
Proof.
  intros H0 H1 H2. apply vertices_loop_inv.
  - apply cover_inv_init; lia.
  - unfold loop_cost, loop_fuel. destruct (Z.even start), (Z.odd end_); lia.
Qed.

Lemma cover_final_valid start0 end0 m b front back :
  cover_inv start0 end0 m m b front back ->
  Forall valid_vertex (front ++ [MkVertex m b] ++ rev back).
Proof.
  intros [Hb (Hs & Hse & He) _ _ Hfv Hbv _ _ _ _].
  apply Forall_app. split; [|apply Forall_app; split].
  - eapply Forall_impl; [exact Hfv|]. intros v [Hv _]. exact Hv.
  - constructor; [|constructor]. split; simpl; lia.
  - apply Forall_rev. eapply Forall_impl; [exact Hbv|]. intros v [Hv _]. exact Hv.
Qed.

Lemma cover_final_chain start0 end0 m b front back :
  cover_inv start0 end0 m m b front back ->
  chain start0 (front ++ [MkVertex m b] ++ rev back) (end0 + 1).
Proof.
  intros [_ _ Hfc Hbc _ _ _ _ _ _].
  eapply chain_app; [exact Hfc|]. simpl. split; [reflexivity|exact Hbc].
Qed.

Lemma cover_final_length start0 end0 m b front back :
  cover_inv start0 end0 m m b front back ->
  (length (front ++ [MkVertex m b] ++ rev back) <= 126)%nat.
Proof.
  intros [Hb (Hs & Hse & He) _ _ _ _ Hfl Hbl Hfn Hbn].
  rewrite !length_app, length_rev. simpl.
  destruct front as [|f front]; destruct back as [|k back]; simpl in *.
  - lia.
  - destruct (Z.odd m); lia.
  - destruct (Z.even m); lia.
  - assert (1 <= m) by (apply Hfn; discriminate).
    assert (m <= 2 ^ b - 2) by (apply Hbn; discriminate).
    assert (2 <= b).
    { destruct (Z.eq_dec b 0) as [->|]; [change (2 ^ 0) with 1 in *; lia|].
      destruct (Z.eq_dec b 1) as [->|]; [change (2 ^ 1) with 2 in *; lia|]. lia. }
    destruct (even_odd_cases m) as [[E1 E2]|[E1 E2]]; rewrite E1 in Hfl; rewrite E2 in Hbl; lia.
Qed.

Lemma cover_final_adjacent start0 end0 m b front back i v1 v2 :
  cover_inv start0 end0 m m b front back ->
  (front ++ [MkVertex m b] ++ rev back) !! i = Some v1 ->
  (front ++ [MkVertex m b] ++ rev back) !! S i = Some v2 ->
  Z.odd (prefix v1) = true \/ Z.even (prefix v2) = true.
Proof.
  intros [_ _ _ _ Hfv Hbv _ _ _ _] H1 H2.
  destruct (Nat.lt_ge_cases i (length front)) as [Hlt|Hge].
  - left. rewrite lookup_app_l in H1 by exact Hlt.
    rewrite Forall_lookup in Hfv. apply (Hfv _ _ H1).
  - right. rewrite lookup_app_r in H2 by lia.
    replace (S i - length front)%nat with (S (i - length front)) in H2 by lia.
    simpl in H2. apply list_elem_of_lookup_2 in H2.
    apply list_elem_of_In, in_rev, list_elem_of_In in H2.
    rewrite Forall_forall in Hbv. apply (Hbv _ H2).
Qed.

(** C1: on every 64-bit range with [start <= end], [vertices_for_range]
    returns a list of well-formed vertices such that: a timestamp lies
    under one of them exactly when it is in the closed interval
    [start, end]; no timestamp lies under two of them; every timestamp
    under an earlier vertex is strictly before every timestamp under a
    later one; there are at most 127 of them; and no two neighbours can
    be replaced by one vertex covering the same timestamps. *)
Theorem vertices_for_range_cover start end_ :
  0 <= start -> start <= end_ -> end_ < 2 ^ 64 ->
  exists vs,
    vertices_for_range start end_ = Ok vs /\
    Forall valid_vertex vs /\
    (forall t, (exists v, v ∈ vs /\ covers v t) <-> start <= t <= end_) /\
    (forall i j vi vj t, i <> j -> vs !! i = Some vi -> vs !! j = Some vj ->
       ~ (covers vi t /\ covers vj t)) /\
    (forall i j vi vj ti tj, (i < j)%nat ->
       vs !! i = Some vi -> vs !! j = Some vj ->
       covers vi ti -> covers vj tj -> ti < tj) /\
    (length vs <= 127)%nat /\
    (forall i v1 v2, vs !! i = Some v1 -> vs !! S i = Some v2 ->
       ~ mergeable v1 v2).
Proof.
  intros H0 H1 H2.
  destruct (vertices_for_range_shape start end_ H0 H1 H2)
    as (m & b & front & back & Hrun & Hinv).
  pose proof (cover_final_valid _ _ _ _ _ _ Hinv) as Hvalid.
  pose proof (cover_final_chain _ _ _ _ _ _ Hinv) as Hchain.
  pose proof (cover_final_length _ _ _ _ _ _ Hinv) as Hlen.
  set (vs := front ++ [MkVertex m b] ++ rev back) in *.
  assert (Hord : forall i j vi vj ti tj, (i < j)%nat ->
            vs !! i = Some vi -> vs !! j = Some vj ->
            covers vi ti -> covers vj tj -> ti < tj).
  { intros i j vi vj ti tj Hij Hi Hj Hci Hcj.
    pose proof (chain_ordered _ _ _ _ _ _ _ Hvalid Hchain Hij Hi Hj).
    rewrite Forall_lookup in Hvalid.
    apply covers_iff in Hci; [|eapply Hvalid; eassumption].
    apply covers_iff in Hcj; [|eapply Hvalid; eassumption]. lia. }
  exists vs. split_and!.
  - exact Hrun.
  - exact Hvalid.
  - intros t. rewrite (chain_covers _ _ _ Hvalid Hchain). lia.
  - intros i j vi vj t Hij Hi Hj [Hci Hcj].
    destruct (Nat.lt_total i j) as [Hlt|[Heq|Hgt]]; [|contradiction|].
    + pose proof (Hord _ _ _ _ _ _ Hlt Hi Hj Hci Hcj). lia.
    + pose proof (Hord _ _ _ _ _ _ Hgt Hj Hi Hcj Hci). lia.
  - exact Hord.
  - lia.
  - intros i v1 v2 Hi HSi Hm.
    pose proof (chain_adjacent _ _ _ _ _ _ Hchain Hi HSi) as Hadj.
    rewrite Forall_lookup in Hvalid.
    destruct (mergeable_siblings v1 v2 (Hvalid _ _ Hi) (Hvalid _ _ HSi) Hadj Hm)
      as (_ & Hev & Hod).
    destruct (cover_final_adjacent _ _ _ _ _ _ _ _ _ Hinv Hi HSi) as [Ho|He].
    + rewrite <- Z.negb_even, Hev in Ho. discriminate.
    + rewrite <- Z.negb_even, He in Hod. discriminate.
Qed.

Lemma vertices_for_range_cover_witness :
  exists vs,
    vertices_for_range 5 10 = Ok vs /\
    Forall valid_vertex vs /\
    (forall t, (exists v, v ∈ vs /\ covers v t) <-> 5 <= t <= 10) /\
    (forall i j vi vj t, i <> j -> vs !! i = Some vi -> vs !! j = Some vj ->
       ~ (covers vi t /\ covers vj t)) /\
    (forall i j vi vj ti tj, (i < j)%nat ->
       vs !! i = Some vi -> vs !! j = Some vj ->
       covers vi ti -> covers vj tj -> ti < tj) /\
    (length vs <= 127)%nat /\
    (forall i v1 v2, vs !! i = Some v1 -> vs !! S i = Some v2 ->
       ~ mergeable v1 v2).
Proof. apply (vertices_for_range_cover 5 10); lia. Defined.

(** The cover of a 64-bit range never has more than 126 vertices. *)
Lemma vertices_for_range_length start end_ :
  0 <= start -> start <= end_ -> end_ < 2 ^ 64 ->
  exists vs, vertices_for_range start end_ = Ok vs /\ (length vs <= 126)%nat.
Proof.
  intros H0 H1 H2.
  destruct (vertices_for_range_shape start end_ H0 H1 H2)
    as (m & b & front & back & Hrun & Hinv).
  eexists. split; [exact Hrun|]. eapply cover_final_length. exact Hinv.
Qed.

(** ** Packed records *)

Lemma pack_s_length n b : length (pack_s n b) = n.
Proof.
  unfold pack_s. rewrite length_app, length_take, length_replicate. lia.
Qed.

Lemma pack_s_exact n b : length b = n -> pack_s n b = b.
Proof.
  intros <-. unfold pack_s. rewrite firstn_all, Nat.sub_diag. simpl.
  apply app_nil_r.
Qed.

Lemma pack_s_short n b :
  (length b <= n)%nat -> pack_s n b = b ++ replicate (n - length b) Byte.x00.
Proof. intros H. unfold pack_s. rewrite take_ge by exact H. reflexivity. Qed.

Lemma pack_s_long n b : (n <= length b)%nat -> pack_s n b = take n b.
Proof.
  intros H. unfold pack_s. replace (n - length b)%nat with 0%nat by lia.
  simpl. apply app_nil_r.
Qed.

Lemma pack_uint_ok width z :
  0 <= z < 2 ^ (8 * Z.of_nat width) -> pack_uint width z = Ok (le_split width z).
Proof.
  intros [H0 H1]. unfold pack_uint.
  destruct (Z.leb_spec 0 z); [|lia].
  destruct (Z.ltb_spec z (2 ^ (8 * Z.of_nat width))); [|lia]. reflexivity.
Qed.

Lemma pack_field_length f v b :
  pack_field f v = Ok b -> length b = fmt_size f.
Proof.
  destruct f, v; simpl; try discriminate.
  - unfold pack_uint. destruct (_ && _); [|discriminate].
    intros [= <-]. apply length_le_split.
  - unfold pack_uint. destruct (_ && _); [|discriminate].
    intros [= <-]. apply length_le_split.
  - intros [= <-]. apply pack_s_length.
Qed.

(** Every packed record has the size of its class. *)
Lemma struct_pack_length fs : forall vs b,
  struct_pack fs vs = Ok b -> length b = struct_size fs.
Proof.
  induction fs as [|f fs IH]; intros [|v vs] b; simpl; try discriminate.
  - intros [= <-]. reflexivity.
  - destruct (pack_field f v) as [x|] eqn:Ef; simpl; [|discriminate].
    destruct (struct_pack fs vs) as [rest|] eqn:Er; simpl; [|discriminate].
    intros [= <-]. rewrite length_app.
    rewrite (pack_field_length _ _ _ Ef), (IH _ _ Er). reflexivity.
Qed.

(** A record built from one value per field packs as [st.pack] does. *)
Lemma cstruct_pack_eq fs vs :
  length vs = length fs -> cstruct_pack fs vs = struct_pack fs vs.
Proof.
  intros H. unfold cstruct_pack, cstruct_new.
  rewrite (proj2 (Nat.eqb_eq _ _) H). reflexivity.
Qed.

(** The sizes the sources assert. *)
Example ValidSubscription_size : struct_size ValidSubscription = 2080%nat.
Proof. reflexivity. Qed.

Example SubscriptionUpdatePayload_size :
  struct_size SubscriptionUpdatePayload = 2124%nat.
Proof. reflexivity. Qed.

Example SubscriptionUpdate_size : struct_size SubscriptionUpdate = 2188%nat.
Proof. reflexivity. Qed.

Example FrameData_size : struct_size FrameData = 68%nat.
Proof. reflexivity. Qed.

Example FrameCh_size : struct_size FrameCh = 120%nat.
Proof. reflexivity. Qed.

Example FramePacketPayload_size : struct_size FramePacketPayload = 164%nat.
Proof. reflexivity. Qed.

Example FramePacket_size : struct_size FramePacket = 228%nat.
Proof. reflexivity. Qed.

(** ** The crypto wrappers *)

Lemma assert_ok c : c = true -> assert c = Ok tt.
Proof. intros ->. reflexivity. Qed.

Lemma bind_Ok {A B} (a : A) (f : A -> result B) : (Ok a ≫= f) = f a.
Proof. reflexivity. Qed.

Lemma assert_length {A} (l : list A) n :
  length l = n -> assert (length l =? n)%nat = Ok tt.
Proof. intros ->. rewrite Nat.eqb_refl. reflexivity. Qed.

Lemma assert_u32 z :
  0 <= z < 2 ^ 32 -> assert ((0 <=? z) && (z <? 2 ^ 32)) = Ok tt.
Proof.
  intros [H0 H1]. apply assert_ok.
  destruct (Z.leb_spec 0 z); [|lia]. destruct (Z.ltb_spec z (2 ^ 32)); [|lia].
  reflexivity.
Qed.

Section Wrappers.
Context {mc : Monocypher} {mcs : MonocypherSpec mc}.

Lemma hash_length_ok m n : hash_length m n = Ok (blake2b n m).
Proof.
  unfold hash_length. rewrite assert_length by apply blake2b_length.
  reflexivity.
Qed.

Lemma kdf_tree_child_ok parent lr :
  length parent = TREE_KEY_LEN -> length lr = TREE_LEFT_RIGHT_LEN ->
  kdf_tree_child parent lr = Ok (blake2b 16 (parent ++ lr)).
Proof.
  intros Hp Hl. unfold kdf_tree_child.
  rewrite (assert_length _ _ Hp), (assert_length _ _ Hl).
  rewrite cstruct_pack_eq by reflexivity.
  cbn [mbind result_bind struct_pack TreeChildTmp pack_field].
  rewrite (pack_s_exact _ _ Hp), (pack_s_exact _ _ Hl), app_nil_r.
  rewrite hash_length_ok. cbn [mbind result_bind].
  rewrite assert_length by apply blake2b_length. reflexivity.
Qed.

Lemma kdf_tree_leaf_ok leaf :
  length leaf = TREE_KEY_LEN -> kdf_tree_leaf leaf = Ok (blake2b 32 leaf).
Proof.
  intros Hl. unfold kdf_tree_leaf. rewrite (assert_length _ _ Hl).
  cbn [mbind result_bind]. rewrite hash_length_ok. cbn [mbind result_bind].
  rewrite assert_length by apply blake2b_length. reflexivity.
Qed.

Lemma kdf_id_ok root id :
  length root = SYMMETRIC_KEY_LEN -> 0 <= id < 2 ^ 32 ->
  kdf_id root id = Ok (blake2b 32 (le_split 4 id ++ root)).
Proof.
  intros Hr Hid. unfold kdf_id.
  rewrite (assert_length _ _ Hr), (assert_u32 _ Hid).
  cbn [mbind result_bind struct_pack pack_field].
  rewrite pack_uint_ok by (simpl; lia). cbn [mbind result_bind].
  rewrite (pack_s_exact 32 root Hr), app_nil_r.
  rewrite hash_length_ok. cbn [mbind result_bind].
  rewrite assert_length by apply blake2b_length. reflexivity.
Qed.

Lemma sign_asymmetric_ok m sk :
  length sk = PRIVATE_KEY_LEN ->
  sign_asymmetric m sk = Ok (signature_sign sk m).
Proof.
  intros Hk. unfold sign_asymmetric. rewrite (assert_length _ _ Hk).
  cbn [mbind result_bind].
  rewrite assert_length by apply signature_sign_length. reflexivity.
Qed.

Lemma encrypt_symmetric_ok p k w :
  length k = SYMMETRIC_KEY_LEN ->
  let nonce := (generate_key SYMMETRIC_NONCE_LEN (w_rng w)).1 in
  let mac := (lock k nonce p).1 in
  let ct := (lock k nonce p).2 in
  encrypt_symmetric p k w
    = (Ok (mac ++ nonce ++ ct), after_draw SYMMETRIC_NONCE_LEN w).
Proof.
  intros Hk nonce mac ct. unfold encrypt_symmetric, after_draw.
  cbv [mbind M_bind lift random_bytes].
  rewrite (assert_length _ _ Hk).
  destruct (generate_key SYMMETRIC_NONCE_LEN (w_rng w)) as [n g] eqn:En.
  pose proof (generate_key_length SYMMETRIC_NONCE_LEN (w_rng w)) as Hn.
  rewrite En in Hn. simpl in Hn. subst nonce mac ct. simpl.
  destruct (lock k n p) as [m c] eqn:El.
  pose proof (lock_length k n p) as [Hm Hc]. rewrite El in Hm, Hc. simpl in Hm, Hc.
  rewrite assert_length; [reflexivity|].
  rewrite !length_app, Hm, Hn, Hc. unfold SYMMETRIC_METADATA_LEN. lia.
Qed.

End Wrappers.

(** The small instance meets what the wrappers rely on. *)
Lemma toy_monocypher_spec : MonocypherSpec toy_monocypher.
Proof.
  split; intros.
  - apply length_replicate.
  - apply length_replicate.
  - split; [apply pack_s_length | reflexivity].
  - apply pack_s_length.
  - apply pack_s_length.
Qed.

Lemma toy_base64_spec : Base64Spec toy_base64.
Proof.
  split. intros x. simpl. f_equal. apply list_byte_of_string_of_list_byte.
Qed.

(** C9: for every plaintext [p] and 32-byte key [k],
    [encrypt_symmetric(p, k)] returns the MAC (16 bytes), then the nonce
    it has just drawn from the random source (24 bytes), then the
    ciphertext (as long as [p]): [|p| + 40] bytes, the MAC first. *)
Theorem encrypt_symmetric_layout {mc : Monocypher} {mcs : MonocypherSpec mc}
    (p k : bytes) (w : World) :
  length k = 32%nat ->
  exists mac nonce ct w',
    encrypt_symmetric p k w = (Ok (mac ++ nonce ++ ct), w') /\
    (nonce, w_rng w') = generate_key 24 (w_rng w) /\
    (mac, ct) = lock k nonce p /\
    length mac = 16%nat /\ length nonce = 24%nat /\ length ct = length p /\
    length (mac ++ nonce ++ ct) = (length p + 40)%nat /\
    take 16 (mac ++ nonce ++ ct) = mac.
Proof.
  intros Hk.
  pose proof (encrypt_symmetric_ok p k w Hk) as Hrun. cbv zeta in Hrun.
  pose proof (generate_key_length SYMMETRIC_NONCE_LEN (w_rng w)) as Hn.
  set (nonce := (generate_key SYMMETRIC_NONCE_LEN (w_rng w)).1) in *.
  pose proof (lock_length k nonce p) as [Hm Hc].
  exists (lock k nonce p).1, nonce, (lock k nonce p).2,
    (after_draw SYMMETRIC_NONCE_LEN w).
  split_and!; try assumption.
  - subst nonce. unfold after_draw. simpl.
    destruct (generate_key _ _); reflexivity.
  - destruct (lock k nonce p); reflexivity.
  - rewrite !length_app, Hm, Hn, Hc.
    unfold SYMMETRIC_MAC_LEN, SYMMETRIC_NONCE_LEN. lia.
  - rewrite take_app_length'; [reflexivity | symmetry; exact Hm].
Qed.

Lemma encrypt_symmetric_layout_witness :
  exists mac nonce ct (w' : @World toy_monocypher),
    @encrypt_symmetric toy_monocypher [Byte.x68; Byte.x69]
       (replicate 32 Byte.x2a) toy_world
      = (Ok (mac ++ nonce ++ ct), w') /\
    (nonce, w_rng w') = @generate_key toy_monocypher 24 (w_rng toy_world) /\
    (mac, ct) = @lock toy_monocypher (replicate 32 Byte.x2a) nonce
                  [Byte.x68; Byte.x69] /\
    length mac = 16%nat /\ length nonce = 24%nat /\
    length ct = length [Byte.x68; Byte.x69] /\
    length (mac ++ nonce ++ ct) = (length [Byte.x68; Byte.x69] + 40)%nat /\
    take 16 (mac ++ nonce ++ ct) = mac.
Proof.
  apply (@encrypt_symmetric_layout toy_monocypher toy_monocypher_spec).
  reflexivity.
Defined.

(** ** The KDF tree *)

Lemma land_pow2_testbit p n :
  0 <= n -> (Z.land p (2 ^ n) =? 0) = negb (Z.testbit p n).
Proof.
  intros Hn.
  assert (H : Z.land p (2 ^ n) = if Z.testbit p n then 2 ^ n else 0).
  { apply Z.bits_inj'. intros i Hi.
    rewrite Z.land_spec, Z.pow2_bits_eqb by exact Hn.
    destruct (Z.eqb_spec n i) as [->|Hne].
    - destruct (Z.testbit p i) eqn:E; simpl.
      + rewrite Z.pow2_bits_true by exact Hi. reflexivity.
      + rewrite Z.bits_0. reflexivity.
    - rewrite andb_false_r. destruct (Z.testbit p n).
      + rewrite Z.pow2_bits_false by lia. reflexivity.
      + rewrite Z.bits_0. reflexivity. }
  rewrite H. destruct (Z.testbit p n); simpl.
  - apply Z.eqb_neq. assert (0 < 2 ^ n) by (apply Z.pow_pos_nonneg; lia). lia.
  - reflexivity.
Qed.

Lemma msb_first_S p n :
  msb_first p (S n) = Z.testbit p (Z.of_nat n) :: msb_first p n.
Proof.
  unfold msb_first. rewrite seq_S, rev_app_distr. reflexivity.
Qed.

Lemma length_msb_first p n : length (msb_first p n) = n.
Proof. unfold msb_first. rewrite length_fmap, length_rev. apply length_seq. Qed.

Section Tree.
Context {mc : Monocypher} {mcs : MonocypherSpec mc}.

Lemma spec_child_step_length s k b : length (spec_child_step s k b) = 16%nat.
Proof. apply blake2b_length. Qed.

Lemma spec_descend_length s path : forall root,
  length root = 16%nat -> length (spec_descend s root path) = 16%nat.
Proof.
  induction path as [|b path IH]; intros root Hr; simpl; [exact Hr|].
  apply IH. apply spec_child_step_length.
Qed.

Lemma tree_walk_step s n p key :
  length (left_tree_key s) = TREE_LEFT_RIGHT_LEN ->
  length (right_tree_key s) = TREE_LEFT_RIGHT_LEN ->
  length key = TREE_KEY_LEN ->
  tree_walk s (S n) p (2 ^ Z.of_nat n) key
    = tree_walk s n p (Z.shiftr (2 ^ Z.of_nat n) 1)
        (spec_child_step s key (Z.testbit p (Z.of_nat n))).
Proof.
  intros Hl Hr Hk. cbn [tree_walk].
  rewrite land_pow2_testbit by lia. unfold spec_child_step.
  destruct (Z.testbit p (Z.of_nat n)); cbn [negb].
  - rewrite kdf_tree_child_ok by assumption. reflexivity.
  - rewrite kdf_tree_child_ok by assumption. reflexivity.
Qed.

Lemma tree_walk_descend s p n : forall key,
  length (left_tree_key s) = TREE_LEFT_RIGHT_LEN ->
  length (right_tree_key s) = TREE_LEFT_RIGHT_LEN ->
  length key = TREE_KEY_LEN ->
  tree_walk s (S n) p (2 ^ Z.of_nat n) key
    = Ok (spec_descend s key (msb_first p (S n))).
Proof.
  induction n as [|n IH]; intros key Hl Hr Hk.
  - rewrite tree_walk_step by assumption. reflexivity.
  - rewrite tree_walk_step by assumption.
    replace (Z.shiftr (2 ^ Z.of_nat (S n)) 1) with (2 ^ Z.of_nat n).
    + rewrite IH; [|exact Hl|exact Hr|apply spec_child_step_length].
      rewrite (msb_first_S p (S n)). reflexivity.
    + rewrite Z.shiftr_div_pow2 by lia. change (2 ^ 1) with 2.
      rewrite Nat2Z.inj_succ, Z.pow_succ_r by lia.
      rewrite Z.mul_comm, Z.div_mul by lia. reflexivity.
Qed.

Lemma derive_tree_key_run s ch v root :
  tree_root_keys s !! ch = Some root -> length root = TREE_KEY_LEN ->
  length (left_tree_key s) = TREE_LEFT_RIGHT_LEN ->
  length (right_tree_key s) = TREE_LEFT_RIGHT_LEN ->
  0 <= ch < 2 ^ 32 -> 0 <= bits v -> 0 <= prefix v < 2 ^ bits v ->
  derive_tree_key s ch v
    = Ok (if bits v =? 0 then root
          else spec_descend s root (msb_first (prefix v) (Z.to_nat (bits v)))).
Proof.
  intros Hroot Hrl Hl Hr Hch Hb Hp. unfold derive_tree_key.
  rewrite (assert_u32 _ Hch). cbn [mbind result_bind].
  rewrite (assert_ok (0 <=? bits v)) by (apply Z.leb_le; lia).
  cbn [mbind result_bind].
  rewrite !Z.shiftl_1_l, assert_ok; cycle 1.
  { destruct (Z.leb_spec 0 (prefix v)); [|lia].
    destruct (Z.ltb_spec (prefix v) (2 ^ bits v)); [reflexivity|lia]. }
  cbn [mbind result_bind]. rewrite Hroot.
  destruct (Z.eqb_spec (bits v) 0) as [E|E]; [reflexivity|].
  remember (Z.to_nat (bits v - 1)) as n eqn:En.
  replace (Z.to_nat (bits v)) with (S n) by lia.
  replace (bits v - 1) with (Z.of_nat n) by lia.
  apply tree_walk_descend; assumption.
Qed.

Lemma derive_tree_key_length s ch v root :
  wf_secrets s -> tree_root_keys s !! ch = Some root ->
  0 <= ch < 2 ^ 32 -> 0 <= bits v -> 0 <= prefix v < 2 ^ bits v ->
  exists k, derive_tree_key s ch v = Ok k /\ length k = 16%nat.
Proof.
  intros Hwf Hroot Hch Hb Hp.
  pose proof (wf_tree_root_keys s Hwf _ _ Hroot) as Hr.
  eexists. split.
  - apply derive_tree_key_run; try eassumption; apply Hwf.
  - destruct (bits v =? 0); [exact Hr|]. apply spec_descend_length. exact Hr.
Qed.

End Tree.

(** C2: for a channel of [tree_root_keys] and a vertex with
    [0 <= bits <= 64] and [prefix < 2^bits], [derive_tree_key] returns
    the channel's root key when [bits] is 0, and otherwise the child
    step folded over the [bits] bits of [prefix] from the most to the
    least significant, the step for bit 0 hashing the 16-byte parent key
    followed by the 32-byte left key and the step for bit 1 hashing it
    followed by the 32-byte right key. *)
Theorem derive_tree_key_descent {mc : Monocypher} {mcs : MonocypherSpec mc}
    (s : GlobalSecrets) (ch : Z) (v : Vertex) (root : bytes) :
  tree_root_keys s !! ch = Some root -> length root = 16%nat ->
  length (left_tree_key s) = 32%nat -> length (right_tree_key s) = 32%nat ->
  0 <= ch < 2 ^ 32 -> 0 <= bits v <= 64 -> 0 <= prefix v < 2 ^ bits v ->
  derive_tree_key s ch v
    = Ok (if bits v =? 0 then root
          else spec_descend s root (msb_first (prefix v) (Z.to_nat (bits v)))).
Proof.
  intros Hroot Hrl Hl Hr Hch Hb Hp. apply derive_tree_key_run; try assumption.
  lia.
Qed.

Lemma toy_secrets_wf : wf_secrets toy_secrets.
Proof.
  split; try reflexivity.
  - apply (bool_decide_unpack _). vm_compute. reflexivity.
  - apply (bool_decide_unpack _). vm_compute. reflexivity.
Qed.

Lemma derive_tree_key_descent_witness :
  @derive_tree_key toy_monocypher toy_secrets 1 (MkVertex 5 3)
    = Ok (if 3 =? 0 then replicate 16 Byte.x31
          else @spec_descend toy_monocypher toy_secrets
                 (replicate 16 Byte.x31) (msb_first 5 (Z.to_nat 3))).
Proof.
  apply (@derive_tree_key_descent toy_monocypher toy_monocypher_spec
           toy_secrets 1 (MkVertex 5 3) (replicate 16 Byte.x31)).
  - reflexivity.
  - reflexivity.
  - reflexivity.
  - reflexivity.
  - lia.
  - simpl. lia.
  - simpl. lia.
Defined.

(** ** The secrets file *)

Lemma int_of_str_of_int z : int_of_str (str_of_int z) = Ok z.
Proof.
  unfold int_of_str, str_of_int. rewrite NilZero.isi.
  - rewrite DecimalZ.of_to. reflexivity.
  - destruct z; simpl; try discriminate.
    intros [= H]. exact (DecimalPos.Unsigned.to_uint_nonnil _ H).
  - destruct z; simpl; try discriminate.
    intros [= H]. exact (DecimalPos.Unsigned.to_uint_nonnil _ H).
Qed.

Lemma foldl_insert_lookup {A} (l : list (Z * A)) : forall (acc : gmap Z A) k,
  NoDup l.*1 ->
  foldl (fun m kv => <[kv.1 := kv.2]> m) acc l !! k
    = match (list_to_map l : gmap Z A) !! k with
      | Some v => Some v
      | None => acc !! k
      end.
Proof.
  induction l as [|[k0 v0] l IH]; intros acc k Hnd; simpl.
  - rewrite lookup_empty. reflexivity.
  - apply NoDup_cons in Hnd as [Hnotin Hnd]. rewrite IH by exact Hnd.
    destruct (decide (k = k0)) as [->|Hne].
    + rewrite !lookup_insert_eq.
      rewrite (not_elem_of_list_to_map_1 l k0 Hnotin). reflexivity.
    + rewrite !lookup_insert_ne by congruence. reflexivity.
Qed.

Lemma foldl_insert_map_to_list {A} (m : gmap Z A) :
  foldl (fun acc kv => <[kv.1 := kv.2]> acc) ∅ (map_to_list m) = m.
Proof.
  apply map_eq. intros k.
  rewrite foldl_insert_lookup by apply NoDup_fst_map_to_list.
  rewrite list_to_map_to_list, lookup_empty. destruct (m !! k); reflexivity.
Qed.

Section SecretsFile.
Context {mc : Monocypher} {b64 : Base64} {b64s : Base64Spec b64}.

Lemma from_base64_to_base64 x : from_base64 (to_base64 x) = Ok x.
Proof. unfold from_base64, to_base64. rewrite b64decode_encode. reflexivity. Qed.

Lemma loads_int_dict_dumps (l : list (Z * bytes)) : forall acc,
  loads_int_dict
    ((fun kv => (str_of_int kv.1, JString kv.2)) <$>
       (prod_map id to_base64 <$> l)) acc
  = Ok (foldl (fun m kv => <[kv.1 := kv.2]> m) acc l).
Proof.
  induction l as [|[k v] l IH]; intros acc; simpl; [reflexivity|].
  rewrite int_of_str_of_int. cbn [mbind result_bind].
  rewrite from_base64_to_base64. cbn [mbind result_bind]. apply IH.
Qed.

Lemma loads_dumps_int_dict (m : gmap Z bytes) :
  items (dumps_int_dict (to_base64 <$> m)) ≫= (fun ms => loads_int_dict ms ∅)
  = Ok m.
Proof.
  unfold dumps_int_dict. cbn [items mbind result_bind].
  rewrite map_to_list_fmap, loads_int_dict_dumps, foldl_insert_map_to_list.
  reflexivity.
Qed.

(** Loading what [serialize] wrote gives the bundle back. *)
Lemma deserialize_serialize (s : GlobalSecrets) :
  deserialize (serialize s) = Ok s.
Proof.
  unfold deserialize.
  change (getitem (serialize s) "CHANNEL_KEYS")
    with (Ok (dumps_int_dict (to_base64 <$> channel_keys s))).
  change (getitem (serialize s) "TREE_ROOT_KEYS")
    with (Ok (dumps_int_dict (to_base64 <$> tree_root_keys s))).
  change (getitem (serialize s) "ENCODER_PRIVATE_KEY")
    with (Ok (JString (to_base64 (enc_private_key s)))).
  change (getitem (serialize s) "ENCODER_PUBLIC_KEY")
    with (Ok (JString (to_base64 (enc_public_key s)))).
  change (getitem (serialize s) "ID_ROOT_KEY")
    with (Ok (JString (to_base64 (id_root_key s)))).
  change (getitem (serialize s) "LEFT_TREE_KEY")
    with (Ok (JString (to_base64 (left_tree_key s)))).
  change (getitem (serialize s) "RIGHT_TREE_KEY")
    with (Ok (JString (to_base64 (right_tree_key s)))).
  change (getitem (serialize s) "SYMBOL_SHIMMY_ROOT_KEY")
    with (Ok (JString (to_base64 (symbol_shimmy_root_key s)))).
  pose proof (loads_dumps_int_dict (channel_keys s)) as Hc.
  pose proof (loads_dumps_int_dict (tree_root_keys s)) as Ht.
  cbn [mbind result_bind items dumps_int_dict] in Hc, Ht |- *.
  rewrite Hc. cbn [mbind result_bind]. rewrite Ht. cbn [mbind result_bind].
  cbn [from_base64_json]. rewrite !from_base64_to_base64.
  cbn [mbind result_bind]. destruct s; reflexivity.
Qed.

End SecretsFile.

(** ** Generating a bundle *)

Section Generate.
Context {mc : Monocypher}.

Lemma random_bytes_run n w :
  random_bytes n w = (Ok (generate_key n (w_rng w)).1, after_draw n w).
Proof.
  unfold random_bytes, after_draw. destruct (generate_key n (w_rng w)).
  reflexivity.
Qed.

Lemma generate_keys_run n chs : forall acc w,
  exists m w',
    generate_keys n chs acc w = (Ok m, w') /\
    dom m = list_to_set chs ∪ dom acc.
Proof.
  induction chs as [|ch chs IH]; intros acc w; cbn [generate_keys].
  - exists acc, w. split; [reflexivity|]. set_solver.
  - cbv [mbind M_bind]. rewrite random_bytes_run.
    destruct (IH (<[ch := (generate_key n (w_rng w)).1]> acc) (after_draw n w))
      as (m & w' & Hrun & Hdom).
    exists m, w'. split; [exact Hrun|].
    rewrite Hdom, dom_insert_L. set_solver.
Qed.

Lemma generate_keys_lengths {mcs : MonocypherSpec mc} n chs : forall acc w m w',
  generate_keys n chs acc w = (Ok m, w') ->
  map_Forall (fun _ k => length k = n) acc ->
  map_Forall (fun _ k => length k = n) m.
Proof.
  induction chs as [|ch chs IH]; intros acc w m w'; cbn [generate_keys].
  - intros [= <- _]. auto.
  - cbv [mbind M_bind]. rewrite random_bytes_run. intros Hrun Hacc.
    eapply IH; [exact Hrun|]. apply map_Forall_insert_2; [|exact Hacc].
    apply generate_key_length.
Qed.

Lemma generate_run channels w :
  exists s w',
    generate channels w = (Ok s, w') /\
    dom (channel_keys s) = list_to_set channels ∪ {[0]} /\
    dom (tree_root_keys s) = list_to_set channels ∪ {[0]}.
Proof.
  unfold generate. cbv [mbind M_bind random_key_pair].
  destruct (generate_signing_key_pair (w_rng w)) as [[priv pub] g].
  destruct (generate_keys_run SYMMETRIC_KEY_LEN (channels ++ [0]) ∅
              (MkWorld g (w_log w))) as (cks & w1 & -> & Hc).
  destruct (generate_keys_run TREE_KEY_LEN (channels ++ [0]) ∅ w1)
    as (trks & w2 & -> & Ht).
  rewrite !random_bytes_run. eexists _, _. split; [reflexivity|].
  cbn [channel_keys tree_root_keys]. rewrite Hc, Ht.
  rewrite list_to_set_app_L. set_solver.
Qed.

(** A generated bundle has the key widths of [wf_secrets]. *)
Lemma generate_wf {mcs : MonocypherSpec mc} channels w s w' :
  generate channels w = (Ok s, w') -> wf_secrets s.
Proof.
  unfold generate. cbv [mbind M_bind random_key_pair].
  pose proof (key_pair_length (w_rng w)) as Hpriv.
  destruct (generate_signing_key_pair (w_rng w)) as [[priv pub] g].
  destruct (generate_keys_run SYMMETRIC_KEY_LEN (channels ++ [0]) ∅
              (MkWorld g (w_log w))) as (cks & w1 & Ec & Hc).
  rewrite Ec.
  destruct (generate_keys_run TREE_KEY_LEN (channels ++ [0]) ∅ w1)
    as (trks & w2 & Et & Ht).
  rewrite Et, !random_bytes_run. intros [= <- _].
  split; cbn [enc_private_key id_root_key left_tree_key right_tree_key
              channel_keys tree_root_keys].
  - exact Hpriv.
  - apply generate_key_length.
  - apply generate_key_length.
  - apply generate_key_length.
  - eapply generate_keys_lengths; [exact Ec|]. apply map_Forall_empty.
  - eapply generate_keys_lengths; [exact Et|]. apply map_Forall_empty.
  - rewrite Hc, Ht. reflexivity.
Qed.

End Generate.

(** C7: for every list of channels and every bundle [generate] returns
    for it, loading the serialized bundle gives the bundle back, field
    for field, the two per-channel maps with their integer keys
    included. *)
Theorem serialize_roundtrip {mc : Monocypher} {b64 : Base64}
    {b64s : Base64Spec b64} (channels : list Z) (w w' : World)
    (s : GlobalSecrets) :
  generate channels w = (Ok s, w') ->
  deserialize (serialize s) = Ok s.
Proof. intros _. apply deserialize_serialize. Qed.

Lemma serialize_roundtrip_witness :
  exists s (w' : @World toy_monocypher),
    @generate toy_monocypher [1; 2] toy_world = (Ok s, w') /\
    @deserialize toy_base64 (@serialize toy_base64 s) = Ok s.
Proof.
  eexists _, _. split; [reflexivity|].
  eapply (@serialize_roundtrip toy_monocypher toy_base64 toy_base64_spec
            [1; 2] toy_world).
  reflexivity.
Defined.

(** C8: for every list of channels, duplicates and 0 allowed,
    [generate] returns a bundle whose two per-channel maps have the
    same keys, the channels of the list together with channel 0; the
    bundle loaded back from its serialization has the same key sets. *)
Theorem generate_key_sets {mc : Monocypher} {b64 : Base64}
    {b64s : Base64Spec b64} (channels : list Z) (w : World) :
  exists s w',
    generate channels w = (Ok s, w') /\
    dom (channel_keys s) = list_to_set channels ∪ {[0]} /\
    dom (tree_root_keys s) = dom (channel_keys s) /\
    0 ∈ dom (channel_keys s) /\
    exists s',
      deserialize (serialize s) = Ok s' /\
      dom (channel_keys s') = list_to_set channels ∪ {[0]} /\
      dom (tree_root_keys s') = dom (channel_keys s') /\
      0 ∈ dom (channel_keys s').
Proof.
  destruct (generate_run channels w) as (s & w' & Hrun & Hc & Ht).
  assert (H0 : 0 ∈ dom (channel_keys s)) by (rewrite Hc; set_solver).
  exists s, w'. split_and!; try assumption; try congruence.
  exists s. split_and!; try assumption; try congruence.
  apply deserialize_serialize.
Qed.

Lemma generate_key_sets_witness :
  exists s (w' : @World toy_monocypher),
    @generate toy_monocypher [2; 0; 2; 7] toy_world = (Ok s, w') /\
    dom (channel_keys s) = list_to_set [2; 0; 2; 7] ∪ {[0]} /\
    dom (tree_root_keys s) = dom (channel_keys s) /\
    0 ∈ dom (channel_keys s) /\
    exists s',
      @deserialize toy_base64 (@serialize toy_base64 s) = Ok s' /\
      dom (channel_keys s') = list_to_set [2; 0; 2; 7] ∪ {[0]} /\
      dom (tree_root_keys s') = dom (channel_keys s') /\
      0 ∈ dom (channel_keys s').
Proof.
  exact (@generate_key_sets toy_monocypher toy_base64 toy_base64_spec
           [2; 0; 2; 7] toy_world).
Defined.


(** ** The subscription builder *)

Lemma pack_ValidSubscription ktree kch start end_ channel n :
  0 <= start < 2 ^ 64 -> 0 <= end_ < 2 ^ 64 -> 0 <= channel < 2 ^ 32 ->
  (n <= 126)%nat ->
  cstruct_pack ValidSubscription
    [VBytes ktree; VBytes kch; VInt start; VInt end_; VInt channel;
     VInt (Z.of_nat n); VInt SUBSCRIPTION_MAGIC; VBytes []]
  = Ok (embeddable_layout ktree kch start end_ channel n).
Proof.
  intros Hs He Hch Hn.
  rewrite cstruct_pack_eq by reflexivity.
  cbn [mbind result_bind struct_pack ValidSubscription pack_field].
  rewrite (pack_uint_ok 8 start) by exact Hs.
  rewrite (pack_uint_ok 8 end_) by exact He.
  rewrite (pack_uint_ok 4 channel) by exact Hch.
  rewrite (pack_uint_ok 4 (Z.of_nat n))
    by (change (2 ^ (8 * Z.of_nat 4)) with 4294967296; lia).
  rewrite (pack_uint_ok 4 SUBSCRIPTION_MAGIC)
    by (unfold SUBSCRIPTION_MAGIC; simpl; lia).
  reflexivity.
Qed.

Lemma embeddable_layout_length ktree kch start end_ channel n :
  length (embeddable_layout ktree kch start end_ channel n) = 2080%nat.
Proof.
  unfold embeddable_layout.
  rewrite !length_app, !pack_s_length, !length_le_split. reflexivity.
Qed.

Section Subscription.
Context {mc : Monocypher} {mcs : MonocypherSpec mc} {b64 : Base64}.

Lemma concat_tree_keys_ok s ch root vs : forall ktree,
  wf_secrets s -> tree_root_keys s !! ch = Some root -> 0 <= ch < 2 ^ 32 ->
  Forall valid_vertex vs ->
  exists ktree',
    concat_tree_keys s ch vs ktree = Ok ktree' /\
    length ktree' = (length ktree + length vs * TREE_KEY_LEN)%nat.
Proof.
  intros ktree Hwf Hroot Hch Hvs. revert ktree.
  induction Hvs as [|v vs [Hb Hp] _ IH]; intros ktree; cbn [concat_tree_keys].
  - exists ktree. split; [reflexivity|]. simpl. lia.
  - destruct (derive_tree_key_length s ch v root Hwf Hroot Hch) as (k & -> & Hk);
      [lia|exact Hp|].
    rewrite bind_Ok. destruct (IH (ktree ++ k)) as (kt & -> & Hlen).
    exists kt. split; [reflexivity|].
    rewrite Hlen, length_app, Hk. unfold TREE_KEY_LEN. simpl. lia.
Qed.

Lemma gen_embeddable_subscription_eq j s device_id start end_ channel kch vs ktree :
  deserialize j = Ok s ->
  channel_keys s !! channel = Some kch ->
  vertices_for_range start end_ = Ok vs ->
  concat_tree_keys s channel vs [] = Ok ktree ->
  length ktree = (length vs * TREE_KEY_LEN)%nat ->
  0 <= start < 2 ^ 64 -> 0 <= end_ < 2 ^ 64 -> 0 <= channel < 2 ^ 32 ->
  (length vs <= 126)%nat ->
  gen_embeddable_subscription j device_id start end_ channel
    = Ok (embeddable_layout ktree kch start end_ channel (length vs)).
Proof.
  intros Hj Hkch Hrun Hkt Hktl Hs He Hch Hn.
  unfold gen_embeddable_subscription.
  rewrite Hj, bind_Ok, Hkch, bind_Ok, Hrun, bind_Ok, Hkt, bind_Ok.
  rewrite (assert_length _ _ Hktl), bind_Ok.
  apply pack_ValidSubscription; assumption.
Qed.

Lemma gen_embeddable_subscription_run j s start end_ channel kch :
  deserialize j = Ok s -> wf_secrets s ->
  channel_keys s !! channel = Some kch -> 0 <= channel < 2 ^ 32 ->
  0 <= start -> start <= end_ -> end_ < 2 ^ 64 ->
  exists vs ktree,
    vertices_for_range start end_ = Ok vs /\
    (length vs <= 126)%nat /\
    concat_tree_keys s channel vs [] = Ok ktree /\
    length ktree = (length vs * TREE_KEY_LEN)%nat /\
    forall device_id,
      gen_embeddable_subscription j device_id start end_ channel
        = Ok (embeddable_layout ktree kch start end_ channel (length vs)).
Proof.
  intros Hj Hwf Hkch Hch H0 H1 H2.
  destruct (vertices_for_range_shape start end_ H0 H1 H2)
    as (m & b & front & back & Hrun & Hinv).
  pose proof (cover_final_valid _ _ _ _ _ _ Hinv) as Hvalid.
  pose proof (cover_final_length _ _ _ _ _ _ Hinv) as Hlen.
  remember (front ++ [MkVertex m b] ++ rev back) as vs eqn:Evs.
  assert (Hroot : is_Some (tree_root_keys s !! channel)).
  { apply elem_of_dom. rewrite (wf_same_channels s Hwf).
    apply elem_of_dom. eauto. }
  destruct Hroot as [root Hroot].
  destruct (concat_tree_keys_ok s channel root vs [] Hwf Hroot Hch Hvalid)
    as (ktree & Hkt & Hktl).
  change (length [] + length vs * TREE_KEY_LEN)%nat
    with (length vs * TREE_KEY_LEN)%nat in Hktl.
  exists vs, ktree. split_and!; try assumption.
  intros device_id.
  eapply gen_embeddable_subscription_eq; try eassumption; lia.
Qed.

End Subscription.

(** C10: for a fixed secrets file, range and channel (the channel
    present, [start <= end]), [gen_embeddable_subscription] returns the
    same 2080 bytes whatever device id it is called with: it draws no
    random bytes and never reads [device_id]. *)
Theorem gen_embeddable_subscription_device_independent
    {mc : Monocypher} {mcs : MonocypherSpec mc} {b64 : Base64}
    (j : json) (s : GlobalSecrets) (start end_ channel : Z) (kch : bytes)
    (device_id1 device_id2 : Z) :
  deserialize j = Ok s -> wf_secrets s ->
  channel_keys s !! channel = Some kch -> 0 <= channel < 2 ^ 32 ->
  0 <= start -> start <= end_ -> end_ < 2 ^ 64 ->
  exists blob,
    length blob = 2080%nat /\
    gen_embeddable_subscription j device_id1 start end_ channel = Ok blob /\
    gen_embeddable_subscription j device_id2 start end_ channel = Ok blob.
Proof.
  intros Hj Hwf Hkch Hch H0 H1 H2.
  destruct (gen_embeddable_subscription_run j s start end_ channel kch
              Hj Hwf Hkch Hch H0 H1 H2) as (vs & ktree & _ & _ & _ & _ & Hrun).
  eexists. split_and!; [|apply Hrun..]. apply embeddable_layout_length.
Qed.

Lemma toy_secrets_file_loads :
  @deserialize toy_base64 toy_secrets_file = Ok toy_secrets.
Proof. apply (@deserialize_serialize toy_base64 toy_base64_spec). Qed.

Lemma gen_embeddable_subscription_device_independent_witness :
  exists blob,
    length blob = 2080%nat /\
    @gen_embeddable_subscription toy_monocypher toy_base64
      toy_secrets_file 0xDEADBEEF 100 200 1 = Ok blob /\
    @gen_embeddable_subscription toy_monocypher toy_base64
      toy_secrets_file 7 100 200 1 = Ok blob.
Proof.
  apply (@gen_embeddable_subscription_device_independent
           toy_monocypher toy_monocypher_spec toy_base64
           toy_secrets_file toy_secrets 100 200 1
           (replicate 32 Byte.x21)).
  - exact toy_secrets_file_loads.
  - exact toy_secrets_wf.
  - reflexivity.
  - lia.
  - lia.
  - lia.
  - lia.
Defined.

(** C6, as stated, fails: no 64-bit range has a cover of more than 126
    vertices, so there is no input of the kind the claim speaks of. *)
Lemma no_cover_exceeds_126 :
  ~ exists start end_ vs,
      0 <= start /\ start <= end_ /\ end_ < 2 ^ 64 /\
      vertices_for_range start end_ = Ok vs /\ (126 < length vs)%nat.
Proof.
  intros (start & end_ & vs & H0 & H1 & H2 & Hrun & Hlen).
  destruct (vertices_for_range_length start end_ H0 H1 H2) as (vs' & Hrun' & Hle).
  rewrite Hrun in Hrun'. injection Hrun' as <-. lia.
Qed.

(** C6, amended: every 64-bit range with [start <= end] has a cover of
    at most 126 vertices; [gen_embeddable_subscription] makes no size
    check and returns, for every such range and every channel of the
    bundle, the 2080-byte subscription, which starts with all the tree
    keys of the cover. *)
Theorem gen_embeddable_subscription_fits
    {mc : Monocypher} {mcs : MonocypherSpec mc} {b64 : Base64}
    (j : json) (s : GlobalSecrets) (device_id start end_ channel : Z)
    (kch : bytes) :
  deserialize j = Ok s -> wf_secrets s ->
  channel_keys s !! channel = Some kch -> 0 <= channel < 2 ^ 32 ->
  0 <= start -> start <= end_ -> end_ < 2 ^ 64 ->
  exists vs ktree blob,
    vertices_for_range start end_ = Ok vs /\
    (length vs <= 126)%nat /\
    concat_tree_keys s channel vs [] = Ok ktree /\
    length ktree = (16 * length vs)%nat /\
    gen_embeddable_subscription j device_id start end_ channel = Ok blob /\
    length blob = 2080%nat /\
    take (length ktree) blob = ktree.
Proof.
  intros Hj Hwf Hkch Hch H0 H1 H2.
  destruct (gen_embeddable_subscription_run j s start end_ channel kch
              Hj Hwf Hkch Hch H0 H1 H2)
    as (vs & ktree & Hvs & Hlen & Hkt & Hktl & Hrun).
  unfold TREE_KEY_LEN in Hktl.
  exists vs, ktree, (embeddable_layout ktree kch start end_ channel (length vs)).
  split_and!; try assumption.
  - lia.
  - apply Hrun.
  - apply embeddable_layout_length.
  - unfold embeddable_layout. rewrite pack_s_short.
    + rewrite <- app_assoc. apply take_app_length.
    + unfold MAX_TREE_KEYS, TREE_KEY_LEN. lia.
Qed.

Lemma gen_embeddable_subscription_fits_witness :
  exists vs ktree blob,
    vertices_for_range 1 (2 ^ 64 - 2) = Ok vs /\
    (length vs <= 126)%nat /\
    @concat_tree_keys toy_monocypher toy_secrets 2 vs [] = Ok ktree /\
    length ktree = (16 * length vs)%nat /\
    @gen_embeddable_subscription toy_monocypher toy_base64
      toy_secrets_file 7 1 (2 ^ 64 - 2) 2 = Ok blob /\
    length blob = 2080%nat /\
    take (length ktree) blob = ktree.
Proof.
  apply (@gen_embeddable_subscription_fits
           toy_monocypher toy_monocypher_spec toy_base64
           toy_secrets_file toy_secrets 7 1 (2 ^ 64 - 2) 2
           (replicate 32 Byte.x22)).
  - exact toy_secrets_file_loads.
  - exact toy_secrets_wf.
  - reflexivity.
  - lia.
  - lia.
  - lia.
  - lia.
Defined.

(** *** The signed update *)

Lemma pack_SubscriptionUpdatePayload id ct :
  0 <= id < 2 ^ 32 -> length ct = 2120%nat ->
  cstruct_pack SubscriptionUpdatePayload [VInt id; VBytes ct]
    = Ok (le_split 4 id ++ ct).
Proof.
  intros Hid Hct. rewrite cstruct_pack_eq by reflexivity.
  cbn [struct_pack SubscriptionUpdatePayload pack_field].
  rewrite (pack_uint_ok 4 id) by exact Hid.
  rewrite pack_s_exact by exact Hct.
  cbn [mbind result_bind]. rewrite app_nil_r. reflexivity.
Qed.

Lemma pack_SubscriptionUpdate payload sig :
  length payload = 2124%nat -> length sig = 64%nat ->
  cstruct_pack SubscriptionUpdate [VBytes payload; VBytes sig]
    = Ok (payload ++ sig).
Proof.
  intros Hp Hs. rewrite cstruct_pack_eq by reflexivity.
  cbn [struct_pack SubscriptionUpdate pack_field].
  rewrite (pack_s_exact _ payload) by exact Hp.
  rewrite (pack_s_exact _ sig) by exact Hs.
  cbn [mbind result_bind]. rewrite app_nil_r. reflexivity.
Qed.

Section Update.
Context {mc : Monocypher} {mcs : MonocypherSpec mc} {b64 : Base64}.

Lemma M_bind_lift_Ok {A B} (a : A) (f : A -> M B) (w : World) :
  (lift (Ok a) ≫= f) w = f a w.
Proof. reflexivity. Qed.

Lemma M_bind_run {A B} (m : M A) (f : A -> M B) (w w' : World) (a : A) :
  m w = (Ok a, w') -> (m ≫= f) w = f a w'.
Proof. intros H. unfold mbind, M_bind. rewrite H. reflexivity. Qed.

Lemma derive_id_key_ok s device_id :
  wf_secrets s -> 0 <= device_id < 2 ^ 32 ->
  derive_id_key s device_id
    = Ok (blake2b 32 (le_split 4 device_id ++ id_root_key s)).
Proof.
  intros Hwf Hid. unfold derive_id_key. rewrite (assert_u32 _ Hid), bind_Ok.
  apply kdf_id_ok; [apply Hwf | exact Hid].
Qed.

Lemma gen_subscription_run j s device_id start end_ channel emb w :
  deserialize j = Ok s -> wf_secrets s -> 0 <= device_id < 2 ^ 32 ->
  gen_embeddable_subscription j device_id start end_ channel = Ok emb ->
  length emb = 2080%nat ->
  let kid := blake2b 32 (le_split 4 device_id ++ id_root_key s) in
  let nonce := (generate_key SYMMETRIC_NONCE_LEN (w_rng w)).1 in
  let ct := (lock kid nonce emb).1 ++ nonce ++ (lock kid nonce emb).2 in
  let payload := le_split 4 device_id ++ ct in
  length ct = 2120%nat /\
  gen_subscription j device_id start end_ channel w
    = (Ok (payload ++ signature_sign (enc_private_key s) payload),
       after_draw SYMMETRIC_NONCE_LEN w).
Proof.
  intros Hj Hwf Hid Hemb Hlen kid nonce ct payload.
  assert (Hkid : length kid = SYMMETRIC_KEY_LEN) by apply blake2b_length.
  pose proof (encrypt_symmetric_ok emb kid w Hkid) as Henc. cbv zeta in Henc.
  fold nonce in Henc. fold ct in Henc.
  assert (Hct : length ct = 2120%nat).
  { subst ct. pose proof (lock_length kid nonce emb) as [Hm Hc].
    pose proof (generate_key_length SYMMETRIC_NONCE_LEN (w_rng w)) as Hn.
    fold nonce in Hn. rewrite !length_app, Hm, Hn, Hc, Hlen. reflexivity. }
  split; [exact Hct|].
  assert (Hpl : length payload = 2124%nat).
  { subst payload. rewrite length_app, length_le_split, Hct. reflexivity. }
  unfold gen_subscription.
  rewrite Hemb, M_bind_lift_Ok, Hj, M_bind_lift_Ok.
  rewrite (derive_id_key_ok s device_id Hwf Hid), M_bind_lift_Ok.
  fold kid. rewrite (M_bind_run _ _ _ _ _ Henc).
  rewrite (pack_SubscriptionUpdatePayload _ _ Hid Hct), M_bind_lift_Ok.
  fold payload.
  rewrite (sign_asymmetric_ok payload _ (wf_enc_private_key s Hwf)).
  rewrite M_bind_lift_Ok.
  rewrite (pack_SubscriptionUpdate _ _ Hpl (signature_sign_length _ _)).
  reflexivity.
Qed.

End Update.

(** C3: on a valid input (the channel in the bundle, [start <= end], a
    32-bit device id) [gen_subscription] returns 2188 bytes: bytes
    [0:4] are the little-endian device id; bytes [4:2124] are the
    encryption of the 2080-byte embeddable subscription under
    [derive_id_key(device_id)], that is [mac || nonce || ciphertext] of
    Monocypher's [lock] under the Blake2b digest of the id and
    [id_root_key], with the nonce drawn in this call; and bytes
    [2124:2188] are Monocypher's signature, under [enc_private_key], of
    bytes [0:2124], the id and the ciphertext together. *)
Theorem gen_subscription_layout
    {mc : Monocypher} {mcs : MonocypherSpec mc} {b64 : Base64}
    (j : json) (s : GlobalSecrets) (device_id start end_ channel : Z)
    (kch : bytes) (w : World) :
  deserialize j = Ok s -> wf_secrets s ->
  channel_keys s !! channel = Some kch -> 0 <= channel < 2 ^ 32 ->
  0 <= device_id < 2 ^ 32 ->
  0 <= start -> start <= end_ -> end_ < 2 ^ 64 ->
  exists emb kid nonce ct blob,
    gen_embeddable_subscription j device_id start end_ channel = Ok emb /\
    length emb = 2080%nat /\
    kid = blake2b 32 (le_split 4 device_id ++ id_root_key s) /\
    derive_id_key s device_id = Ok kid /\
    nonce = (generate_key 24 (w_rng w)).1 /\
    ct = (lock kid nonce emb).1 ++ nonce ++ (lock kid nonce emb).2 /\
    encrypt_symmetric emb kid w = (Ok ct, after_draw 24 w) /\
    gen_subscription j device_id start end_ channel w
      = (Ok blob, after_draw 24 w) /\
    length blob = 2188%nat /\
    take 4 blob = le_split 4 device_id /\
    le_combine (take 4 blob) = device_id /\
    take 2120 (drop 4 blob) = ct /\
    drop 2124 blob = signature_sign (enc_private_key s) (take 2124 blob) /\
    sign_asymmetric (take 2124 blob) (enc_private_key s)
      = Ok (drop 2124 blob) /\
    length (drop 2124 blob) = 64%nat.
Proof.
  intros Hj Hwf Hkch Hch Hid H0 H1 H2.
  destruct (gen_embeddable_subscription_run j s start end_ channel kch
              Hj Hwf Hkch Hch H0 H1 H2) as (vs & ktree & _ & _ & _ & _ & Hemb).
  specialize (Hemb device_id).
  pose proof (embeddable_layout_length ktree kch start end_ channel (length vs))
    as Hlen.
  set (emb := embeddable_layout ktree kch start end_ channel (length vs)) in *.
  destruct (gen_subscription_run j s device_id start end_ channel emb w
              Hj Hwf Hid Hemb Hlen) as [Hct Hrun].
  set (kid := blake2b 32 (le_split 4 device_id ++ id_root_key s)) in *.
  assert (Hkid : length kid = SYMMETRIC_KEY_LEN) by apply blake2b_length.
  pose proof (encrypt_symmetric_ok emb kid w Hkid) as Henc. cbv zeta in Henc.
  set (nonce := (generate_key SYMMETRIC_NONCE_LEN (w_rng w)).1) in *.
  set (ct := (lock kid nonce emb).1 ++ nonce ++ (lock kid nonce emb).2) in *.
  set (sig := signature_sign (enc_private_key s) (le_split 4 device_id ++ ct)) in *.
  assert (Hsig : length sig = 64%nat) by apply signature_sign_length.
  assert (Hle : length (le_split 4 device_id) = 4%nat) by apply length_le_split.
  assert (Htake : take 2124 ((le_split 4 device_id ++ ct) ++ sig)
                  = le_split 4 device_id ++ ct).
  { apply take_app_length'. rewrite length_app, Hle, Hct. reflexivity. }
  assert (Hdrop : drop 2124 ((le_split 4 device_id ++ ct) ++ sig) = sig).
  { apply drop_app_length'. rewrite length_app, Hle, Hct. reflexivity. }
  exists emb, kid, nonce, ct, ((le_split 4 device_id ++ ct) ++ sig).
  split_and!.
  - exact Hemb.
  - exact Hlen.
  - reflexivity.
  - apply derive_id_key_ok; assumption.
  - reflexivity.
  - reflexivity.
  - exact Henc.
  - exact Hrun.
  - rewrite !length_app, Hle, Hct, Hsig. reflexivity.
  - rewrite <- app_assoc. apply take_app_length'. symmetry. exact Hle.
  - rewrite <- app_assoc, take_app_length' by (symmetry; exact Hle).
    rewrite le_combine_split. apply Z.mod_small. exact Hid.
  - rewrite <- app_assoc, drop_app_length' by (symmetry; exact Hle).
    apply take_app_length'. symmetry. exact Hct.
  - rewrite Htake, Hdrop. reflexivity.
  - rewrite Htake, Hdrop. apply sign_asymmetric_ok. apply Hwf.
  - rewrite Hdrop. exact Hsig.
Qed.

Lemma gen_subscription_layout_witness :
  exists emb kid nonce ct blob,
    @gen_embeddable_subscription toy_monocypher toy_base64
      toy_secrets_file 0xDEADBEEF 100 200 1 = Ok emb /\
    length emb = 2080%nat /\
    kid = @blake2b toy_monocypher 32
            (le_split 4 0xDEADBEEF ++ id_root_key toy_secrets) /\
    @derive_id_key toy_monocypher toy_secrets 0xDEADBEEF = Ok kid /\
    nonce = (@generate_key toy_monocypher 24 (w_rng toy_world)).1 /\
    ct = (@lock toy_monocypher kid nonce emb).1 ++ nonce ++
         (@lock toy_monocypher kid nonce emb).2 /\
    @encrypt_symmetric toy_monocypher emb kid toy_world
      = (Ok ct, @after_draw toy_monocypher 24 toy_world) /\
    @gen_subscription toy_monocypher toy_base64
      toy_secrets_file 0xDEADBEEF 100 200 1 toy_world
      = (Ok blob, @after_draw toy_monocypher 24 toy_world) /\
    length blob = 2188%nat /\
    take 4 blob = le_split 4 0xDEADBEEF /\
    le_combine (take 4 blob) = 0xDEADBEEF /\
    take 2120 (drop 4 blob) = ct /\
    drop 2124 blob
      = @signature_sign toy_monocypher (enc_private_key toy_secrets)
          (take 2124 blob) /\
    @sign_asymmetric toy_monocypher (take 2124 blob)
      (enc_private_key toy_secrets) = Ok (drop 2124 blob) /\
    length (drop 2124 blob) = 64%nat.
Proof.
  apply (@gen_subscription_layout toy_monocypher toy_monocypher_spec toy_base64
           toy_secrets_file toy_secrets 0xDEADBEEF 100 200 1
           (replicate 32 Byte.x21) toy_world).
  - exact toy_secrets_file_loads.
  - exact toy_secrets_wf.
  - reflexivity.
  - lia.
  - lia.
  - lia.
  - lia.
  - lia.
Defined.

(** ** The frame encoder *)

Lemma pack_frame_data_short frame :
  (length frame <= 64)%nat ->
  pack_frame_data frame
    = Ok (le_split 4 (Z.of_nat (length frame)) ++ frame ++
          replicate (64 - length frame) Byte.x00).
Proof.
  intros Hlen. unfold pack_frame_data.
  rewrite cstruct_pack_eq by reflexivity.
  cbn [struct_pack FrameData pack_field].
  rewrite pack_uint_ok by (change (2 ^ (8 * Z.of_nat 4)) with 4294967296; lia).
  rewrite (pack_s_short MAX_FRAME_SIZE frame) by exact Hlen.
  cbn [mbind result_bind]. rewrite app_nil_r. reflexivity.
Qed.

Lemma pack_frame_data_long frame :
  (64 < length frame)%nat -> Z.of_nat (length frame) < 2 ^ 32 ->
  pack_frame_data frame
    = Ok (le_split 4 (Z.of_nat (length frame)) ++ take 64 frame).
Proof.
  intros Hlen Hu32. unfold pack_frame_data.
  rewrite cstruct_pack_eq by reflexivity.
  cbn [struct_pack FrameData pack_field].
  rewrite pack_uint_ok by (change (2 ^ (8 * Z.of_nat 4)) with 4294967296; lia).
  rewrite (pack_s_long MAX_FRAME_SIZE frame) by (unfold MAX_FRAME_SIZE; lia).
  cbn [mbind result_bind]. rewrite app_nil_r. reflexivity.
Qed.

Lemma pack_frame_data_ok frame :
  Z.of_nat (length frame) < 2 ^ 32 ->
  exists fd, pack_frame_data frame = Ok fd /\ length fd = 68%nat.
Proof.
  intros Hu32. destruct (Nat.le_gt_cases (length frame) 64) as [H|H].
  - eexists. split; [apply pack_frame_data_short; exact H|].
    rewrite !length_app, length_le_split, length_replicate. lia.
  - eexists. split; [apply pack_frame_data_long; assumption|].
    rewrite length_app, length_le_split, length_take. lia.
Qed.

Lemma pack_FrameCh timestamp ct :
  0 <= timestamp < 2 ^ 64 -> length ct = 108%nat ->
  cstruct_pack FrameCh [VInt timestamp; VBytes ct; VBytes []]
    = Ok (le_split 8 timestamp ++ ct ++ replicate 4 Byte.x00).
Proof.
  intros Hts Hct. rewrite cstruct_pack_eq by reflexivity.
  cbn [struct_pack FrameCh pack_field].
  rewrite (pack_uint_ok 8 timestamp) by exact Hts.
  rewrite (pack_s_exact _ ct) by exact Hct.
  cbn [mbind result_bind]. reflexivity.
Qed.

Lemma pack_FramePacketPayload channel ct :
  0 <= channel < 2 ^ 32 -> length ct = 160%nat ->
  cstruct_pack FramePacketPayload [VInt channel; VBytes ct]
    = Ok (le_split 4 channel ++ ct).
Proof.
  intros Hch Hct. rewrite cstruct_pack_eq by reflexivity.
  cbn [struct_pack FramePacketPayload pack_field].
  rewrite (pack_uint_ok 4 channel) by exact Hch.
  rewrite (pack_s_exact _ ct) by exact Hct.
  cbn [mbind result_bind]. rewrite app_nil_r. reflexivity.
Qed.

Lemma pack_FramePacket payload sig :
  length payload = 164%nat -> length sig = 64%nat ->
  cstruct_pack FramePacket [VBytes payload; VBytes sig] = Ok (payload ++ sig).
Proof.
  intros Hp Hs. rewrite cstruct_pack_eq by reflexivity.
  cbn [struct_pack FramePacket pack_field].
  rewrite (pack_s_exact _ payload) by exact Hp.
  rewrite (pack_s_exact _ sig) by exact Hs.
  cbn [mbind result_bind]. rewrite app_nil_r. reflexivity.
Qed.

Section FrameEncoder.
Context {mc : Monocypher} {b64 : Base64}.

Lemma new_Encoder_keys j e :
  new_Encoder j = Ok e ->
  deserialize j = Ok (keys e) /\ self_channel_keys e = channel_keys (keys e).
Proof.
  unfold new_Encoder. destruct (deserialize j) as [s|]; [|discriminate].
  rewrite bind_Ok. intros [= <-]. split; reflexivity.
Qed.

Lemma encode_unknown e channel frame timestamp w :
  self_channel_keys e !! channel = None ->
  encode e channel frame timestamp w
    = (Ok [], MkWorld (w_rng w) (w_log w ++ [not_defined channel])).
Proof. intros H. unfold encode. rewrite H. reflexivity. Qed.

Lemma encrypt_symmetric_run {mcs : MonocypherSpec mc} p k w :
  length k = SYMMETRIC_KEY_LEN ->
  exists c,
    encrypt_symmetric p k w = (Ok c, after_draw SYMMETRIC_NONCE_LEN w) /\
    length c = (length p + 40)%nat.
Proof.
  intros Hk. eexists. split; [apply encrypt_symmetric_ok; exact Hk|].
  pose proof (generate_key_length SYMMETRIC_NONCE_LEN (w_rng w)) as Hn.
  pose proof (lock_length k (generate_key SYMMETRIC_NONCE_LEN (w_rng w)).1 p)
    as [Hm Hc].
  rewrite !length_app, Hm, Hn, Hc.
  unfold SYMMETRIC_MAC_LEN, SYMMETRIC_NONCE_LEN. lia.
Qed.

Lemma encode_run {mcs : MonocypherSpec mc} e channel frame timestamp kch w :
  wf_secrets (keys e) -> self_channel_keys e = channel_keys (keys e) ->
  channel_keys (keys e) !! channel = Some kch -> 0 <= channel < 2 ^ 32 ->
  0 <= timestamp < 2 ^ 64 -> Z.of_nat (length frame) < 2 ^ 32 ->
  exists blob w',
    encode e channel frame timestamp w = (Ok blob, w') /\
    length blob = 228%nat.
Proof.
  intros Hwf Hself Hkch Hch Hts Hu32.
  destruct (pack_frame_data_ok frame Hu32) as (fd & Hfd & Hfdl).
  assert (Hroot : is_Some (tree_root_keys (keys e) !! channel)).
  { apply elem_of_dom. rewrite (wf_same_channels _ Hwf).
    apply elem_of_dom. eauto. }
  destruct Hroot as [root Hroot].
  destruct (derive_tree_key_length (keys e) channel (MkVertex timestamp 64) root
              Hwf Hroot Hch) as (tk & Htk & Htkl); [simpl; lia|exact Hts|].
  destruct (encrypt_symmetric_run fd (blake2b 32 tk) w (blake2b_length _ _))
    as (c1 & Hc1 & Hc1l).
  rewrite Hfdl in Hc1l.
  set (fc := le_split 8 timestamp ++ c1 ++ replicate 4 Byte.x00).
  assert (Hfcl : length fc = 120%nat).
  { subst fc. rewrite !length_app, length_le_split, Hc1l, length_replicate.
    reflexivity. }
  destruct (encrypt_symmetric_run fc kch (after_draw SYMMETRIC_NONCE_LEN w)
              (wf_channel_keys _ Hwf _ _ Hkch)) as (c2 & Hc2 & Hc2l).
  rewrite Hfcl in Hc2l.
  set (payload := le_split 4 channel ++ c2).
  assert (Hpl : length payload = 164%nat).
  { subst payload. rewrite length_app, length_le_split, Hc2l. reflexivity. }
  exists (payload ++ signature_sign (enc_private_key (keys e)) payload),
    (after_draw SYMMETRIC_NONCE_LEN (after_draw SYMMETRIC_NONCE_LEN w)).
  split.
  - unfold encode. rewrite Hself, Hkch.
    rewrite Hfd, M_bind_lift_Ok.
    rewrite (new_Vertex_ok timestamp 64) by lia. rewrite M_bind_lift_Ok.
    rewrite Htk, M_bind_lift_Ok.
    rewrite (kdf_tree_leaf_ok tk Htkl), M_bind_lift_Ok.
    rewrite (M_bind_run _ _ _ _ _ Hc1).
    rewrite (pack_FrameCh timestamp c1 Hts Hc1l), M_bind_lift_Ok.
    fold fc. rewrite (M_bind_run _ _ _ _ _ Hc2).
    rewrite (pack_FramePacketPayload channel c2 Hch Hc2l), M_bind_lift_Ok.
    fold payload.
    rewrite (sign_asymmetric_ok payload _ (wf_enc_private_key _ Hwf)).
    rewrite M_bind_lift_Ok.
    rewrite (pack_FramePacket _ _ Hpl (signature_sign_length _ _)).
    reflexivity.
  - rewrite length_app, Hpl, signature_sign_length. reflexivity.
Qed.

(** The packet of [encode], in the operations of the library. *)
Lemma encode_packet {mcs : MonocypherSpec mc}
    e channel frame timestamp kch fd tk w :
  wf_secrets (keys e) -> self_channel_keys e = channel_keys (keys e) ->
  channel_keys (keys e) !! channel = Some kch -> 0 <= channel < 2 ^ 32 ->
  0 <= timestamp < 2 ^ 64 ->
  pack_frame_data frame = Ok fd -> length fd = 68%nat ->
  derive_tree_key (keys e) channel (MkVertex timestamp 64) = Ok tk ->
  length tk = 16%nat ->
  let fk := blake2b 32 tk in
  let n1 := (generate_key 24 (w_rng w)).1 in
  let c1 := (lock fk n1 fd).1 ++ n1 ++ (lock fk n1 fd).2 in
  let n2 := (generate_key 24 (w_rng (after_draw 24 w))).1 in
  let fc := le_split 8 timestamp ++ c1 ++ replicate 4 Byte.x00 in
  let c2 := (lock kch n2 fc).1 ++ n2 ++ (lock kch n2 fc).2 in
  let payload := le_split 4 channel ++ c2 in
  encode e channel frame timestamp w
    = (Ok (payload ++ signature_sign (enc_private_key (keys e)) payload),
       after_draw 24 (after_draw 24 w)) /\
  length payload = 164%nat.
Proof.
  intros Hwf Hself Hkch Hch Hts Hfd Hfdl Htk Htkl fk n1 c1 n2 fc c2 payload.
  assert (Hfk : length fk = SYMMETRIC_KEY_LEN) by apply blake2b_length.
  pose proof (encrypt_symmetric_ok fd fk w Hfk) as Hc1. cbv zeta in Hc1.
  change SYMMETRIC_NONCE_LEN with 24%nat in Hc1.
  fold n1 in Hc1. fold c1 in Hc1.
  assert (Hc1l : length c1 = 108%nat).
  { subst c1. pose proof (lock_length fk n1 fd) as [Hm Hc].
    pose proof (generate_key_length 24 (w_rng w)) as Hn. fold n1 in Hn.
    rewrite !length_app, Hm, Hn, Hc, Hfdl. reflexivity. }
  assert (Hfcl : length fc = 120%nat).
  { subst fc. rewrite !length_app, length_le_split, Hc1l, length_replicate.
    reflexivity. }
  pose proof (encrypt_symmetric_ok fc kch (after_draw 24 w)
                (wf_channel_keys _ Hwf _ _ Hkch)) as Hc2. cbv zeta in Hc2.
  change SYMMETRIC_NONCE_LEN with 24%nat in Hc2.
  fold n2 in Hc2. fold c2 in Hc2.
  assert (Hc2l : length c2 = 160%nat).
  { subst c2. pose proof (lock_length kch n2 fc) as [Hm Hc].
    pose proof (generate_key_length 24 (w_rng (after_draw 24 w))) as Hn.
    fold n2 in Hn. rewrite !length_app, Hm, Hn, Hc, Hfcl. reflexivity. }
  assert (Hpl : length payload = 164%nat).
  { subst payload. rewrite length_app, length_le_split, Hc2l. reflexivity. }
  split; [|exact Hpl].
  unfold encode. rewrite Hself, Hkch.
  rewrite Hfd, M_bind_lift_Ok.
  rewrite (new_Vertex_ok timestamp 64) by lia. rewrite M_bind_lift_Ok.
  rewrite Htk, M_bind_lift_Ok.
  rewrite (kdf_tree_leaf_ok tk Htkl), M_bind_lift_Ok.
  fold fk. rewrite (M_bind_run _ _ _ _ _ Hc1).
  rewrite (pack_FrameCh timestamp c1 Hts Hc1l), M_bind_lift_Ok.
  fold fc. rewrite (M_bind_run _ _ _ _ _ Hc2).
  rewrite (pack_FramePacketPayload channel c2 Hch Hc2l), M_bind_lift_Ok.
  fold payload.
  rewrite (sign_asymmetric_ok payload _ (wf_enc_private_key _ Hwf)).
  rewrite M_bind_lift_Ok.
  rewrite (pack_FramePacket _ _ Hpl (signature_sign_length _ _)).
  reflexivity.
Qed.

End FrameEncoder.

Lemma toy_encoder_new :
  @new_Encoder toy_base64 toy_secrets_file = Ok toy_encoder.
Proof.
  unfold new_Encoder, toy_secrets_file.
  rewrite (@deserialize_serialize toy_base64 toy_base64_spec). reflexivity.
Qed.

(** C4, as stated, fails: the encoder built from the bundle for the
    channels 1 and 2 returns the empty byte string for channel 42; it
    raises nothing. *)
Lemma encode_unknown_channel_returns :
  @new_Encoder toy_base64 toy_secrets_file = Ok toy_encoder /\
  channel_keys toy_secrets !! 42 = None /\
  (@encode toy_monocypher toy_encoder 42 [Byte.x01; Byte.x02] 0 toy_world).1
    = Ok [] /\
  ~ exists err,
      (@encode toy_monocypher toy_encoder 42 [Byte.x01; Byte.x02] 0 toy_world).1
        = Raise err.
Proof.
  split_and!.
  - exact toy_encoder_new.
  - reflexivity.
  - reflexivity.
  - intros [err H]. discriminate H.
Qed.

(** C4, amended: for every secrets file and every channel absent from
    its [channel_keys], [Encoder.encode] raises no error: it logs
    ["Channel <n> Not Defined"] and returns the empty byte string. *)
Theorem encode_unknown_channel_empty {mc : Monocypher} {b64 : Base64}
    (j : json) (e : Encoder) (channel : Z) (frame : bytes) (timestamp : Z)
    (w : World) :
  new_Encoder j = Ok e ->
  channel ∉ dom (channel_keys (keys e)) ->
  encode e channel frame timestamp w
    = (Ok [], MkWorld (w_rng w) (w_log w ++ [not_defined channel])).
Proof.
  intros Hnew Hch. apply new_Encoder_keys in Hnew as [_ Hself].
  apply encode_unknown. rewrite Hself. apply not_elem_of_dom. exact Hch.
Qed.

Lemma encode_unknown_channel_empty_witness :
  @encode toy_monocypher toy_encoder 42 [Byte.x01; Byte.x02] 0 toy_world
    = (Ok [], @MkWorld toy_monocypher (w_rng toy_world)
                (w_log toy_world ++ [not_defined 42])).
Proof.
  apply (@encode_unknown_channel_empty toy_monocypher toy_base64
           toy_secrets_file toy_encoder 42 [Byte.x01; Byte.x02] 0 toy_world).
  - exact toy_encoder_new.
  - apply not_elem_of_dom. reflexivity.
Defined.

(** C5, as stated, fails: a 65-byte frame on channel 1 is encoded into
    a 228-byte packet; no error is raised. *)
Lemma encode_oversized_frame_returns :
  length (replicate 65 Byte.x01) = 65%nat /\
  match (@encode toy_monocypher toy_encoder 1 (replicate 65 Byte.x01) 0
           toy_world).1 with
  | Ok packet => length packet = 228%nat
  | Raise _ => False
  end.
Proof. split; vm_compute; reflexivity. Qed.

(** C5, amended: for a frame of at most 64 bytes [encode] packs the
    inner [FrameData] record as the 32-bit length [|frame|] followed by
    the frame right-padded with zero bytes to 64 bytes, and the packet
    it returns is built from that record: the record is locked under
    the digest of the timestamp's leaf key, the result is locked with
    the timestamp under the channel key, and the channel and that
    ciphertext are signed. *)
Theorem encode_frame_data {mc : Monocypher} {mcs : MonocypherSpec mc}
    {b64 : Base64}
    (j : json) (e : Encoder) (channel : Z) (frame : bytes) (timestamp : Z)
    (kch : bytes) (w : World) :
  new_Encoder j = Ok e -> wf_secrets (keys e) ->
  channel_keys (keys e) !! channel = Some kch -> 0 <= channel < 2 ^ 32 ->
  0 <= timestamp < 2 ^ 64 -> (length frame <= 64)%nat ->
  exists fd tk fk n1 c1 n2 c2 payload,
    fd = le_split 4 (Z.of_nat (length frame)) ++ frame ++
         replicate (64 - length frame) Byte.x00 /\
    pack_frame_data frame = Ok fd /\
    length fd = 68%nat /\
    le_combine (take 4 fd) = Z.of_nat (length frame) /\
    take (length frame) (drop 4 fd) = frame /\
    derive_tree_key (keys e) channel (MkVertex timestamp 64) = Ok tk /\
    fk = blake2b 32 tk /\
    kdf_tree_leaf tk = Ok fk /\
    n1 = (generate_key 24 (w_rng w)).1 /\
    c1 = (lock fk n1 fd).1 ++ n1 ++ (lock fk n1 fd).2 /\
    n2 = (generate_key 24 (w_rng (after_draw 24 w))).1 /\
    c2 = (lock kch n2 (le_split 8 timestamp ++ c1 ++ replicate 4 Byte.x00)).1
         ++ n2 ++
         (lock kch n2 (le_split 8 timestamp ++ c1 ++ replicate 4 Byte.x00)).2 /\
    payload = le_split 4 channel ++ c2 /\
    encode e channel frame timestamp w
      = (Ok (payload ++ signature_sign (enc_private_key (keys e)) payload),
         after_draw 24 (after_draw 24 w)) /\
    length (payload ++ signature_sign (enc_private_key (keys e)) payload)
      = 228%nat.
Proof.
  intros Hnew Hwf Hkch Hch Hts Hlen.
  apply new_Encoder_keys in Hnew as [_ Hself].
  pose proof (pack_frame_data_short frame Hlen) as Hfd.
  set (fd := le_split 4 (Z.of_nat (length frame)) ++ frame ++
             replicate (64 - length frame) Byte.x00) in *.
  assert (Hle : length (le_split 4 (Z.of_nat (length frame))) = 4%nat)
    by apply length_le_split.
  assert (Hfdl : length fd = 68%nat).
  { subst fd. rewrite !length_app, Hle, length_replicate. lia. }
  assert (Hroot : is_Some (tree_root_keys (keys e) !! channel)).
  { apply elem_of_dom. rewrite (wf_same_channels _ Hwf).
    apply elem_of_dom. eauto. }
  destruct Hroot as [root Hroot].
  destruct (derive_tree_key_length (keys e) channel (MkVertex timestamp 64) root
              Hwf Hroot Hch) as (tk & Htk & Htkl); [simpl; lia|exact Hts|].
  destruct (encode_packet e channel frame timestamp kch fd tk w
              Hwf Hself Hkch Hch Hts Hfd Hfdl Htk Htkl) as [Hrun Hpl].
  cbv zeta in Hrun, Hpl.
  eexists fd, tk, _, _, _, _, _, _. split_and!; try reflexivity.
  - exact Hfd.
  - exact Hfdl.
  - subst fd. rewrite take_app_length' by (symmetry; exact Hle).
    rewrite le_combine_split. apply Z.mod_small.
    change (2 ^ (Z.of_nat 4 * 8)) with 4294967296. lia.
  - subst fd. rewrite drop_app_length' by (symmetry; exact Hle).
    apply take_app_length'. reflexivity.
  - exact Htk.
  - apply kdf_tree_leaf_ok. exact Htkl.
  - exact Hrun.
  - rewrite length_app, Hpl, signature_sign_length. reflexivity.
Qed.

Lemma encode_frame_data_witness :
  exists fd tk fk n1 c1 n2 c2 payload,
    fd = le_split 4 (Z.of_nat (length [Byte.x01; Byte.x02])) ++
         [Byte.x01; Byte.x02] ++
         replicate (64 - length [Byte.x01; Byte.x02]) Byte.x00 /\
    pack_frame_data [Byte.x01; Byte.x02] = Ok fd /\
    length fd = 68%nat /\
    le_combine (take 4 fd) = Z.of_nat (length [Byte.x01; Byte.x02]) /\
    take (length [Byte.x01; Byte.x02]) (drop 4 fd) = [Byte.x01; Byte.x02] /\
    @derive_tree_key toy_monocypher (keys toy_encoder) 1 (MkVertex 7 64)
      = Ok tk /\
    fk = @blake2b toy_monocypher 32 tk /\
    @kdf_tree_leaf toy_monocypher tk = Ok fk /\
    n1 = (@generate_key toy_monocypher 24 (w_rng toy_world)).1 /\
    c1 = (@lock toy_monocypher fk n1 fd).1 ++ n1 ++
         (@lock toy_monocypher fk n1 fd).2 /\
    n2 = (@generate_key toy_monocypher 24
            (w_rng (@after_draw toy_monocypher 24 toy_world))).1 /\
    c2 = (@lock toy_monocypher (replicate 32 Byte.x21) n2
            (le_split 8 7 ++ c1 ++ replicate 4 Byte.x00)).1 ++ n2 ++
         (@lock toy_monocypher (replicate 32 Byte.x21) n2
            (le_split 8 7 ++ c1 ++ replicate 4 Byte.x00)).2 /\
    payload = le_split 4 1 ++ c2 /\
    @encode toy_monocypher toy_encoder 1 [Byte.x01; Byte.x02] 7 toy_world
      = (Ok (payload ++
             @signature_sign toy_monocypher
               (enc_private_key (keys toy_encoder)) payload),
         @after_draw toy_monocypher 24
           (@after_draw toy_monocypher 24 toy_world)) /\
    length (payload ++
            @signature_sign toy_monocypher
              (enc_private_key (keys toy_encoder)) payload) = 228%nat.
Proof.
  apply (@encode_frame_data toy_monocypher toy_monocypher_spec toy_base64
           toy_secrets_file toy_encoder 1 [Byte.x01; Byte.x02] 7
           (replicate 32 Byte.x21) toy_world).
  - exact toy_encoder_new.
  - exact toy_secrets_wf.
  - reflexivity.
  - lia.
  - lia.
  - cbn [length]. lia.
Defined.

(** * Further properties *)

(** ** The range cover outside its domain, and on one timestamp *)

Lemma new_Vertex_inv p b v :
  new_Vertex p b = Ok v -> 0 <= b /\ 0 <= p < 2 ^ b /\ v = MkVertex p b.
Proof.
  unfold new_Vertex. destruct (Z.leb_spec 0 p); [|discriminate].
  destruct (Z.ltb_spec b 0); [discriminate|].
  rewrite Z.shiftl_1_l.
  destruct (Z.ltb_spec p (2 ^ b)); cbn; try discriminate.
  intros [= <-]. split_and!; try lia. reflexivity.
Qed.

Lemma vertices_loop_negative_start fuel : forall s e b front back vs,
  s < 0 -> vertices_loop fuel s e b front back <> Ok vs.
Proof.
  induction fuel as [|fuel IH]; intros s e b front back vs Hs; cbn [vertices_loop].
  - discriminate.
  - destruct (Z.eqb_spec s e) as [->|Hne].
    + destruct (new_Vertex e b) as [v|] eqn:Ev; [|discriminate].
      apply new_Vertex_inv in Ev. lia.
    + destruct (Z.ltb_spec s e); [|discriminate]. cbn [assert mbind result_bind].
      destruct (_ && _).
      * apply IH. apply Z.shiftr_neg. exact Hs.
      * destruct (Z.land s 1 =? 1).
        -- destruct (new_Vertex s b) as [v|] eqn:Ev; [|discriminate].
           apply new_Vertex_inv in Ev. lia.
        -- destruct (new_Vertex e b) as [v|] eqn:Ev; [|discriminate].
           cbn [mbind result_bind]. apply IH. exact Hs.
Qed.

Lemma vertices_loop_end_too_large fuel : forall s e b front back vs,
  b < 0 \/ 2 ^ b <= e -> vertices_loop fuel s e b front back <> Ok vs.
Proof.
  induction fuel as [|fuel IH]; intros s e b front back vs He; cbn [vertices_loop].
  - discriminate.
  - destruct (Z.eqb_spec s e) as [->|Hne].
    + destruct (new_Vertex e b) as [v|] eqn:Ev; [|discriminate].
      apply new_Vertex_inv in Ev. lia.
    + destruct (Z.ltb_spec s e); [|discriminate]. cbn [assert mbind result_bind].
      destruct (_ && _).
      * apply IH. destruct (Z_lt_ge_dec b 1) as [Hb|Hb]; [left; lia|right].
        rewrite Z.shiftr_div_pow2 by lia. change (2 ^ 1) with 2.
        destruct He as [He|He]; [lia|].
        replace b with (Z.succ (b - 1)) in He by lia.
        rewrite Z.pow_succ_r in He by lia.
        apply Z.div_le_lower_bound; lia.
      * destruct (Z.land s 1 =? 1).
        -- destruct (new_Vertex s b) as [v|] eqn:Ev; [|discriminate].
           cbn [mbind result_bind]. apply IH. exact He.
        -- destruct (new_Vertex e b) as [v|] eqn:Ev; [|discriminate].
           apply new_Vertex_inv in Ev. lia.
Qed.

Lemma vertices_loop_reversed fuel s e b front back :
  e < s -> vertices_loop (S fuel) s e b front back = Raise AssertionError.
Proof.
  intros Hgt. cbn [vertices_loop].
  destruct (Z.eqb_spec s e); [lia|].
  destruct (Z.ltb_spec s e); [lia|]. reflexivity.
Qed.

Lemma vertices_loop_single fuel t b front back :
  0 <= b -> 0 <= t < 2 ^ b ->
  vertices_loop (S fuel) t t b front back
    = Ok (front ++ [MkVertex t b] ++ rev back).
Proof.
  intros Hb Ht. cbn [vertices_loop]. rewrite Z.eqb_refl.
  rewrite new_Vertex_ok by lia. reflexivity.
Qed.

Lemma vertices_for_range_reversed_run (start end_ : Z) :
  end_ < start -> vertices_for_range start end_ = Raise AssertionError.
Proof.
  intros Hgt. unfold vertices_for_range. change loop_fuel with (S 193).
  apply vertices_loop_reversed. exact Hgt.
Qed.

Lemma vertices_for_range_negative_start start end_ vs :
  start < 0 -> vertices_for_range start end_ <> Ok vs.
Proof. intros Hs. apply vertices_loop_negative_start. exact Hs. Qed.

Lemma vertices_for_range_end_too_large start end_ vs :
  2 ^ 64 <= end_ -> vertices_for_range start end_ <> Ok vs.
Proof. intros He. apply vertices_loop_end_too_large. right. exact He. Qed.

(** One turn of the loop, case by case. *)
Lemma vertices_loop_exit fuel s b front back :
  vertices_loop (S fuel) s s b front back
    = (v ← new_Vertex s b; Ok (front ++ [v] ++ rev back)).
Proof. cbn [vertices_loop]. rewrite Z.eqb_refl. reflexivity. Qed.

Lemma vertices_loop_up fuel s e b front back :
  s < e -> Z.even s = true -> Z.odd e = true ->
  vertices_loop (S fuel) s e b front back
    = vertices_loop fuel (Z.shiftr s 1) (Z.shiftr e 1) (b - 1) front back.
Proof.
  intros Hlt Hs He. cbn [vertices_loop].
  destruct (Z.eqb_spec s e); [lia|].
  destruct (Z.ltb_spec s e); [|lia].
  rewrite land_1_even, !land_1_odd, Hs, He. reflexivity.
Qed.

Lemma vertices_loop_front fuel s e b front back :
  s < e -> Z.odd s = true ->
  vertices_loop (S fuel) s e b front back
    = (v ← new_Vertex s b;
       vertices_loop fuel (s + 1) e b (front ++ [v]) back).
Proof.
  intros Hlt Hs. cbn [vertices_loop].
  destruct (Z.eqb_spec s e); [lia|].
  destruct (Z.ltb_spec s e); [|lia].
  rewrite land_1_even, !land_1_odd, Hs, <- Z.negb_odd, Hs. reflexivity.
Qed.

Lemma vertices_loop_back fuel s e b front back :
  s < e -> Z.even s = true -> Z.even e = true ->
  vertices_loop (S fuel) s e b front back
    = (v ← new_Vertex e b;
       vertices_loop fuel s (e - 1) b front (back ++ [v])).
Proof.
  intros Hlt Hs He. cbn [vertices_loop].
  destruct (Z.eqb_spec s e); [lia|].
  destruct (Z.ltb_spec s e); [|lia].
  rewrite land_1_even, !land_1_odd, Hs, <- !Z.negb_even, Hs, He. reflexivity.
Qed.

Lemma new_Vertex_raises p b x :
  new_Vertex p b = Raise x -> x = AssertionError \/ x = ValueError.
Proof.
  unfold new_Vertex. destruct (0 <=? p); [|intros [= <-]; auto].
  destruct (b <? 0); [intros [= <-]; auto|].
  destruct (p <? Z.shiftl 1 b); cbn; [discriminate | intros [= <-]; auto].
Qed.

(** The loop ends within [end - start + 1] turns, on any integers: with
    that much fuel it does not run out, what it raises is an exception
    of [assert] or of the shift in [Vertex], and more fuel changes
    nothing. *)
Lemma vertices_loop_stable fuel : forall s e b front back,
  Z.max 0 (e - s) < Z.of_nat fuel ->
  (forall x, vertices_loop fuel s e b front back = Raise x ->
     x = AssertionError \/ x = ValueError) /\
  (forall fuel', (fuel <= fuel')%nat ->
     vertices_loop fuel' s e b front back
       = vertices_loop fuel s e b front back).
Proof.
  induction fuel as [|fuel IH]; intros s e b front back Hf; [lia|].
  assert (Hmore : forall fuel', (S fuel <= fuel')%nat ->
            exists m, fuel' = S m /\ (fuel <= m)%nat).
  { intros [|m] Hm; [lia|]. exists m. split; [reflexivity|lia]. }
  destruct (Z.lt_trichotomy s e) as [Hlt|[->|Hgt]].
  - destruct (even_odd_cases s) as [[Hs1 Hs2]|[Hs1 Hs2]].
    + destruct (even_odd_cases e) as [[He1 He2]|[He1 He2]].
      * rewrite (vertices_loop_back fuel) by assumption.
        destruct (new_Vertex e b) as [v|y] eqn:Ev.
        -- rewrite bind_Ok.
           destruct (IH s (e - 1) b front (back ++ [v])) as [IH1 IH2]; [lia|].
           split; [exact IH1|]. intros fuel' Hm.
           destruct (Hmore _ Hm) as (m & -> & Hm').
           rewrite (vertices_loop_back m), Ev, bind_Ok by assumption.
           apply IH2. exact Hm'.
        -- split.
           ++ intros x [= <-]. exact (new_Vertex_raises _ _ _ Ev).
           ++ intros fuel' Hm. destruct (Hmore _ Hm) as (m & -> & _).
              rewrite (vertices_loop_back m), Ev by assumption. reflexivity.
      * rewrite (vertices_loop_up fuel) by assumption.
        pose proof (even_half s Hs1). pose proof (odd_half e He2).
        destruct (IH (Z.shiftr s 1) (Z.shiftr e 1) (b - 1) front back)
          as [IH1 IH2]; [lia|].
        split; [exact IH1|]. intros fuel' Hm.
        destruct (Hmore _ Hm) as (m & -> & Hm').
        rewrite (vertices_loop_up m) by assumption. apply IH2. exact Hm'.
    + rewrite (vertices_loop_front fuel) by assumption.
      destruct (new_Vertex s b) as [v|y] eqn:Ev.
      * rewrite bind_Ok.
        destruct (IH (s + 1) e b (front ++ [v]) back) as [IH1 IH2]; [lia|].
        split; [exact IH1|]. intros fuel' Hm.
        destruct (Hmore _ Hm) as (m & -> & Hm').
        rewrite (vertices_loop_front m), Ev, bind_Ok by assumption.
        apply IH2. exact Hm'.
      * split.
        -- intros x [= <-]. exact (new_Vertex_raises _ _ _ Ev).
        -- intros fuel' Hm. destruct (Hmore _ Hm) as (m & -> & _).
           rewrite (vertices_loop_front m), Ev by assumption. reflexivity.
  - rewrite vertices_loop_exit. split.
    + intros x. destruct (new_Vertex e b) as [v|y] eqn:Ev; [discriminate|].
      intros [= <-]. exact (new_Vertex_raises _ _ _ Ev).
    + intros fuel' Hm. destruct (Hmore _ Hm) as (m & -> & _).
      rewrite vertices_loop_exit. reflexivity.
  - rewrite vertices_loop_reversed by exact Hgt. split.
    + intros x [= <-]. left. reflexivity.
    + intros fuel' Hm. destruct (Hmore _ Hm) as (m & -> & _).
      apply vertices_loop_reversed. exact Hgt.
Qed.

(** X1: [vertices_for_range] returns a list exactly on the 64-bit ranges
    with [start <= end].  On any other pair of integers the loop ends
    in an exception, [AssertionError] or [ValueError]: it raises it
    with every budget of turns from some budget on, and returns a list
    with none. *)
Theorem vertices_for_range_domain (start end_ : Z) :
  ((exists vs, vertices_for_range start end_ = Ok vs) <->
   0 <= start /\ start <= end_ /\ end_ < 2 ^ 64) /\
  (~ (0 <= start /\ start <= end_ /\ end_ < 2 ^ 64) ->
   exists x n,
     (x = AssertionError \/ x = ValueError) /\
     forall fuel, (n <= fuel)%nat ->
       vertices_loop fuel start end_ 64 [] [] = Raise x).
Proof.
  split.
  - split.
    + intros [vs Hrun].
      destruct (Z_lt_ge_dec start 0) as [Hs|Hs].
      { exfalso. exact (vertices_for_range_negative_start _ _ _ Hs Hrun). }
      destruct (Z_lt_ge_dec end_ (2 ^ 64)) as [He|He]; cycle 1.
      { exfalso. apply (vertices_for_range_end_too_large start end_ vs); [lia|].
        exact Hrun. }
      destruct (Z_le_gt_dec start end_) as [Hle|Hgt]; [lia|exfalso].
      rewrite vertices_for_range_reversed_run in Hrun by lia. discriminate Hrun.
    + intros (H0 & H1 & H2).
      destruct (vertices_for_range_shape start end_ H0 H1 H2)
        as (m & b & front & back & Hrun & _).
      eexists. exact Hrun.
  - intros Hout.
    set (n := S (Z.to_nat (Z.max 0 (end_ - start)))).
    destruct (vertices_loop_stable n start end_ 64 [] []) as [Hx Hn];
      [subst n; lia|].
    destruct (vertices_loop n start end_ 64 [] []) as [vs|x] eqn:Hrun.
    + exfalso.
      destruct (Z_lt_ge_dec start 0) as [Hs|Hs].
      { exact (vertices_loop_negative_start _ _ _ _ _ _ _ Hs Hrun). }
      destruct (Z_lt_ge_dec end_ (2 ^ 64)) as [He|He]; cycle 1.
      { apply (vertices_loop_end_too_large n start end_ 64 [] [] vs);
          [right; lia | exact Hrun]. }
      destruct (Z_le_gt_dec start end_) as [Hle|Hgt]; [apply Hout; lia|].
      subst n. rewrite vertices_loop_reversed in Hrun by lia.
      discriminate Hrun.
    + exists x, n. split; [apply Hx; reflexivity|].
      intros fuel Hfuel. apply Hn. exact Hfuel.
Qed.

Lemma vertices_for_range_domain_witness :
  ((exists vs, vertices_for_range (-2) 5 = Ok vs) <->
   0 <= -2 /\ -2 <= 5 /\ 5 < 2 ^ 64) /\
  exists x n,
    (x = AssertionError \/ x = ValueError) /\
    forall fuel, (n <= fuel)%nat ->
      vertices_loop fuel (-2) 5 64 [] [] = Raise x.
Proof.
  destruct (vertices_for_range_domain (-2) 5) as [H1 H2].
  split; [exact H1 | apply H2; lia].
Defined.

(** X2: a range with [start > end] makes [vertices_for_range] fail its
    [assert start < end]. *)
Theorem vertices_for_range_reversed (start end_ : Z) :
  end_ < start -> vertices_for_range start end_ = Raise AssertionError.
Proof. apply vertices_for_range_reversed_run. Qed.

Lemma vertices_for_range_reversed_witness :
  vertices_for_range 11 8 = Raise AssertionError.
Proof. apply vertices_for_range_reversed. lia. Defined.

(** X3: the cover of a single timestamp is its leaf. *)
Theorem vertices_for_range_single (t : Z) :
  0 <= t < 2 ^ 64 -> vertices_for_range t t = Ok [MkVertex t 64].
Proof.
  intros Ht. unfold vertices_for_range. change loop_fuel with (S 193).
  apply (vertices_loop_single 193 t 64 [] []); lia.
Qed.

Lemma vertices_for_range_single_witness :
  vertices_for_range 77 77 = Ok [MkVertex 77 64].
Proof. apply vertices_for_range_single. lia. Defined.

(** *** The sizes of the blocks *)

Lemma chain_sizes a vs b :
  chain a vs b -> foldr (fun v n => 2 ^ (64 - bits v) + n) 0 vs = b - a.
Proof.
  revert a. induction vs as [|v vs IH]; simpl; intros a H.
  - lia.
  - destruct H as [<- H]. rewrite (IH _ H). unfold v_next, v_lo. lia.
Qed.

(** X4: the blocks of the cover have as many timestamps together as the
    range: the sum of [2^(64 - bits)] over the returned vertices is
    [end - start + 1]. *)
Theorem vertices_for_range_sizes (start end_ : Z) :
  0 <= start -> start <= end_ -> end_ < 2 ^ 64 ->
  exists vs,
    vertices_for_range start end_ = Ok vs /\
    foldr (fun v n => 2 ^ (64 - bits v) + n) 0 vs = end_ - start + 1.
Proof.
  intros H0 H1 H2.
  destruct (vertices_for_range_shape start end_ H0 H1 H2)
    as (m & b & front & back & Hrun & Hinv).
  pose proof (cover_final_chain _ _ _ _ _ _ Hinv) as Hchain.
  eexists. split; [exact Hrun|].
  rewrite (chain_sizes _ _ _ Hchain). lia.
Qed.

Lemma vertices_for_range_sizes_witness :
  exists vs,
    vertices_for_range 5 10 = Ok vs /\
    foldr (fun v n => 2 ^ (64 - bits v) + n) 0 vs = 10 - 5 + 1.
Proof. apply (vertices_for_range_sizes 5 10); lia. Defined.

(** ** Keys along a path of the tree *)

Lemma msb_first_app t n m :
  msb_first t (n + m)
    = msb_first (Z.shiftr t (Z.of_nat m)) n ++ msb_first t m.
Proof.
  induction n as [|n IH].
  - reflexivity.
  - change (S n + m)%nat with (S (n + m)).
    rewrite !msb_first_S, IH. cbn [app]. f_equal.
    rewrite Z.shiftr_spec by lia. f_equal. lia.
Qed.

Section Paths.
Context {mc : Monocypher} {mcs : MonocypherSpec mc}.

Lemma derive_tree_key_ancestor_run s ch v1 v2 root :
  tree_root_keys s !! ch = Some root -> length root = TREE_KEY_LEN ->
  length (left_tree_key s) = TREE_LEFT_RIGHT_LEN ->
  length (right_tree_key s) = TREE_LEFT_RIGHT_LEN ->
  0 <= ch < 2 ^ 32 ->
  0 <= bits v1 -> 0 <= prefix v1 < 2 ^ bits v1 ->
  0 <= prefix v2 < 2 ^ bits v2 ->
  ancestor v1 v2 ->
  exists k1,
    derive_tree_key s ch v1 = Ok k1 /\ length k1 = 16%nat /\
    derive_tree_key s ch v2
      = Ok (spec_descend s k1
              (msb_first (prefix v2) (Z.to_nat (bits v2 - bits v1)))).
Proof.
  intros Hroot Hrl Hl Hr Hch Hb1 Hp1 Hp2 [Hle Hanc].
  set (k1 := spec_descend s root (msb_first (prefix v1) (Z.to_nat (bits v1)))).
  assert (Hk1 : derive_tree_key s ch v1 = Ok k1).
  { rewrite (derive_tree_key_run s ch v1 root) by assumption.
    destruct (Z.eqb_spec (bits v1) 0) as [E|E]; [|reflexivity].
    subst k1. rewrite E. reflexivity. }
  exists k1. split_and!.
  - exact Hk1.
  - subst k1. apply spec_descend_length. exact Hrl.
  - rewrite (derive_tree_key_run s ch v2 root) by (try assumption; lia).
    f_equal. subst k1. unfold spec_descend. rewrite <- foldl_app.
    replace (Z.to_nat (bits v2))
      with (Z.to_nat (bits v1) + Z.to_nat (bits v2 - bits v1))%nat by lia.
    rewrite msb_first_app, Z2Nat.id, Hanc by lia.
    destruct (Z.eqb_spec (bits v2) 0) as [E|E]; [|reflexivity].
    replace (bits v1) with 0 by lia. rewrite E. reflexivity.
Qed.

End Paths.

(** X5: the key of a vertex is reached from the key of any of its
    ancestors by the child steps along the bits that the ancestor's
    prefix lacks, most significant first.  A holder of a subscription
    key can so compute the key of every vertex below it. *)
Theorem derive_tree_key_ancestor {mc : Monocypher} {mcs : MonocypherSpec mc}
    (s : GlobalSecrets) (ch : Z) (v1 v2 : Vertex) (root : bytes) :
  tree_root_keys s !! ch = Some root -> length root = 16%nat ->
  length (left_tree_key s) = 32%nat -> length (right_tree_key s) = 32%nat ->
  0 <= ch < 2 ^ 32 ->
  0 <= bits v1 -> 0 <= prefix v1 < 2 ^ bits v1 ->
  0 <= prefix v2 < 2 ^ bits v2 ->
  ancestor v1 v2 ->
  exists k1,
    derive_tree_key s ch v1 = Ok k1 /\ length k1 = 16%nat /\
    derive_tree_key s ch v2
      = Ok (spec_descend s k1
              (msb_first (prefix v2) (Z.to_nat (bits v2 - bits v1)))).
Proof. apply derive_tree_key_ancestor_run. Qed.

Lemma derive_tree_key_ancestor_witness :
  exists k1,
    @derive_tree_key toy_monocypher toy_secrets 1 (MkVertex 2 62) = Ok k1 /\
    length k1 = 16%nat /\
    @derive_tree_key toy_monocypher toy_secrets 1 (MkVertex 9 64)
      = Ok (@spec_descend toy_monocypher toy_secrets k1
              (msb_first 9 (Z.to_nat (64 - 62)))).
Proof.
  apply (@derive_tree_key_ancestor toy_monocypher toy_monocypher_spec
           toy_secrets 1 (MkVertex 2 62) (MkVertex 9 64)
           (replicate 16 Byte.x31)).
  - reflexivity.
  - reflexivity.
  - reflexivity.
  - reflexivity.
  - lia.
  - simpl. lia.
  - simpl. lia.
  - simpl. lia.
  - split; [simpl; lia | reflexivity].
Defined.

(** X6: the key of a child is [kdf_tree_child] of the key of its parent
    and of the left key (child 0) or the right key (child 1). *)
Theorem derive_tree_key_child {mc : Monocypher} {mcs : MonocypherSpec mc}
    (s : GlobalSecrets) (ch p b : Z) (bit : bool) (root : bytes) :
  tree_root_keys s !! ch = Some root -> length root = 16%nat ->
  length (left_tree_key s) = 32%nat -> length (right_tree_key s) = 32%nat ->
  0 <= ch < 2 ^ 32 -> 0 <= b -> 0 <= p < 2 ^ b ->
  derive_tree_key s ch (MkVertex (2 * p + Z.b2z bit) (b + 1))
    = (parent ← derive_tree_key s ch (MkVertex p b);
       kdf_tree_child parent
         (if bit then right_tree_key s else left_tree_key s)).
Proof.
  intros Hroot Hrl Hl Hr Hch Hb Hp.
  assert (Hbit : 0 <= Z.b2z bit <= 1) by (destruct bit; simpl; lia).
  assert (Hpow : 2 ^ (b + 1) = 2 * 2 ^ b)
    by (rewrite Z.pow_add_r by lia; change (2 ^ 1) with 2; lia).
  destruct (derive_tree_key_ancestor_run s ch (MkVertex p b)
              (MkVertex (2 * p + Z.b2z bit) (b + 1)) root)
    as (k1 & Hk1 & Hk1l & Hk2); try assumption.
  - cbn [bits prefix]. lia.
  - split; cbn [bits prefix]; [lia|].
    replace (b + 1 - b) with 1 by lia.
    rewrite Z.shiftr_div_pow2 by lia. change (2 ^ 1) with 2.
    rewrite Z.mul_comm, Z.div_add_l by lia.
    rewrite Z.div_small by lia. lia.
  - rewrite Hk2, Hk1, bind_Ok. cbn [bits prefix].
    replace (Z.to_nat (b + 1 - b)) with 1%nat by lia.
    change (msb_first (2 * p + Z.b2z bit) 1)
      with [Z.testbit (2 * p + Z.b2z bit) 0].
    rewrite Z.testbit_0_r. cbn [spec_descend foldl]. unfold spec_child_step.
    symmetry. apply kdf_tree_child_ok; [exact Hk1l|].
    destruct bit; assumption.
Qed.

Lemma derive_tree_key_child_witness :
  @derive_tree_key toy_monocypher toy_secrets 2
      (MkVertex (2 * 5 + Z.b2z true) (3 + 1))
    = (parent ← @derive_tree_key toy_monocypher toy_secrets 2 (MkVertex 5 3);
       @kdf_tree_child toy_monocypher parent
         (if true then right_tree_key toy_secrets
          else left_tree_key toy_secrets)).
Proof.
  apply (@derive_tree_key_child toy_monocypher toy_monocypher_spec
           toy_secrets 2 5 3 true (replicate 16 Byte.x32)).
  - reflexivity.
  - reflexivity.
  - reflexivity.
  - reflexivity.
  - lia.
  - lia.
  - lia.
Defined.

Lemma assert_cases c : assert c = Ok tt \/ assert c = Raise AssertionError.
Proof. destruct c; [left | right]; reflexivity. Qed.

(** X7: on a channel without a tree root [derive_tree_key] raises
    [AssertionError], whatever the vertex: it never returns a key. *)
Theorem derive_tree_key_unknown_channel {mc : Monocypher}
    (s : GlobalSecrets) (ch : Z) (v : Vertex) :
  tree_root_keys s !! ch = None ->
  derive_tree_key s ch v = Raise AssertionError.
Proof.
  intros Hroot. unfold derive_tree_key. rewrite Hroot.
  destruct (assert_cases ((0 <=? ch) && (ch <? 2 ^ 32))) as [->| ->];
    [|reflexivity].
  destruct (assert_cases (0 <=? bits v)) as [->| ->]; [|reflexivity].
  destruct (assert_cases ((0 <=? prefix v)
                          && (prefix v <? Z.shiftl 1 (bits v)))) as [->| ->];
    reflexivity.
Qed.

Lemma derive_tree_key_unknown_channel_witness :
  @derive_tree_key toy_monocypher toy_secrets 42 (MkVertex 0 64)
    = Raise AssertionError.
Proof.
  apply (@derive_tree_key_unknown_channel toy_monocypher toy_secrets 42).
  reflexivity.
Defined.

(** ** The wrappers: when they return and what *)

Lemma assert_length_cases {A} (l : list A) n :
  (length l = n /\ assert (length l =? n)%nat = Ok tt) \/
  (length l <> n /\ assert (length l =? n)%nat = Raise AssertionError).
Proof.
  destruct (Nat.eqb_spec (length l) n); [left | right]; split;
    auto.
Qed.

Lemma assert_u32_cases z :
  (0 <= z < 2 ^ 32 /\ assert ((0 <=? z) && (z <? 2 ^ 32)) = Ok tt) \/
  (~ 0 <= z < 2 ^ 32 /\
   assert ((0 <=? z) && (z <? 2 ^ 32)) = Raise AssertionError).
Proof.
  destruct (Z.leb_spec 0 z); destruct (Z.ltb_spec z (2 ^ 32)); cbn;
    [left | right | right | right]; split; auto; lia.
Qed.

Section WrapperDomains.
Context {mc : Monocypher} {mcs : MonocypherSpec mc}.

Lemma kdf_tree_child_inv parent lr k :
  kdf_tree_child parent lr = Ok k ->
  length parent = 16%nat /\ length lr = 32%nat /\
  k = blake2b 16 (parent ++ lr).
Proof.
  intros H.
  destruct (assert_length_cases parent TREE_KEY_LEN) as [[Hp _]|[_ E]];
    [|unfold kdf_tree_child in H; rewrite E in H; discriminate H].
  destruct (assert_length_cases lr TREE_LEFT_RIGHT_LEN) as [[Hl _]|[_ E]];
    [|unfold kdf_tree_child in H;
      rewrite (assert_length _ _ Hp), bind_Ok, E in H; discriminate H].
  rewrite (kdf_tree_child_ok _ _ Hp Hl) in H. injection H as <-. auto.
Qed.

Lemma kdf_tree_leaf_inv leaf k :
  kdf_tree_leaf leaf = Ok k -> length leaf = 16%nat /\ k = blake2b 32 leaf.
Proof.
  intros H.
  destruct (assert_length_cases leaf TREE_KEY_LEN) as [[Hl _]|[_ E]];
    [|unfold kdf_tree_leaf in H; rewrite E in H; discriminate H].
  rewrite (kdf_tree_leaf_ok _ Hl) in H. injection H as <-. auto.
Qed.

Lemma kdf_id_inv root id k :
  kdf_id root id = Ok k ->
  length root = 32%nat /\ 0 <= id < 2 ^ 32 /\
  k = blake2b 32 (le_split 4 id ++ root).
Proof.
  intros H.
  destruct (assert_length_cases root SYMMETRIC_KEY_LEN) as [[Hr _]|[_ E]];
    [|unfold kdf_id in H; rewrite E in H; discriminate H].
  destruct (assert_u32_cases id) as [[Hid _]|[_ E]];
    [|unfold kdf_id in H;
      rewrite (assert_length _ _ Hr), bind_Ok, E in H; discriminate H].
  rewrite (kdf_id_ok _ _ Hr Hid) in H. injection H as <-. auto.
Qed.

End WrapperDomains.

(** X8: [kdf_tree_child] returns exactly on a 16-byte parent key and a
    32-byte direction key, and then the 16-byte Blake2b digest of the
    parent key followed by the direction key; [kdf_tree_leaf] returns
    exactly on a 16-byte key, and then its 32-byte digest.  On any other
    width they raise. *)
Theorem kdf_tree_domain {mc : Monocypher} {mcs : MonocypherSpec mc}
    (parent lr leaf k : bytes) :
  (kdf_tree_child parent lr = Ok k <->
     length parent = 16%nat /\ length lr = 32%nat /\
     k = blake2b 16 (parent ++ lr)) /\
  (kdf_tree_leaf leaf = Ok k <->
     length leaf = 16%nat /\ k = blake2b 32 leaf).
Proof.
  split; split.
  - apply kdf_tree_child_inv.
  - intros (Hp & Hl & ->). apply kdf_tree_child_ok; assumption.
  - apply kdf_tree_leaf_inv.
  - intros (Hl & ->). apply kdf_tree_leaf_ok; assumption.
Qed.

Lemma kdf_tree_domain_witness :
  (@kdf_tree_child toy_monocypher [Byte.x01] (replicate 32 Byte.x02)
     = Ok [Byte.x03] <->
     length [Byte.x01] = 16%nat /\ length (replicate 32 Byte.x02) = 32%nat /\
     [Byte.x03] = @blake2b toy_monocypher 16
                    ([Byte.x01] ++ replicate 32 Byte.x02)) /\
  (@kdf_tree_leaf toy_monocypher (replicate 16 Byte.x04) = Ok [Byte.x03] <->
     length (replicate 16 Byte.x04) = 16%nat /\
     [Byte.x03] = @blake2b toy_monocypher 32 (replicate 16 Byte.x04)).
Proof.
  exact (@kdf_tree_domain toy_monocypher toy_monocypher_spec
           [Byte.x01] (replicate 32 Byte.x02) (replicate 16 Byte.x04)
           [Byte.x03]).
Defined.

(** X9: [derive_id_key] returns exactly for a device id below [2^32]
    and a 32-byte [id_root_key], and then the 32-byte digest of the
    little-endian id followed by the root key (the id first);
    [symbol_shimmy_seed] is the same construction on
    [symbol_shimmy_root_key]. *)
Theorem derive_id_key_domain {mc : Monocypher} {mcs : MonocypherSpec mc}
    (s : GlobalSecrets) (id : Z) (k : bytes) :
  (derive_id_key s id = Ok k <->
     0 <= id < 2 ^ 32 /\ length (id_root_key s) = 32%nat /\
     k = blake2b 32 (le_split 4 id ++ id_root_key s)) /\
  (symbol_shimmy_seed s id = Ok k <->
     0 <= id < 2 ^ 32 /\ length (symbol_shimmy_root_key s) = 32%nat /\
     k = blake2b 32 (le_split 4 id ++ symbol_shimmy_root_key s)).
Proof.
  split; split.
  - unfold derive_id_key.
    destruct (assert_u32_cases id) as [[Hid ->]|[_ ->]]; [|discriminate].
    rewrite bind_Ok. intros H. apply kdf_id_inv in H as (? & ? & ?). auto.
  - intros (Hid & Hr & ->). unfold derive_id_key.
    rewrite (assert_u32 _ Hid), bind_Ok. apply kdf_id_ok; assumption.
  - unfold symbol_shimmy_seed, kdf_symbol_shimmy.
    intros H. apply kdf_id_inv in H as (? & ? & ?). auto.
  - intros (Hid & Hr & ->). apply kdf_id_ok; assumption.
Qed.

Lemma derive_id_key_domain_witness :
  (@derive_id_key toy_monocypher toy_secrets (2 ^ 32) = Ok [] <->
     0 <= 2 ^ 32 < 2 ^ 32 /\ length (id_root_key toy_secrets) = 32%nat /\
     [] = @blake2b toy_monocypher 32
            (le_split 4 (2 ^ 32) ++ id_root_key toy_secrets)) /\
  (@symbol_shimmy_seed toy_monocypher toy_secrets (2 ^ 32) = Ok [] <->
     0 <= 2 ^ 32 < 2 ^ 32 /\
     length (symbol_shimmy_root_key toy_secrets) = 32%nat /\
     [] = @blake2b toy_monocypher 32
            (le_split 4 (2 ^ 32) ++ symbol_shimmy_root_key toy_secrets)).
Proof.
  exact (@derive_id_key_domain toy_monocypher toy_monocypher_spec
           toy_secrets (2 ^ 32) []).
Defined.

(** X10: with a key that is not 32 bytes long [encrypt_symmetric] raises
    [AssertionError] before it draws a nonce: the random source and the
    log are as they were. *)
Theorem encrypt_symmetric_bad_key {mc : Monocypher}
    (p k : bytes) (w : World) :
  length k <> 32%nat ->
  encrypt_symmetric p k w = (Raise AssertionError, w).
Proof.
  intros Hk. unfold encrypt_symmetric. cbv [mbind M_bind lift].
  destruct (assert_length_cases k SYMMETRIC_KEY_LEN) as [[E _]|[_ ->]];
    [contradiction | reflexivity].
Qed.

Lemma encrypt_symmetric_bad_key_witness :
  @encrypt_symmetric toy_monocypher [Byte.x68] (replicate 16 Byte.x2a) toy_world
    = (Raise AssertionError, toy_world).
Proof.
  apply (@encrypt_symmetric_bad_key toy_monocypher). vm_compute. lia.
Defined.

(** ** Packing and unpacking records *)

Lemma pack_field_fits f v :
  (fits f v /\ exists b, pack_field f v = Ok b /\ length b = fmt_size f /\
                         (forall rest, unpack_fields [f] (b ++ rest) = [stored f v]))
  \/ (~ fits f v /\ pack_field f v = Raise StructError).
Proof.
  destruct f as [| |n], v as [z|x]; cbn [pack_field fits];
    try (right; split; [tauto | reflexivity]).
  - unfold pack_uint. change (2 ^ (8 * Z.of_nat 4)) with (2 ^ 32).
    destruct (Z.leb_spec 0 z); destruct (Z.ltb_spec z (2 ^ 32)); cbn [andb];
      try (right; split; [lia | reflexivity]).
    left. split; [lia|]. eexists. split_and!; [reflexivity|apply length_le_split|].
    intros rest. cbn [unpack_fields fmt_size stored].
    rewrite take_app_length' by (symmetry; apply length_le_split).
    rewrite le_combine_split. f_equal. f_equal. apply Z.mod_small.
    change (2 ^ (Z.of_nat 4 * 8)) with (2 ^ 32). lia.
  - unfold pack_uint. change (2 ^ (8 * Z.of_nat 8)) with (2 ^ 64).
    destruct (Z.leb_spec 0 z); destruct (Z.ltb_spec z (2 ^ 64)); cbn [andb];
      try (right; split; [lia | reflexivity]).
    left. split; [lia|]. eexists. split_and!; [reflexivity|apply length_le_split|].
    intros rest. cbn [unpack_fields fmt_size stored].
    rewrite take_app_length' by (symmetry; apply length_le_split).
    rewrite le_combine_split. f_equal. f_equal. apply Z.mod_small.
    change (2 ^ (Z.of_nat 8 * 8)) with (2 ^ 64). lia.
  - left. split; [exact I|]. eexists. split_and!; [reflexivity|apply pack_s_length|].
    intros rest. cbn [unpack_fields fmt_size stored].
    rewrite take_app_length' by (symmetry; apply pack_s_length). reflexivity.
Qed.

Lemma unpack_fields_cons f fs b rest :
  length b = fmt_size f ->
  unpack_fields (f :: fs) (b ++ rest)
    = unpack_fields [f] (b ++ rest) ++ unpack_fields fs rest.
Proof.
  intros Hb. cbn [unpack_fields app]. f_equal.
  rewrite drop_app_length' by (symmetry; exact Hb). reflexivity.
Qed.

Lemma struct_pack_run fs : forall vs,
  (Forall2 fits fs vs /\
   exists b, struct_pack fs vs = Ok b /\ length b = struct_size fs /\
             unpack_fields fs b = zip_with stored fs vs)
  \/ (~ Forall2 fits fs vs /\ struct_pack fs vs = Raise StructError).
Proof.
  induction fs as [|f fs IH]; intros [|v vs]; cbn [struct_pack].
  - left. split; [constructor|]. exists []. split_and!; reflexivity.
  - right. split; [|reflexivity]. intros H. inversion H.
  - right. split; [|reflexivity]. intros H. inversion H.
  - destruct (pack_field_fits f v) as [(Hf & b & -> & Hbl & Hun)|[Hf ->]];
      cycle 1.
    { right. split; [|reflexivity]. intros H. inversion H. contradiction. }
    rewrite bind_Ok.
    destruct (IH vs) as [(Hfs & rest & -> & Hrl & Hrest)|[Hfs ->]]; cycle 1.
    { right. split; [|reflexivity]. intros H. inversion H. contradiction. }
    rewrite bind_Ok. left. split; [constructor; assumption|].
    exists (b ++ rest). split_and!.
    + reflexivity.
    + rewrite length_app, Hbl, Hrl. reflexivity.
    + rewrite (unpack_fields_cons _ _ _ _ Hbl), Hun, Hrest. reflexivity.
Qed.

(** X11: a record of a [cstruct] class, built from values and packed,
    gives bytes exactly when there is one value per field, an integer
    within the width of each integer field and [bytes] for each [s]
    field; the bytes then have the size of the record.  With another
    number of values the constructor of the record raises [TypeError],
    and [pack] is not reached; with one value per field and a value that
    does not fit its field, [pack] raises [struct.error]. *)
Theorem cstruct_pack_domain (fs : list fmt) (vs : list pyval) :
  ((exists b, cstruct_pack fs vs = Ok b) <-> Forall2 fits fs vs) /\
  (forall b, cstruct_pack fs vs = Ok b -> length b = struct_size fs) /\
  (length vs <> length fs ->
     cstruct_new fs vs = Raise TypeError /\
     cstruct_pack fs vs = Raise TypeError) /\
  (length vs = length fs -> ~ Forall2 fits fs vs ->
     cstruct_new fs vs = Ok vs /\
     cstruct_pack fs vs = Raise StructError).
Proof.
  unfold cstruct_pack, cstruct_new.
  destruct (Nat.eqb_spec (length vs) (length fs)) as [Hlen|Hlen].
  - rewrite bind_Ok.
    destruct (struct_pack_run fs vs) as [(Hf & b & Hrun & Hb & _)|[Hf Hrun]];
      rewrite Hrun; split_and!.
    + split; [intros _; exact Hf | intros _; eauto].
    + intros b' [= <-]. exact Hb.
    + intros H. contradiction.
    + intros _ H. contradiction.
    + split; [intros [b H]; discriminate H | intros H; contradiction].
    + discriminate.
    + intros H. contradiction.
    + intros _ _. split; reflexivity.
  - cbn [mbind result_bind]. split_and!.
    + split; [intros [b H]; discriminate H|].
      intros H. apply Forall2_length in H. congruence.
    + discriminate.
    + intros _. split; reflexivity.
    + intros H. contradiction.
Qed.

(** X12: unpacking a packed record gives the values back, a [bytes]
    value cut or zero-filled to the width of its field. *)
Theorem struct_unpack_pack (fs : list fmt) (vs : list pyval) (b : bytes) :
  struct_pack fs vs = Ok b ->
  struct_unpack fs b = Ok (zip_with stored fs vs).
Proof.
  intros Hrun.
  destruct (struct_pack_run fs vs) as [(_ & b' & Hrun' & Hlen & Hun)|[_ E]];
    [|rewrite E in Hrun; discriminate Hrun].
  rewrite Hrun in Hrun'. injection Hrun' as <-.
  unfold struct_unpack. rewrite Hlen, Nat.eqb_refl, Hun. reflexivity.
Qed.

Lemma struct_unpack_pack_witness :
  struct_unpack FrameData
    (le_split 4 3 ++ pack_s 64 [Byte.x61; Byte.x62; Byte.x63] ++ [])
  = Ok (zip_with stored FrameData
          [VInt 3; VBytes [Byte.x61; Byte.x62; Byte.x63]]).
Proof.
  apply (struct_unpack_pack FrameData
           [VInt 3; VBytes [Byte.x61; Byte.x62; Byte.x63]]).
  reflexivity.
Defined.

Lemma pack_unpack_fields fs : forall buf,
  length buf = struct_size fs ->
  struct_pack fs (unpack_fields fs buf) = Ok buf.
Proof.
  induction fs as [|f fs IH]; intros buf Hlen; cbn [struct_pack unpack_fields].
  - destruct buf; [reflexivity|discriminate Hlen].
  - cbn [struct_size foldr] in Hlen. fold (struct_size fs) in Hlen.
    assert (Ht : length (take (fmt_size f) buf) = fmt_size f)
      by (rewrite length_take; lia).
    assert (Hd : length (drop (fmt_size f) buf) = struct_size fs)
      by (rewrite length_drop; lia).
    assert (Hf : pack_field f
                   match f with
                   | FI | FQ => VInt (le_combine (take (fmt_size f) buf))
                   | Fs _ => VBytes (take (fmt_size f) buf)
                   end = Ok (take (fmt_size f) buf)).
    { pose proof (le_combine_bound (take (fmt_size f) buf)) as Hb.
      rewrite Ht in Hb.
      destruct f as [| |n]; cbn [pack_field fmt_size] in *.
      - rewrite pack_uint_ok by (rewrite Z.mul_comm; exact Hb).
        f_equal. rewrite <- Ht at 1. apply split_le_combine.
      - rewrite pack_uint_ok by (rewrite Z.mul_comm; exact Hb).
        f_equal. rewrite <- Ht at 1. apply split_le_combine.
      - f_equal. apply pack_s_exact. exact Ht. }
    rewrite Hf, bind_Ok, (IH _ Hd), bind_Ok. f_equal. apply take_drop.
Qed.

(** X13: packing the values unpacked from a buffer gives the buffer
    back; [unpack] accepts exactly the buffers of the record's size. *)
Theorem struct_pack_unpack (fs : list fmt) (buf : bytes) :
  (length buf = struct_size fs ->
     exists vs, struct_unpack fs buf = Ok vs /\ struct_pack fs vs = Ok buf) /\
  (length buf <> struct_size fs -> struct_unpack fs buf = Raise StructError).
Proof.
  unfold struct_unpack. split; intros Hlen.
  - rewrite Hlen, Nat.eqb_refl. eexists. split; [reflexivity|].
    apply pack_unpack_fields. exact Hlen.
  - destruct (Nat.eqb_spec (length buf) (struct_size fs));
      [contradiction | reflexivity].
Qed.

(** ** Bundles and secrets files *)

(** X14: every bundle [generate] returns has the key widths the other
    operations assert (64-byte signing key, 32-byte id root, direction
    and channel keys, 16-byte tree roots) and its two per-channel maps
    on the same channels. *)
Theorem generate_well_formed {mc : Monocypher} {mcs : MonocypherSpec mc}
    (channels : list Z) (w : World) :
  exists s w', generate channels w = (Ok s, w') /\ wf_secrets s.
Proof.
  destruct (generate_run channels w) as (s & w' & Hrun & _).
  exists s, w'. split; [exact Hrun|]. eapply generate_wf. exact Hrun.
Qed.

Lemma generate_well_formed_witness :
  exists s (w' : @World toy_monocypher),
    @generate toy_monocypher [1; 2] toy_world = (Ok s, w') /\ wf_secrets s.
Proof.
  exact (@generate_well_formed toy_monocypher toy_monocypher_spec
           [1; 2] toy_world).
Defined.

Section Loading.
Context {b64 : Base64}.

Lemma getitem_Ok_assoc j key v :
  getitem j key = Ok v -> exists ms, j = JObject ms /\ assoc key ms = Some v.
Proof.
  destruct j as [x|ms]; cbn [getitem]; [discriminate|].
  destruct (assoc key ms) as [v'|] eqn:E; [|discriminate].
  intros [= <-]. exists ms. split; [reflexivity | exact E].
Qed.

Lemma bind_Ok_inv {A B} (m : result A) (f : A -> result B) b :
  m ≫= f = Ok b -> exists a, m = Ok a /\ f a = Ok b.
Proof. destruct m as [a|e]; cbn; [eauto|discriminate]. Qed.

Lemma deserialize_getitems j s :
  deserialize j = Ok s ->
  Forall (fun key => exists v, getitem j key = Ok v) secrets_fields.
Proof.
  unfold deserialize. intros H.
  repeat (apply bind_Ok_inv in H as (? & ? & H)).
  repeat match goal with
         | E : _ ≫= _ = Ok _ |- _ => apply bind_Ok_inv in E as (? & ? & ?)
         end.
  unfold secrets_fields. repeat constructor; eauto.
Qed.

End Loading.

(** X15: [deserialize] returns a bundle only for a JSON object with all
    eight members; a document that is a string, or lacks one of them,
    makes it raise. *)
Theorem deserialize_needs_fields {b64 : Base64} (j : json) (s : GlobalSecrets) :
  deserialize j = Ok s ->
  exists ms, j = JObject ms /\
    Forall (fun key => is_Some (assoc key ms)) secrets_fields.
Proof.
  intros H. pose proof (deserialize_getitems j s H) as Hall.
  destruct j as [x|ms].
  - apply Forall_inv in Hall as [v Hv]. discriminate Hv.
  - exists ms. split; [reflexivity|].
    eapply Forall_impl; [exact Hall|]. intros key [v Hv].
    apply getitem_Ok_assoc in Hv as (ms' & [= <-] & Hv). eauto.
Qed.

Lemma deserialize_needs_fields_witness :
  exists ms, toy_secrets_file = JObject ms /\
    Forall (fun key => is_Some (assoc key ms)) secrets_fields.
Proof.
  apply (@deserialize_needs_fields toy_base64 toy_secrets_file toy_secrets).
  exact toy_secrets_file_loads.
Defined.

(** ** What a subscription holds *)

Lemma struct_unpack_pack_run fs vs b :
  struct_pack fs vs = Ok b ->
  struct_unpack fs b = Ok (zip_with stored fs vs).
Proof.
  intros Hrun.
  destruct (struct_pack_run fs vs) as [(_ & b' & Hrun' & Hlen & Hun)|[_ E]];
    [|rewrite E in Hrun; discriminate Hrun].
  rewrite Hrun in Hrun'. injection Hrun' as <-.
  unfold struct_unpack. rewrite Hlen, Nat.eqb_refl, Hun. reflexivity.
Qed.

Lemma chunk_concat (keys : list bytes) : forall i k,
  Forall (fun k => length k = 16%nat) keys -> keys !! i = Some k ->
  take 16 (drop (16 * i) (concat keys)) = k.
Proof.
  induction keys as [|k0 keys IH]; intros i k Hall Hi; [discriminate|].
  apply Forall_cons in Hall as [Hk0 Hall]. cbn [concat].
  destruct i as [|i]; cbn [lookup] in Hi.
  - injection Hi as <-. rewrite Nat.mul_0_r. cbn [drop].
    apply take_app_length'. symmetry. exact Hk0.
  - replace (16 * S i)%nat with (16 + 16 * i)%nat by lia.
    rewrite drop_app_add' by (symmetry; exact Hk0). apply IH; assumption.
Qed.

Lemma assert_Ok_inv c u : assert c = Ok u -> c = true.
Proof. destruct c; [reflexivity | discriminate]. Qed.

Section SubscriptionContents.
Context {mc : Monocypher} {mcs : MonocypherSpec mc} {b64 : Base64}.

Lemma derive_tree_key_Ok_inv s ch v k :
  derive_tree_key s ch v = Ok k ->
  0 <= ch < 2 ^ 32 /\ 0 <= bits v /\ 0 <= prefix v < 2 ^ bits v /\
  is_Some (tree_root_keys s !! ch).
Proof.
  intros H. unfold derive_tree_key in H.
  apply bind_Ok_inv in H as ([] & E1 & H).
  apply bind_Ok_inv in H as ([] & E2 & H).
  apply bind_Ok_inv in H as ([] & E3 & H).
  apply assert_Ok_inv in E1, E2, E3.
  apply andb_true_iff in E1 as [E1a E1b]. apply andb_true_iff in E3 as [E3a E3b].
  rewrite Z.shiftl_1_l in E3b.
  apply Z.leb_le in E1a, E2, E3a. apply Z.ltb_lt in E1b, E3b.
  destruct (tree_root_keys s !! ch) as [root|]; [|discriminate H].
  split_and!; try assumption. eauto.
Qed.

Lemma derive_tree_key_Ok_length s ch v k :
  wf_secrets s -> derive_tree_key s ch v = Ok k -> length k = 16%nat.
Proof.
  intros Hwf H.
  destruct (derive_tree_key_Ok_inv s ch v k H) as (Hch & Hb & Hp & root & Hroot).
  destruct (derive_tree_key_length s ch v root Hwf Hroot Hch Hb Hp)
    as (k' & Hk' & Hlen).
  congruence.
Qed.

Lemma concat_tree_keys_keys s ch vs : forall acc kt,
  concat_tree_keys s ch vs acc = Ok kt ->
  exists keys,
    Forall2 (fun v k => derive_tree_key s ch v = Ok k) vs keys /\
    kt = acc ++ concat keys.
Proof.
  induction vs as [|v vs IH]; intros acc kt; cbn [concat_tree_keys].
  - intros [= <-]. exists []. split; [constructor|].
    cbn. rewrite app_nil_r. reflexivity.
  - intros H. apply bind_Ok_inv in H as (k & Hk & H).
    apply IH in H as (keys & Hkeys & ->).
    exists (k :: keys). split; [constructor; assumption|].
    cbn [concat]. rewrite app_assoc. reflexivity.
Qed.

Lemma concat_tree_keys_chunks s ch vs kt :
  wf_secrets s -> concat_tree_keys s ch vs [] = Ok kt ->
  forall i v, vs !! i = Some v ->
    derive_tree_key s ch v = Ok (take 16 (drop (16 * i) kt)).
Proof.
  intros Hwf H i v Hi.
  apply concat_tree_keys_keys in H as (keys & Hkeys & ->). cbn [app].
  destruct (Forall2_lookup_l _ _ _ _ _ Hkeys Hi) as (k & Hk & Hdk).
  rewrite Hdk. f_equal. symmetry. apply chunk_concat; [|exact Hk].
  apply Forall_forall. intros k' Hin.
  apply list_elem_of_lookup in Hin as [i' Hi'].
  destruct (Forall2_lookup_r _ _ _ _ _ Hkeys Hi') as (v' & _ & Hv').
  eapply derive_tree_key_Ok_length; eassumption.
Qed.

Lemma gen_embeddable_subscription_fields j s start end_ channel kch :
  deserialize j = Ok s -> wf_secrets s ->
  channel_keys s !! channel = Some kch -> 0 <= channel < 2 ^ 32 ->
  0 <= start -> start <= end_ -> end_ < 2 ^ 64 ->
  exists vs ktree,
    vertices_for_range start end_ = Ok vs /\
    concat_tree_keys s channel vs [] = Ok ktree /\
    length ktree = (16 * length vs)%nat /\ (length vs <= 126)%nat /\
    forall device_id,
      gen_embeddable_subscription j device_id start end_ channel
        = Ok ((ktree ++ replicate (2016 - 16 * length vs) Byte.x00) ++
              kch ++ le_split 8 start ++ le_split 8 end_ ++
              le_split 4 channel ++ le_split 4 (Z.of_nat (length vs)) ++
              le_split 4 SUBSCRIPTION_MAGIC ++ replicate 4 Byte.x00).
Proof.
  intros Hj Hwf Hkch Hch H0 H1 H2.
  destruct (gen_embeddable_subscription_run j s start end_ channel kch
              Hj Hwf Hkch Hch H0 H1 H2)
    as (vs & ktree & Hvs & Hlen & Hkt & Hktl & Hrun).
  unfold TREE_KEY_LEN in Hktl.
  exists vs, ktree. split_and!; try assumption; [lia|].
  intros device_id. rewrite Hrun. unfold embeddable_layout. f_equal.
  rewrite pack_s_short by (unfold MAX_TREE_KEYS, TREE_KEY_LEN; lia).
  rewrite (pack_s_exact _ kch (wf_channel_keys s Hwf _ _ Hkch)).
  rewrite app_nil_r. unfold MAX_TREE_KEYS, TREE_KEY_LEN.
  replace (126 * 16 - length ktree)%nat with (2016 - 16 * length vs)%nat by lia.
  reflexivity.
Qed.

End SubscriptionContents.

Lemma vertices_for_range_covering start end_ :
  0 <= start -> start <= end_ -> end_ < 2 ^ 64 ->
  exists vs,
    vertices_for_range start end_ = Ok vs /\ Forall valid_vertex vs /\
    forall t, start <= t <= end_ ->
      exists i v, vs !! i = Some v /\ covers v t.
Proof.
  intros H0 H1 H2.
  destruct (vertices_for_range_shape start end_ H0 H1 H2)
    as (m & b & front & back & Hrun & Hinv).
  pose proof (cover_final_valid _ _ _ _ _ _ Hinv) as Hvalid.
  pose proof (cover_final_chain _ _ _ _ _ _ Hinv) as Hchain.
  eexists. split_and!; [exact Hrun | exact Hvalid |].
  intros t Ht.
  destruct (proj2 (chain_covers _ _ _ Hvalid Hchain t)) as (v & Hin & Hc);
    [lia|].
  apply list_elem_of_lookup in Hin as [i Hi]. eauto.
Qed.

Lemma chunk_of_blob (ktree pad rest : bytes) (i n : nat) :
  length ktree = (16 * n)%nat -> (i < n)%nat ->
  take 16 (drop (16 * i) ((ktree ++ pad) ++ rest))
    = take 16 (drop (16 * i) ktree).
Proof.
  intros Hlen Hi. rewrite <- app_assoc.
  rewrite drop_app_le by lia. apply take_app_le. rewrite length_drop. lia.
Qed.

(** X16: unpacked as a [ValidSubscription], the embeddable subscription
    holds the tree keys of the cover, zero-filled to 2016 bytes, the
    channel key, [start], [end], the channel, the number of vertices
    of the cover as [key_count], the magic [0x41594E42] and four zero
    bytes. *)
Theorem gen_embeddable_subscription_unpack
    {mc : Monocypher} {mcs : MonocypherSpec mc} {b64 : Base64}
    (j : json) (s : GlobalSecrets) (device_id start end_ channel : Z)
    (kch : bytes) :
  deserialize j = Ok s -> wf_secrets s ->
  channel_keys s !! channel = Some kch -> 0 <= channel < 2 ^ 32 ->
  0 <= start -> start <= end_ -> end_ < 2 ^ 64 ->
  exists vs ktree blob,
    vertices_for_range start end_ = Ok vs /\
    concat_tree_keys s channel vs [] = Ok ktree /\
    gen_embeddable_subscription j device_id start end_ channel = Ok blob /\
    struct_unpack ValidSubscription blob
      = Ok [VBytes (ktree ++ replicate (2016 - 16 * length vs) Byte.x00);
            VBytes kch; VInt start; VInt end_; VInt channel;
            VInt (Z.of_nat (length vs)); VInt 0x41594E42;
            VBytes (replicate 4 Byte.x00)].
Proof.
  intros Hj Hwf Hkch Hch H0 H1 H2.
  destruct (gen_embeddable_subscription_run j s start end_ channel kch
              Hj Hwf Hkch Hch H0 H1 H2)
    as (vs & ktree & Hvs & Hlen & Hkt & Hktl & Hrun).
  unfold TREE_KEY_LEN in Hktl.
  exists vs, ktree,
    (embeddable_layout ktree kch start end_ channel (length vs)).
  split_and!; [exact Hvs | exact Hkt | apply Hrun |].
  rewrite (struct_unpack_pack_run ValidSubscription
             [VBytes ktree; VBytes kch; VInt start; VInt end_; VInt channel;
              VInt (Z.of_nat (length vs)); VInt SUBSCRIPTION_MAGIC; VBytes []])
    by (apply pack_ValidSubscription; lia).
  cbn [zip_with stored ValidSubscription]. f_equal.
  rewrite pack_s_short by (unfold MAX_TREE_KEYS, TREE_KEY_LEN; lia).
  rewrite (pack_s_exact _ kch (wf_channel_keys s Hwf _ _ Hkch)).
  unfold MAX_TREE_KEYS, TREE_KEY_LEN.
  replace (126 * 16 - length ktree)%nat with (2016 - 16 * length vs)%nat by lia.
  reflexivity.
Qed.

Lemma gen_embeddable_subscription_unpack_witness :
  exists vs ktree blob,
    vertices_for_range 100 200 = Ok vs /\
    @concat_tree_keys toy_monocypher toy_secrets 1 vs [] = Ok ktree /\
    @gen_embeddable_subscription toy_monocypher toy_base64
      toy_secrets_file 7 100 200 1 = Ok blob /\
    struct_unpack ValidSubscription blob
      = Ok [VBytes (ktree ++ replicate (2016 - 16 * length vs) Byte.x00);
            VBytes (replicate 32 Byte.x21); VInt 100; VInt 200; VInt 1;
            VInt (Z.of_nat (length vs)); VInt 0x41594E42;
            VBytes (replicate 4 Byte.x00)].
Proof.
  apply (@gen_embeddable_subscription_unpack
           toy_monocypher toy_monocypher_spec toy_base64
           toy_secrets_file toy_secrets 7 100 200 1 (replicate 32 Byte.x21)).
  - exact toy_secrets_file_loads.
  - exact toy_secrets_wf.
  - reflexivity.
  - lia.
  - lia.
  - lia.
  - lia.
Defined.

(** X17: the [i]-th 16-byte block of the embeddable subscription is the
    tree key of the [i]-th vertex of the cover. *)
Theorem gen_embeddable_subscription_keys
    {mc : Monocypher} {mcs : MonocypherSpec mc} {b64 : Base64}
    (j : json) (s : GlobalSecrets) (device_id start end_ channel : Z)
    (kch : bytes) :
  deserialize j = Ok s -> wf_secrets s ->
  channel_keys s !! channel = Some kch -> 0 <= channel < 2 ^ 32 ->
  0 <= start -> start <= end_ -> end_ < 2 ^ 64 ->
  exists vs blob,
    vertices_for_range start end_ = Ok vs /\
    gen_embeddable_subscription j device_id start end_ channel = Ok blob /\
    forall i v, vs !! i = Some v ->
      derive_tree_key s channel v = Ok (take 16 (drop (16 * i) blob)).
Proof.
  intros Hj Hwf Hkch Hch H0 H1 H2.
  destruct (gen_embeddable_subscription_fields j s start end_ channel kch
              Hj Hwf Hkch Hch H0 H1 H2)
    as (vs & ktree & Hvs & Hkt & Hktl & Hlen & Hrun).
  eexists vs, _. split_and!; [exact Hvs | apply Hrun |].
  intros i v Hi.
  rewrite (chunk_of_blob ktree _ _ i (length vs) Hktl)
    by (apply lookup_lt_Some in Hi; exact Hi).
  eapply concat_tree_keys_chunks; eassumption.
Qed.

Lemma gen_embeddable_subscription_keys_witness :
  exists vs blob,
    vertices_for_range 5 10 = Ok vs /\
    @gen_embeddable_subscription toy_monocypher toy_base64
      toy_secrets_file 7 5 10 2 = Ok blob /\
    forall i v, vs !! i = Some v ->
      @derive_tree_key toy_monocypher toy_secrets 2 v
        = Ok (take 16 (drop (16 * i) blob)).
Proof.
  apply (@gen_embeddable_subscription_keys
           toy_monocypher toy_monocypher_spec toy_base64
           toy_secrets_file toy_secrets 7 5 10 2 (replicate 32 Byte.x22)).
  - exact toy_secrets_file_loads.
  - exact toy_secrets_wf.
  - reflexivity.
  - lia.
  - lia.
  - lia.
  - lia.
Defined.

(** X18: every timestamp of the range can be decoded from the
    subscription: it lies under some vertex of the cover, and the key
    of its leaf is reached from that vertex's 16-byte block of the
    subscription by the child steps along the remaining low bits of the
    timestamp. *)
Theorem subscription_reaches_every_leaf
    {mc : Monocypher} {mcs : MonocypherSpec mc} {b64 : Base64}
    (j : json) (s : GlobalSecrets) (device_id start end_ channel t : Z)
    (kch : bytes) :
  deserialize j = Ok s -> wf_secrets s ->
  channel_keys s !! channel = Some kch -> 0 <= channel < 2 ^ 32 ->
  0 <= start -> start <= t -> t <= end_ -> end_ < 2 ^ 64 ->
  exists vs blob i v,
    vertices_for_range start end_ = Ok vs /\
    gen_embeddable_subscription j device_id start end_ channel = Ok blob /\
    vs !! i = Some v /\ covers v t /\
    derive_tree_key s channel (MkVertex t 64)
      = Ok (spec_descend s (take 16 (drop (16 * i) blob))
              (msb_first t (Z.to_nat (64 - bits v)))).
Proof.
  intros Hj Hwf Hkch Hch H0 H1 H2 H3.
  assert (Hle : start <= end_) by lia.
  destruct (gen_embeddable_subscription_fields j s start end_ channel kch
              Hj Hwf Hkch Hch H0 Hle H3)
    as (vs & ktree & Hvs & Hkt & Hktl & Hlen & Hrun).
  destruct (vertices_for_range_covering start end_ H0 Hle H3)
    as (vs' & Hvs' & Hvalid & Hcov).
  rewrite Hvs in Hvs'. injection Hvs' as <-.
  destruct (Hcov t (conj H1 H2)) as (i & v & Hi & Hc).
  assert (Hv : valid_vertex v) by (rewrite Forall_lookup in Hvalid; eauto).
  assert (Hroot : is_Some (tree_root_keys s !! channel)).
  { apply elem_of_dom. rewrite (wf_same_channels s Hwf).
    apply elem_of_dom. eauto. }
  destruct Hroot as [root Hroot].
  destruct Hv as [Hb Hp]. pose proof Hc as [Ht Hshift].
  destruct (derive_tree_key_ancestor_run s channel v (MkVertex t 64) root)
    as (k1 & Hk1 & _ & Hleaf); try assumption; try apply Hwf; try lia.
  { exact (wf_tree_root_keys s Hwf _ _ Hroot). }
  { split; cbn [bits prefix]; [lia | exact Hshift]. }
  eexists vs, _, i, v. split_and!; [exact Hvs | apply Hrun | exact Hi | exact Hc |].
  rewrite (chunk_of_blob ktree _ _ i (length vs) Hktl)
    by (apply lookup_lt_Some in Hi; exact Hi).
  pose proof (concat_tree_keys_chunks s channel vs ktree Hwf Hkt i v Hi) as Hchunk.
  replace (take 16 (drop (16 * i) ktree)) with k1 by congruence.
  exact Hleaf.
Qed.

Lemma subscription_reaches_every_leaf_witness :
  exists vs blob i v,
    vertices_for_range 5 10 = Ok vs /\
    @gen_embeddable_subscription toy_monocypher toy_base64
      toy_secrets_file 7 5 10 2 = Ok blob /\
    vs !! i = Some v /\ covers v 7 /\
    @derive_tree_key toy_monocypher toy_secrets 2 (MkVertex 7 64)
      = Ok (@spec_descend toy_monocypher toy_secrets
              (take 16 (drop (16 * i) blob))
              (msb_first 7 (Z.to_nat (64 - bits v)))).
Proof.
  apply (@subscription_reaches_every_leaf
           toy_monocypher toy_monocypher_spec toy_base64
           toy_secrets_file toy_secrets 7 5 10 2 7 (replicate 32 Byte.x22)).
  - exact toy_secrets_file_loads.
  - exact toy_secrets_wf.
  - reflexivity.
  - lia.
  - lia.
  - lia.
  - lia.
  - lia.
Defined.

(** ** What the subscription builder rejects *)

Lemma bind_Raise {A B} (e : exn) (f : A -> result B) : (Raise e ≫= f) = Raise e.
Proof. reflexivity. Qed.

Section Rejections.
Context {mc : Monocypher} {b64 : Base64}.

Lemma M_bind_lift_Raise {A B} (e : exn) (f : A -> M B) (w : World) :
  (lift (Raise e) ≫= f) w = (Raise e, w).
Proof. reflexivity. Qed.

Lemma gen_subscription_embeddable_error j device_id start end_ channel e w :
  gen_embeddable_subscription j device_id start end_ channel = Raise e ->
  gen_subscription j device_id start end_ channel w = (Raise e, w).
Proof.
  intros H. unfold gen_subscription. rewrite H. apply M_bind_lift_Raise.
Qed.

Lemma gen_embeddable_subscription_unknown j s device_id start end_ channel :
  deserialize j = Ok s -> channel_keys s !! channel = None ->
  gen_embeddable_subscription j device_id start end_ channel = Raise KeyError.
Proof.
  intros Hj Hch. unfold gen_embeddable_subscription.
  rewrite Hj, bind_Ok, Hch. apply bind_Raise.
Qed.

Lemma gen_embeddable_subscription_reversed j s device_id start end_ channel kch :
  deserialize j = Ok s -> channel_keys s !! channel = Some kch ->
  end_ < start ->
  gen_embeddable_subscription j device_id start end_ channel
    = Raise AssertionError.
Proof.
  intros Hj Hch Hgt. unfold gen_embeddable_subscription.
  rewrite Hj, bind_Ok, Hch, bind_Ok.
  rewrite (vertices_for_range_reversed_run _ _ Hgt). apply bind_Raise.
Qed.

End Rejections.

(** X19: for a channel that is not in [channel_keys] both builders raise
    [KeyError]; [gen_subscription] has then drawn no random bytes. *)
Theorem gen_subscription_unknown_channel {mc : Monocypher} {b64 : Base64}
    (j : json) (s : GlobalSecrets) (device_id start end_ channel : Z)
    (w : World) :
  deserialize j = Ok s -> channel_keys s !! channel = None ->
  gen_embeddable_subscription j device_id start end_ channel = Raise KeyError /\
  gen_subscription j device_id start end_ channel w = (Raise KeyError, w).
Proof.
  intros Hj Hch.
  pose proof (gen_embeddable_subscription_unknown j s device_id start end_
                channel Hj Hch) as H.
  split; [exact H|]. apply gen_subscription_embeddable_error. exact H.
Qed.

Lemma gen_subscription_unknown_channel_witness :
  @gen_embeddable_subscription toy_monocypher toy_base64
    toy_secrets_file 7 100 200 42 = Raise KeyError /\
  @gen_subscription toy_monocypher toy_base64
    toy_secrets_file 7 100 200 42 toy_world = (Raise KeyError, toy_world).
Proof.
  apply (@gen_subscription_unknown_channel toy_monocypher toy_base64
           toy_secrets_file toy_secrets 7 100 200 42 toy_world).
  - exact toy_secrets_file_loads.
  - reflexivity.
Defined.

(** X20: for a known channel and a range with [start > end] both
    builders raise [AssertionError]; [gen_subscription] has then drawn
    no random bytes. *)
Theorem gen_subscription_reversed_range {mc : Monocypher} {b64 : Base64}
    (j : json) (s : GlobalSecrets) (device_id start end_ channel : Z)
    (kch : bytes) (w : World) :
  deserialize j = Ok s -> channel_keys s !! channel = Some kch ->
  end_ < start ->
  gen_embeddable_subscription j device_id start end_ channel
    = Raise AssertionError /\
  gen_subscription j device_id start end_ channel w
    = (Raise AssertionError, w).
Proof.
  intros Hj Hch Hgt.
  pose proof (gen_embeddable_subscription_reversed j s device_id start end_
                channel kch Hj Hch Hgt) as H.
  split; [exact H|]. apply gen_subscription_embeddable_error. exact H.
Qed.

Lemma gen_subscription_reversed_range_witness :
  @gen_embeddable_subscription toy_monocypher toy_base64
    toy_secrets_file 7 200 100 1 = Raise AssertionError /\
  @gen_subscription toy_monocypher toy_base64
    toy_secrets_file 7 200 100 1 toy_world = (Raise AssertionError, toy_world).
Proof.
  apply (@gen_subscription_reversed_range toy_monocypher toy_base64
           toy_secrets_file toy_secrets 7 200 100 1 (replicate 32 Byte.x21)
           toy_world).
  - exact toy_secrets_file_loads.
  - reflexivity.
  - lia.
Defined.

(** X21: a device id outside [0, 2^32) is accepted by
    [gen_embeddable_subscription], which never reads it, and rejected by
    [gen_subscription] with [AssertionError], before any random bytes
    are drawn. *)
Theorem gen_subscription_bad_device_id
    {mc : Monocypher} {mcs : MonocypherSpec mc} {b64 : Base64}
    (j : json) (s : GlobalSecrets) (device_id start end_ channel : Z)
    (kch : bytes) (w : World) :
  deserialize j = Ok s -> wf_secrets s ->
  channel_keys s !! channel = Some kch -> 0 <= channel < 2 ^ 32 ->
  0 <= start -> start <= end_ -> end_ < 2 ^ 64 ->
  ~ 0 <= device_id < 2 ^ 32 ->
  (exists blob,
     gen_embeddable_subscription j device_id start end_ channel = Ok blob) /\
  gen_subscription j device_id start end_ channel w
    = (Raise AssertionError, w).
Proof.
  intros Hj Hwf Hkch Hch H0 H1 H2 Hid.
  destruct (gen_embeddable_subscription_run j s start end_ channel kch
              Hj Hwf Hkch Hch H0 H1 H2) as (vs & ktree & _ & _ & _ & _ & Hrun).
  split; [eexists; apply Hrun|].
  unfold gen_subscription. rewrite Hrun, M_bind_lift_Ok, Hj, M_bind_lift_Ok.
  unfold derive_id_key.
  destruct (assert_u32_cases device_id) as [[Hin _]|[_ ->]]; [contradiction|].
  rewrite bind_Raise. apply M_bind_lift_Raise.
Qed.

Lemma gen_subscription_bad_device_id_witness :
  (exists blob,
     @gen_embeddable_subscription toy_monocypher toy_base64
       toy_secrets_file (2 ^ 32) 100 200 1 = Ok blob) /\
  @gen_subscription toy_monocypher toy_base64
    toy_secrets_file (2 ^ 32) 100 200 1 toy_world
    = (Raise AssertionError, toy_world).
Proof.
  apply (@gen_subscription_bad_device_id
           toy_monocypher toy_monocypher_spec toy_base64
           toy_secrets_file toy_secrets (2 ^ 32) 100 200 1
           (replicate 32 Byte.x21) toy_world).
  - exact toy_secrets_file_loads.
  - exact toy_secrets_wf.
  - reflexivity.
  - lia.
  - lia.
  - lia.
  - lia.
  - lia.
Defined.

(** ** The frame packet *)

Lemma new_Vertex_bad p b :
  0 <= b -> ~ 0 <= p < 2 ^ b -> new_Vertex p b = Raise AssertionError.
Proof.
  intros Hb Hp. unfold new_Vertex.
  destruct (Z.leb_spec 0 p); [|reflexivity].
  destruct (Z.ltb_spec b 0); [lia|].
  rewrite Z.shiftl_1_l.
  destruct (Z.ltb_spec p (2 ^ b)); cbn; [lia|reflexivity].
Qed.

Section FramePacket.
Context {mc : Monocypher} {mcs : MonocypherSpec mc} {b64 : Base64}.

Lemma encode_layout_run e channel frame timestamp kch w :
  wf_secrets (keys e) -> self_channel_keys e = channel_keys (keys e) ->
  channel_keys (keys e) !! channel = Some kch -> 0 <= channel < 2 ^ 32 ->
  0 <= timestamp < 2 ^ 64 -> Z.of_nat (length frame) < 2 ^ 32 ->
  let w1 := after_draw SYMMETRIC_NONCE_LEN w in
  let w2 := after_draw SYMMETRIC_NONCE_LEN w1 in
  exists fd tk c1 c2,
    pack_frame_data frame = Ok fd /\
    derive_tree_key (keys e) channel (MkVertex timestamp 64) = Ok tk /\
    length tk = 16%nat /\
    encrypt_symmetric fd (blake2b 32 tk) w = (Ok c1, w1) /\
    encrypt_symmetric (le_split 8 timestamp ++ c1 ++ replicate 4 Byte.x00)
      kch w1 = (Ok c2, w2) /\
    length c2 = 160%nat /\
    encode e channel frame timestamp w
      = (Ok ((le_split 4 channel ++ c2) ++
             signature_sign (enc_private_key (keys e))
               (le_split 4 channel ++ c2)), w2).
Proof.
  intros Hwf Hself Hkch Hch Hts Hu32 w1 w2.
  destruct (pack_frame_data_ok frame Hu32) as (fd & Hfd & Hfdl).
  assert (Hroot : is_Some (tree_root_keys (keys e) !! channel)).
  { apply elem_of_dom. rewrite (wf_same_channels _ Hwf).
    apply elem_of_dom. eauto. }
  destruct Hroot as [root Hroot].
  destruct (derive_tree_key_length (keys e) channel (MkVertex timestamp 64) root
              Hwf Hroot Hch) as (tk & Htk & Htkl); [simpl; lia|exact Hts|].
  destruct (encrypt_symmetric_run fd (blake2b 32 tk) w (blake2b_length _ _))
    as (c1 & Hc1 & Hc1l).
  rewrite Hfdl in Hc1l.
  set (fc := le_split 8 timestamp ++ c1 ++ replicate 4 Byte.x00).
  assert (Hfcl : length fc = 120%nat).
  { subst fc. rewrite !length_app, length_le_split, Hc1l, length_replicate.
    reflexivity. }
  destruct (encrypt_symmetric_run fc kch w1 (wf_channel_keys _ Hwf _ _ Hkch))
    as (c2 & Hc2 & Hc2l).
  rewrite Hfcl in Hc2l.
  set (payload := le_split 4 channel ++ c2).
  assert (Hpl : length payload = 164%nat).
  { subst payload. rewrite length_app, length_le_split, Hc2l. reflexivity. }
  exists fd, tk, c1, c2. split_and!; try assumption.
  unfold encode. rewrite Hself, Hkch.
  rewrite Hfd, M_bind_lift_Ok.
  rewrite (new_Vertex_ok timestamp 64) by lia. rewrite M_bind_lift_Ok.
  rewrite Htk, M_bind_lift_Ok.
  rewrite (kdf_tree_leaf_ok tk Htkl), M_bind_lift_Ok.
  rewrite (M_bind_run _ _ _ _ _ Hc1).
  rewrite (pack_FrameCh timestamp c1 Hts Hc1l), M_bind_lift_Ok.
  fold fc. rewrite (M_bind_run _ _ _ _ _ Hc2).
  rewrite (pack_FramePacketPayload channel c2 Hch Hc2l), M_bind_lift_Ok.
  fold payload.
  rewrite (sign_asymmetric_ok payload _ (wf_enc_private_key _ Hwf)).
  rewrite M_bind_lift_Ok.
  rewrite (pack_FramePacket _ _ Hpl (signature_sign_length _ _)).
  reflexivity.
Qed.

Lemma encode_bad_timestamp_run e channel frame timestamp kch w :
  self_channel_keys e !! channel = Some kch ->
  Z.of_nat (length frame) < 2 ^ 32 -> ~ 0 <= timestamp < 2 ^ 64 ->
  encode e channel frame timestamp w = (Raise AssertionError, w).
Proof.
  intros Hkch Hu32 Hts.
  destruct (pack_frame_data_ok frame Hu32) as (fd & Hfd & _).
  unfold encode. rewrite Hkch, Hfd, M_bind_lift_Ok.
  rewrite (new_Vertex_bad timestamp 64) by (try assumption; lia).
  apply M_bind_lift_Raise.
Qed.

End FramePacket.

(** X22: for a channel of the bundle, a 64-bit timestamp and a frame,
    [encode] returns 228 bytes: bytes [0:4] are the little-endian
    channel, bytes [4:164] are the encryption under the channel key of
    the timestamp, the inner ciphertext and four zero bytes, the inner
    ciphertext being the encryption of the [FrameData] under the digest
    of the timestamp's leaf key, and bytes [164:228] are the signature
    of bytes [0:164].  Two nonces are drawn, the inner one first. *)
Theorem encode_layout {mc : Monocypher} {mcs : MonocypherSpec mc}
    {b64 : Base64}
    (j : json) (e : Encoder) (channel : Z) (frame : bytes) (timestamp : Z)
    (kch : bytes) (w : World) :
  new_Encoder j = Ok e -> wf_secrets (keys e) ->
  channel_keys (keys e) !! channel = Some kch -> 0 <= channel < 2 ^ 32 ->
  0 <= timestamp < 2 ^ 64 -> Z.of_nat (length frame) < 2 ^ 32 ->
  exists fd tk fk c1 c2 packet w1 w2,
    pack_frame_data frame = Ok fd /\
    derive_tree_key (keys e) channel (MkVertex timestamp 64) = Ok tk /\
    kdf_tree_leaf tk = Ok fk /\
    encrypt_symmetric fd fk w = (Ok c1, w1) /\
    encrypt_symmetric (le_split 8 timestamp ++ c1 ++ replicate 4 Byte.x00)
      kch w1 = (Ok c2, w2) /\
    encode e channel frame timestamp w = (Ok packet, w2) /\
    length packet = 228%nat /\
    le_combine (take 4 packet) = channel /\
    take 160 (drop 4 packet) = c2 /\
    sign_asymmetric (take 164 packet) (enc_private_key (keys e))
      = Ok (drop 164 packet).
Proof.
  intros Hnew Hwf Hkch Hch Hts Hu32.
  apply new_Encoder_keys in Hnew as [_ Hself].
  destruct (encode_layout_run e channel frame timestamp kch w
              Hwf Hself Hkch Hch Hts Hu32)
    as (fd & tk & c1 & c2 & Hfd & Htk & Htkl & Hc1 & Hc2 & Hc2l & Hrun).
  set (payload := le_split 4 channel ++ c2) in *.
  set (sig := signature_sign (enc_private_key (keys e)) payload) in *.
  assert (Hle : length (le_split 4 channel) = 4%nat) by apply length_le_split.
  assert (Hpl : length payload = 164%nat).
  { subst payload. rewrite length_app, Hle, Hc2l. reflexivity. }
  assert (Hsig : length sig = 64%nat) by apply signature_sign_length.
  exists fd, tk, (blake2b 32 tk), c1, c2, (payload ++ sig),
    (after_draw SYMMETRIC_NONCE_LEN w),
    (after_draw SYMMETRIC_NONCE_LEN (after_draw SYMMETRIC_NONCE_LEN w)).
  split_and!; try assumption.
  - apply kdf_tree_leaf_ok. exact Htkl.
  - rewrite length_app, Hpl, Hsig. reflexivity.
  - subst payload. rewrite <- app_assoc.
    rewrite take_app_length' by (symmetry; exact Hle).
    rewrite le_combine_split. apply Z.mod_small. exact Hch.
  - subst payload. rewrite <- app_assoc.
    rewrite drop_app_length' by (symmetry; exact Hle).
    apply take_app_length'. symmetry. exact Hc2l.
  - rewrite take_app_length' by (symmetry; exact Hpl).
    rewrite drop_app_length' by (symmetry; exact Hpl).
    apply sign_asymmetric_ok. apply Hwf.
Qed.

Lemma encode_layout_witness :
  exists fd tk fk c1 c2 packet (w1 w2 : @World toy_monocypher),
    pack_frame_data [Byte.x68; Byte.x69] = Ok fd /\
    @derive_tree_key toy_monocypher (keys toy_encoder) 1 (MkVertex 150 64)
      = Ok tk /\
    @kdf_tree_leaf toy_monocypher tk = Ok fk /\
    @encrypt_symmetric toy_monocypher fd fk toy_world = (Ok c1, w1) /\
    @encrypt_symmetric toy_monocypher
      (le_split 8 150 ++ c1 ++ replicate 4 Byte.x00)
      (replicate 32 Byte.x21) w1 = (Ok c2, w2) /\
    @encode toy_monocypher toy_encoder 1 [Byte.x68; Byte.x69] 150 toy_world
      = (Ok packet, w2) /\
    length packet = 228%nat /\
    le_combine (take 4 packet) = 1 /\
    take 160 (drop 4 packet) = c2 /\
    @sign_asymmetric toy_monocypher (take 164 packet)
      (enc_private_key (keys toy_encoder)) = Ok (drop 164 packet).
Proof.
  apply (@encode_layout toy_monocypher toy_monocypher_spec toy_base64
           toy_secrets_file toy_encoder 1 [Byte.x68; Byte.x69] 150
           (replicate 32 Byte.x21) toy_world).
  - exact toy_encoder_new.
  - exact toy_secrets_wf.
  - reflexivity.
  - lia.
  - lia.
  - vm_compute. reflexivity.
Defined.

(** X23: for a known channel, a timestamp outside [0, 2^64) makes
    [encode] raise [AssertionError] (from [Vertex]) before any random
    bytes are drawn. *)
Theorem encode_bad_timestamp {mc : Monocypher} {b64 : Base64}
    (j : json) (e : Encoder) (channel : Z) (frame : bytes) (timestamp : Z)
    (kch : bytes) (w : World) :
  new_Encoder j = Ok e ->
  channel_keys (keys e) !! channel = Some kch ->
  Z.of_nat (length frame) < 2 ^ 32 -> ~ 0 <= timestamp < 2 ^ 64 ->
  encode e channel frame timestamp w = (Raise AssertionError, w).
Proof.
  intros Hnew Hkch Hu32 Hts. apply new_Encoder_keys in Hnew as [_ Hself].
  eapply encode_bad_timestamp_run; try eassumption. rewrite Hself. exact Hkch.
Qed.

Lemma encode_bad_timestamp_witness :
  @encode toy_monocypher toy_encoder 1 [Byte.x68] (2 ^ 64) toy_world
    = (Raise AssertionError, toy_world).
Proof.
  apply (@encode_bad_timestamp toy_monocypher toy_base64
           toy_secrets_file toy_encoder 1 [Byte.x68] (2 ^ 64)
           (replicate 32 Byte.x21) toy_world).
  - exact toy_encoder_new.
  - reflexivity.
  - vm_compute. reflexivity.
  - lia.
Defined.

(** ** From a fresh bundle to subscriptions and packets *)

Section EndToEnd.
Context {mc : Monocypher} {mcs : MonocypherSpec mc}
        {b64 : Base64} {b64s : Base64Spec b64}.

Lemma gen_secrets_run channels w :
  exists s w',
    gen_secrets channels w = (Ok (serialize s), w') /\
    wf_secrets s /\
    dom (channel_keys s) = list_to_set channels ∪ {[0]}.
Proof.
  destruct (generate_run channels w) as (s & w' & Hrun & Hc & _).
  exists s, w'. split_and!.
  - unfold gen_secrets. rewrite (M_bind_run _ _ _ _ _ Hrun). reflexivity.
  - eapply generate_wf. exact Hrun.
  - exact Hc.
Qed.

Lemma gen_subscription_total j s device_id start end_ channel kch w :
  deserialize j = Ok s -> wf_secrets s ->
  channel_keys s !! channel = Some kch -> 0 <= channel < 2 ^ 32 ->
  0 <= device_id < 2 ^ 32 ->
  0 <= start -> start <= end_ -> end_ < 2 ^ 64 ->
  exists blob,
    gen_subscription j device_id start end_ channel w
      = (Ok blob, after_draw SYMMETRIC_NONCE_LEN w) /\
    length blob = 2188%nat.
Proof.
  intros Hj Hwf Hkch Hch Hid H0 H1 H2.
  destruct (gen_embeddable_subscription_run j s start end_ channel kch
              Hj Hwf Hkch Hch H0 H1 H2) as (vs & ktree & _ & _ & _ & _ & Hemb).
  destruct (gen_subscription_run j s device_id start end_ channel _ w
              Hj Hwf Hid (Hemb device_id) (embeddable_layout_length _ _ _ _ _ _))
    as [Hct Hrun].
  eexists. split; [exact Hrun|].
  rewrite !length_app, length_le_split, signature_sign_length.
  rewrite !length_app in Hct. rewrite Hct. reflexivity.
Qed.

End EndToEnd.

(** X24: the secrets file [gen_secrets] writes for a list of channels
    serves every listed channel and channel 0: [gen_subscription] on it
    returns a 2188-byte update for every 32-bit device id and every
    64-bit range with [start <= end], and the encoder built from it
    returns a 228-byte packet for every 64-bit timestamp and every
    frame. *)
Theorem gen_secrets_serves_channels
    {mc : Monocypher} {mcs : MonocypherSpec mc}
    {b64 : Base64} {b64s : Base64Spec b64}
    (channels : list Z) (channel device_id start end_ timestamp : Z)
    (frame : bytes) (w : World) :
  channel ∈ channels \/ channel = 0 -> 0 <= channel < 2 ^ 32 ->
  0 <= device_id < 2 ^ 32 ->
  0 <= start -> start <= end_ -> end_ < 2 ^ 64 ->
  0 <= timestamp < 2 ^ 64 -> Z.of_nat (length frame) < 2 ^ 32 ->
  exists j w1 e,
    gen_secrets channels w = (Ok j, w1) /\
    new_Encoder j = Ok e /\
    forall w',
      (exists blob w'',
         gen_subscription j device_id start end_ channel w' = (Ok blob, w'') /\
         length blob = 2188%nat) /\
      (exists packet w'',
         encode e channel frame timestamp w' = (Ok packet, w'') /\
         length packet = 228%nat).
Proof.
  intros Hin Hch Hid H0 H1 H2 Hts Hu32.
  destruct (gen_secrets_run channels w) as (s & w1 & Hrun & Hwf & Hdom).
  assert (Hj : deserialize (serialize s) = Ok s) by apply deserialize_serialize.
  assert (Hkch : is_Some (channel_keys s !! channel)).
  { apply elem_of_dom. rewrite Hdom. destruct Hin as [Hin| ->]; set_solver. }
  destruct Hkch as [kch Hkch].
  exists (serialize s), w1,
    (MkEncoder s (channel_keys s) (enc_private_key s)).
  split_and!.
  - exact Hrun.
  - unfold new_Encoder. rewrite Hj. reflexivity.
  - intros w'. split.
    + destruct (gen_subscription_total (serialize s) s device_id start end_
                  channel kch w' Hj Hwf Hkch Hch Hid H0 H1 H2)
        as (blob & Hb & Hlen).
      eauto.
    + apply (encode_run (MkEncoder s (channel_keys s) (enc_private_key s))
               channel frame timestamp kch w'); try assumption. reflexivity.
Qed.

Lemma gen_secrets_serves_channels_witness :
  exists j (w1 : @World toy_monocypher) e,
    @gen_secrets toy_monocypher toy_base64 [1; 2] toy_world = (Ok j, w1) /\
    @new_Encoder toy_base64 j = Ok e /\
    forall w' : @World toy_monocypher,
      (exists blob (w'' : @World toy_monocypher),
         @gen_subscription toy_monocypher toy_base64 j 7 100 200 2 w'
           = (Ok blob, w'') /\
         length blob = 2188%nat) /\
      (exists packet (w'' : @World toy_monocypher),
         @encode toy_monocypher e 2 [Byte.x68] 150 w' = (Ok packet, w'') /\
         length packet = 228%nat).
Proof.
  apply (@gen_secrets_serves_channels
           toy_monocypher toy_monocypher_spec toy_base64 toy_base64_spec
           [1; 2] 2 7 100 200 150 [Byte.x68] toy_world).
  - left. apply list_elem_of_In. simpl. auto.
  - lia.
  - lia.
  - lia.
  - lia.
  - lia.
  - lia.
  - vm_compute. reflexivity.
Defined.

(** ** The design1 encoder *)

Lemma pad16_length data :
  (length (pad16 data) mod 16 = 0)%nat /\
  (length data <= length (pad16 data) < length data + 16)%nat /\
  take (length data) (pad16 data) = data.
Proof.
  unfold pad16. destruct (Nat.eqb_spec (length data mod 16) 0) as [E|E].
  - split_and!; [exact E | lia | lia | apply firstn_all].
  - pose proof (Nat.mod_upper_bound (length data) 16 ltac:(lia)) as Hlt.
    pose proof (Nat.div_mod_eq (length data) 16) as Hdm.
    split_and!.
    + rewrite !length_app, length_replicate. cbn [length].
      replace (length data + (1 + (16 - length data mod 16 - 1)))%nat
        with ((length data / 16 + 1) * 16)%nat by lia.
      apply Nat.Div0.mod_mul.
    + rewrite length_app. lia.
    + rewrite !length_app, length_replicate. cbn [length]. lia.
    + apply take_app_length.
Qed.

Lemma pad16_blocks data : (length data mod 16 = 0)%nat -> pad16 data = data.
Proof. intros E. unfold pad16. rewrite E. reflexivity. Qed.

Section Design1Properties.
Context {aes : AesEcb} {aess : AesEcbSpec aes}.

Lemma encode1_run self channel frame timestamp key :
  (length frame <= 64)%nat ->
  (if channel =? 0 then Some (d1_secret_key self)
   else d1_channel_keys self !! (channel mod 10007)) = Some key ->
  length key = 16%nat -> length (d1_secret_key self) = 16%nat ->
  0 <= channel < 2 ^ 32 -> 0 <= timestamp < 2 ^ 64 ->
  exists c1 c2,
    aes_ecb key (pad16 frame) = Ok c1 /\
    length c1 = length (pad16 frame) /\
    aes_ecb (d1_secret_key self)
      (le_split 4 channel ++ le_split 8 timestamp ++
       le_split 4 (Z.of_nat (length frame)) ++ c1) = Ok c2 /\
    encode1 self channel frame timestamp = Ok c2 /\
    length c2 = (16 + length (pad16 frame))%nat.
Proof.
  intros Hlen Hkey Hkl Hsl Hch Hts.
  destruct (pad16_length frame) as (Hmod & Hbounds & _).
  destruct (aes_ecb_blocks key (pad16 frame) Hkl Hmod) as (c1 & Hc1 & Hc1l).
  set (header := le_split 4 channel ++ le_split 8 timestamp ++
                 le_split 4 (Z.of_nat (length frame)) ++ []).
  assert (Hhl : length header = 16%nat).
  { subst header. rewrite !length_app, !length_le_split. reflexivity. }
  assert (Hfull : (length (header ++ c1) mod 16 = 0)%nat).
  { rewrite length_app, Hhl, Hc1l.
    replace (16 + length (pad16 frame))%nat
      with (length (pad16 frame) + 1 * 16)%nat by lia.
    rewrite Nat.Div0.mod_add. exact Hmod. }
  destruct (aes_ecb_blocks (d1_secret_key self) (header ++ c1) Hsl Hfull)
    as (c2 & Hc2 & Hc2l).
  exists c1, c2. split_and!; try assumption.
  - unfold encode1. destruct (Nat.ltb_spec 64 (length frame)); [lia|].
    assert (Hk : (if channel =? 0 then Ok (d1_secret_key self)
                  else match d1_channel_keys self !! (channel mod 10007) with
                       | Some k => Ok k
                       | None => Raise KeyError
                       end) = Ok key).
    { destruct (channel =? 0); [congruence|].
      destruct (d1_channel_keys self !! (channel mod 10007)); congruence. }
    rewrite Hk, bind_Ok. unfold _encrypt. rewrite Hc1, bind_Ok.
    cbn [struct_pack pack_field].
    rewrite (pack_uint_ok 4 channel) by exact Hch.
    rewrite (pack_uint_ok 8 timestamp) by exact Hts.
    rewrite (pack_uint_ok 4 (Z.of_nat (length frame)))
      by (change (2 ^ (8 * Z.of_nat 4)) with 4294967296; lia).
    rewrite !bind_Ok. fold header.
    rewrite (pad16_blocks _ Hfull). exact Hc2.
  - rewrite Hc2l, length_app, Hhl, Hc1l. reflexivity.
Qed.

End Design1Properties.

Lemma toy_aes_spec : AesEcbSpec toy_aes.
Proof. split. intros key data _ _. exists data. split; reflexivity. Qed.

(** X25: the design1 [encode] refuses a frame of more than 64 bytes
    with [ValueError], whatever the channel and the timestamp. *)
Theorem encode1_oversized_frame {aes : AesEcb}
    (self : Encoder1) (channel : Z) (frame : bytes) (timestamp : Z) :
  (64 < length frame)%nat ->
  encode1 self channel frame timestamp = Raise ValueError.
Proof.
  intros Hlen. unfold encode1.
  destruct (Nat.ltb_spec 64 (length frame)); [reflexivity | lia].
Qed.

Lemma encode1_oversized_frame_witness :
  @encode1 toy_aes toy_encoder1 1 (replicate 65 Byte.x01) 0 = Raise ValueError.
Proof.
  apply (@encode1_oversized_frame toy_aes). vm_compute. lia.
Defined.

(** X26: for a frame of at most 64 bytes, a 32-bit channel and a 64-bit
    timestamp, the design1 [encode] returns the encryption under the
    secret key of the 16-byte header (channel, timestamp, frame length)
    followed by the encryption of the padded frame under the key of
    [channel mod 10007] (the secret key for channel 0).  The padded
    frame starts with the frame and is the next multiple of 16 bytes
    long, and the packet needs no padding of its own: the result has 16
    bytes more than the padded frame. *)
Theorem encode1_layout {aes : AesEcb} {aess : AesEcbSpec aes}
    (self : Encoder1) (channel : Z) (frame : bytes) (timestamp : Z)
    (key : bytes) :
  (length frame <= 64)%nat ->
  (if channel =? 0 then Some (d1_secret_key self)
   else d1_channel_keys self !! (channel mod 10007)) = Some key ->
  length key = 16%nat -> length (d1_secret_key self) = 16%nat ->
  0 <= channel < 2 ^ 32 -> 0 <= timestamp < 2 ^ 64 ->
  exists c1 c2,
    aes_ecb key (pad16 frame) = Ok c1 /\
    aes_ecb (d1_secret_key self)
      (le_split 4 channel ++ le_split 8 timestamp ++
       le_split 4 (Z.of_nat (length frame)) ++ c1) = Ok c2 /\
    encode1 self channel frame timestamp = Ok c2 /\
    length c2 = (16 + length (pad16 frame))%nat /\
    (length (pad16 frame) mod 16 = 0)%nat /\
    (length frame <= length (pad16 frame) < length frame + 16)%nat /\
    take (length frame) (pad16 frame) = frame.
Proof.
  intros Hlen Hkey Hkl Hsl Hch Hts.
  destruct (encode1_run self channel frame timestamp key
              Hlen Hkey Hkl Hsl Hch Hts)
    as (c1 & c2 & Hc1 & _ & Hc2 & Hrun & Hc2l).
  destruct (pad16_length frame) as (Hmod & Hbounds & Htake).
  exists c1, c2. split_and!; try assumption; lia.
Qed.

Lemma encode1_layout_witness :
  exists c1 c2,
    @aes_ecb toy_aes (replicate 16 Byte.x40)
      (pad16 [Byte.x68; Byte.x69]) = Ok c1 /\
    @aes_ecb toy_aes (d1_secret_key toy_encoder1)
      (le_split 4 10007 ++ le_split 8 5 ++
       le_split 4 (Z.of_nat (length [Byte.x68; Byte.x69])) ++ c1) = Ok c2 /\
    @encode1 toy_aes toy_encoder1 10007 [Byte.x68; Byte.x69] 5 = Ok c2 /\
    length c2 = (16 + length (pad16 [Byte.x68; Byte.x69]))%nat /\
    (length (pad16 [Byte.x68; Byte.x69]) mod 16 = 0)%nat /\
    (length [Byte.x68; Byte.x69] <= length (pad16 [Byte.x68; Byte.x69])
       < length [Byte.x68; Byte.x69] + 16)%nat /\
    take (length [Byte.x68; Byte.x69]) (pad16 [Byte.x68; Byte.x69])
      = [Byte.x68; Byte.x69].
Proof.
  apply (@encode1_layout toy_aes toy_aes_spec toy_encoder1 10007
           [Byte.x68; Byte.x69] 5 (replicate 16 Byte.x40)).
  - vm_compute. lia.
  - reflexivity.
  - reflexivity.
  - reflexivity.
  - lia.
  - lia.
Defined.

(** X27: for a frame of at most 64 bytes and a channel other than 0
    whose residue modulo 10007 has no key, the design1 [encode] raises
    [KeyError]. *)
Theorem encode1_unknown_channel {aes : AesEcb}
    (self : Encoder1) (channel : Z) (frame : bytes) (timestamp : Z) :
  (length frame <= 64)%nat -> channel <> 0 ->
  d1_channel_keys self !! (channel mod 10007) = None ->
  encode1 self channel frame timestamp = Raise KeyError.
Proof.
  intros Hlen Hch Hkey. unfold encode1.
  destruct (Nat.ltb_spec 64 (length frame)); [lia|].
  destruct (Z.eqb_spec channel 0); [contradiction|].
  rewrite Hkey. reflexivity.
Qed.

Lemma encode1_unknown_channel_witness :
  @encode1 toy_aes toy_encoder1 7 [Byte.x68] 5 = Raise KeyError.
Proof.
  apply (@encode1_unknown_channel toy_aes).
  - vm_compute. lia.
  - lia.
  - reflexivity.
Defined.

(** ** The cover is the smallest one *)

Lemma pow2_pos n : 0 <= n -> 0 < 2 ^ n.
Proof. intros H. apply Z.pow_pos_nonneg; lia. Qed.

Lemma parent_block v :
  1 <= bits v <= 64 ->
  v_lo (parent v) = 2 * Z.shiftr (prefix v) 1 * 2 ^ (64 - bits v) /\
  v_next (parent v) = (2 * Z.shiftr (prefix v) 1 + 2) * 2 ^ (64 - bits v).
Proof.
  intros Hb. unfold v_lo, v_next, parent. cbn [prefix bits].
  replace (64 - (bits v - 1)) with (Z.succ (64 - bits v)) by lia.
  rewrite Z.pow_succ_r by lia. lia.
Qed.

Lemma parent_block_odd v :
  1 <= bits v <= 64 -> Z.odd (prefix v) = true ->
  v_lo (parent v) = v_lo v - 2 ^ (64 - bits v).
Proof.
  intros Hb Hodd. destruct (parent_block v Hb) as [-> _].
  pose proof (odd_half _ Hodd). unfold v_lo. nia.
Qed.

Lemma parent_block_even v :
  1 <= bits v <= 64 -> Z.even (prefix v) = true ->
  v_next (parent v) = v_next v + 2 ^ (64 - bits v).
Proof.
  intros Hb Hev. destruct (parent_block v Hb) as [_ ->].
  pose proof (even_half _ Hev). unfold v_next. nia.
Qed.

Lemma ancestor_block w u :
  0 <= bits w -> bits u <= 64 -> ancestor w u ->
  v_lo w <= v_lo u /\ v_next u <= v_next w.
Proof.
  intros Hbw Hbu [Hle Hanc]. unfold v_lo, v_next.
  rewrite Z.shiftr_div_pow2 in Hanc by lia.
  set (d := bits u - bits w) in *.
  assert (Hd : 0 < 2 ^ d) by (apply pow2_pos; lia).
  assert (Hk : 0 < 2 ^ (64 - bits u)) by (apply pow2_pos; lia).
  replace (64 - bits w) with (d + (64 - bits u)) by lia.
  rewrite Z.pow_add_r by lia.
  pose proof (Z.mul_div_le (prefix u) _ Hd).
  pose proof (Z.mul_succ_div_gt (prefix u) _ Hd).
  rewrite Hanc in *. nia.
Qed.

Lemma covers_ancestor w v t :
  0 <= bits w -> bits w <= bits v -> bits v <= 64 ->
  covers w t -> covers v t -> ancestor w v.
Proof.
  intros Hbw Hle Hbv [_ Hw] [_ Hv]. split; [exact Hle|].
  rewrite <- Hv, <- Hw, Z.shiftr_shiftr by lia. f_equal. lia.
Qed.

Lemma ancestor_parent w v :
  bits w < bits v -> ancestor w v -> ancestor w (parent v).
Proof.
  intros Hlt [_ Hanc]. split; cbn [parent bits prefix]; [lia|].
  rewrite Z.shiftr_shiftr by lia. rewrite <- Hanc. f_equal. lia.
Qed.

(** A block inside the range around a maximal vertex is not larger. *)
Lemma maximal_not_below start end_ v w t :
  valid_vertex v -> valid_vertex w -> maximal start end_ v ->
  within start end_ w -> covers v t -> covers w t ->
  bits v <= bits w.
Proof.
  intros [Hbv Hpv] [Hbw Hpw] Hmax Hin Hv Hw.
  destruct (Z_le_gt_dec (bits v) (bits w)) as [Hle|Hgt]; [exact Hle|exfalso].
  destruct Hmax as [H0|Hmax]; [lia|]. apply Hmax.
  assert (Hanc : ancestor w (parent v)).
  { apply ancestor_parent; [lia|].
    apply (covers_ancestor w v t); try assumption; lia. }
  destruct (ancestor_block w (parent v)) as [H1 H2];
    [lia | cbn [parent bits]; lia | exact Hanc |].
  destruct Hin as [Hin1 Hin2]. split; lia.
Qed.

Lemma gap_inv_init start end_ : gap_inv start end_ start end_ 64 [] [].
Proof.
  split; try constructor; change (2 ^ (64 - 64)) with 1.
  - destruct (Z.odd start); lia.
  - destruct (Z.even end_); lia.
Qed.

Lemma gap_inv_up start0 end0 s e b front back :
  cover_inv start0 end0 s e b front back ->
  gap_inv start0 end0 s e b front back -> s < e ->
  Z.even s = true -> Z.odd e = true ->
  gap_inv start0 end0 (Z.shiftr s 1) (Z.shiftr e 1) (b - 1) front back.
Proof.
  intros [Hb (Hs & Hse & He) _ _ _ _ _ _ _ _] [Hgf Hgb Hmf Hmb] Hlt Hev Hod.
  pose proof (even_half s Hev) as Es. pose proof (odd_half e Hod) as Ee.
  assert (Hod' : Z.odd s = false) by (rewrite <- Z.negb_even, Hev; reflexivity).
  assert (Hev' : Z.even e = false) by (rewrite <- Z.negb_odd, Hod; reflexivity).
  rewrite Hod' in Hgf. rewrite Hev' in Hgb.
  set (s' := Z.shiftr s 1) in *. set (e' := Z.shiftr e 1) in *.
  assert (Hb1 : 1 <= b).
  { destruct (Z.eq_dec b 0) as [->|]; [change (2 ^ 0) with 1 in He|]; lia. }
  destruct (pow2_level b) as [Hq|]; [lia| |lia].
  assert (Hk : 0 < 2 ^ (64 - b)) by (apply pow2_pos; lia).
  split; try assumption; rewrite Hq.
  - destruct (Z.odd s'); nia.
  - destruct (Z.even e'); nia.
Qed.

Lemma gap_inv_front start0 end0 s e b front back :
  cover_inv start0 end0 s e b front back ->
  gap_inv start0 end0 s e b front back -> s < e ->
  Z.odd s = true ->
  gap_inv start0 end0 (s + 1) e b (front ++ [MkVertex s b]) back.
Proof.
  intros [Hb (Hs & Hse & He) _ _ _ _ _ _ _ _] [Hgf Hgb Hmf Hmb] Hlt Hod.
  rewrite Hod in Hgf.
  assert (Hb1 : 1 <= b).
  { destruct (Z.eq_dec b 0) as [->|]; [change (2 ^ 0) with 1 in He|]; lia. }
  assert (Hk : 0 < 2 ^ (64 - b)) by (apply pow2_pos; lia).
  assert (Hod' : Z.odd (s + 1) = false).
  { rewrite <- Z.negb_even, (even_succ_of_odd s Hod). reflexivity. }
  split; try assumption.
  - rewrite Hod'. lia.
  - apply Forall_app. split; [exact Hmf|]. constructor; [|constructor].
    right. intros [Hin _].
    rewrite (parent_block_odd (MkVertex s b)) in Hin by (cbn; auto; lia).
    unfold v_lo in Hin. cbn [prefix bits] in Hin. lia.
Qed.

Lemma gap_inv_back start0 end0 s e b front back :
  cover_inv start0 end0 s e b front back ->
  gap_inv start0 end0 s e b front back -> s < e ->
  Z.even e = true ->
  gap_inv start0 end0 s (e - 1) b front (back ++ [MkVertex e b]).
Proof.
  intros [Hb (Hs & Hse & He) _ _ _ _ _ _ _ _] [Hgf Hgb Hmf Hmb] Hlt Hev.
  rewrite Hev in Hgb.
  assert (Hb1 : 1 <= b).
  { destruct (Z.eq_dec b 0) as [->|]; [change (2 ^ 0) with 1 in He|]; lia. }
  assert (Hk : 0 < 2 ^ (64 - b)) by (apply pow2_pos; lia).
  assert (Hev' : Z.even (e - 1) = false).
  { rewrite <- Z.negb_odd, (odd_pred_of_even e Hev). reflexivity. }
  split; try assumption.
  - rewrite Hev'. lia.
  - apply Forall_app. split; [exact Hmb|]. constructor; [|constructor].
    right. intros [_ Hin].
    rewrite (parent_block_even (MkVertex e b)) in Hin by (cbn; auto; lia).
    unfold v_next in Hin. cbn [prefix bits] in Hin. lia.
Qed.

Lemma gap_inv_middle start0 end0 m b front back :
  cover_inv start0 end0 m m b front back ->
  gap_inv start0 end0 m m b front back ->
  Forall (maximal start0 end0) (front ++ [MkVertex m b] ++ rev back).
Proof.
  intros [Hb (Hs & Hse & He) _ _ _ _ _ _ _ _] [Hgf Hgb Hmf Hmb].
  apply Forall_app. split; [exact Hmf|]. apply Forall_app. split.
  - constructor; [|constructor].
    destruct (Z.eq_dec b 0) as [E|E]; [left; exact E|right].
    assert (Hk : 0 < 2 ^ (64 - b)) by (apply pow2_pos; lia).
    destruct (even_odd_cases m) as [[Hev Hod]|[Hev Hod]].
    + rewrite Hev in Hgb. intros [_ Hin].
      rewrite (parent_block_even (MkVertex m b)) in Hin by (cbn; auto; lia).
      unfold v_next in Hin. cbn [prefix bits] in Hin. lia.
    + rewrite Hod in Hgf. intros [Hin _].
      rewrite (parent_block_odd (MkVertex m b)) in Hin by (cbn; auto; lia).
      unfold v_lo in Hin. cbn [prefix bits] in Hin. lia.
  - apply Forall_rev. exact Hmb.
Qed.

Lemma vertices_loop_maximal start0 end0 fuel : forall s e b front back vs,
  cover_inv start0 end0 s e b front back ->
  gap_inv start0 end0 s e b front back ->
  vertices_loop fuel s e b front back = Ok vs ->
  Forall (maximal start0 end0) vs.
Proof.
  induction fuel as [|fuel IH]; intros s e b front back vs Hinv Hgap H;
    cbn [vertices_loop] in H; [discriminate H|].
  pose proof Hinv as [Hb (Hs & Hse & He) _ _ _ _ _ _ _ _].
  destruct (Z.eqb_spec s e) as [->|Hne].
  - rewrite new_Vertex_ok, bind_Ok in H by lia. injection H as <-.
    apply gap_inv_middle; assumption.
  - assert (Hlt : s < e) by lia.
    destruct (Z.ltb_spec s e) as [_|]; [|lia]. cbn [assert] in H.
    rewrite bind_Ok, land_1_even, !land_1_odd in H.
    destruct (even_odd_cases s) as [[Hs1 Hs2]|[Hs1 Hs2]];
      destruct (even_odd_cases e) as [[He1 He2]|[He1 He2]];
      rewrite Hs1, ?Hs2, He2 in H; cbn [andb] in H.
    + rewrite new_Vertex_ok, bind_Ok in H by lia.
      eapply IH; [| |exact H].
      * apply cover_inv_back; [exact Hinv|exact Hlt|exact He1].
      * apply gap_inv_back; [exact Hinv|exact Hgap|exact Hlt|exact He1].
    + eapply IH; [| |exact H].
      * apply cover_inv_up; [exact Hinv|exact Hlt|exact Hs1|exact He2].
      * apply gap_inv_up; [exact Hinv|exact Hgap|exact Hlt|exact Hs1|exact He2].
    + rewrite new_Vertex_ok, bind_Ok in H by lia.
      eapply IH; [| |exact H].
      * apply cover_inv_front; [exact Hinv|exact Hlt|exact Hs2].
      * apply gap_inv_front; [exact Hinv|exact Hgap|exact Hlt|exact Hs2].
    + rewrite new_Vertex_ok, bind_Ok in H by lia.
      eapply IH; [| |exact H].
      * apply cover_inv_front; [exact Hinv|exact Hlt|exact Hs2].
      * apply gap_inv_front; [exact Hinv|exact Hgap|exact Hlt|exact Hs2].
Qed.

Lemma vertices_for_range_unfold start end_ :
  vertices_loop loop_fuel start end_ 64 [] [] = vertices_for_range start end_.
Proof. exact (eq_refl (vertices_loop loop_fuel start end_ 64 [] [])). Qed.

Lemma vertices_for_range_maximal_of_run start end_ vs :
  0 <= start -> start <= end_ -> end_ < 2 ^ 64 ->
  vertices_for_range start end_ = Ok vs ->
  Forall (maximal start end_) vs.
Proof.
  intros H0 H1 H2 H. rewrite <- vertices_for_range_unfold in H.
  eapply vertices_loop_maximal; [| |exact H].
  - apply cover_inv_init; lia.
  - apply gap_inv_init.
Qed.

Lemma vertices_for_range_maximal_run start end_ :
  0 <= start -> start <= end_ -> end_ < 2 ^ 64 ->
  exists vs,
    vertices_for_range start end_ = Ok vs /\
    Forall valid_vertex vs /\ chain start vs (end_ + 1) /\
    Forall (maximal start end_) vs.
Proof.
  intros H0 H1 H2.
  destruct (vertices_for_range_shape start end_ H0 H1 H2)
    as (m & b & front & back & Hrun & Hinv).
  eexists. split_and!.
  - exact Hrun.
  - eapply cover_final_valid. exact Hinv.
  - eapply cover_final_chain. exact Hinv.
  - eapply vertices_for_range_maximal_of_run; [exact H0|exact H1|exact H2|exact Hrun].
Qed.

Lemma chain_within a vs b :
  Forall valid_vertex vs -> chain a vs b ->
  Forall (fun v => a <= v_lo v /\ v_next v <= b) vs.
Proof.
  intros Hv. revert a. induction Hv as [|v vs Hv Hvs IH]; simpl; intros a H.
  - constructor.
  - destruct H as [<- H]. pose proof (chain_le _ _ _ Hvs H) as Hle.
    pose proof (v_lo_next v Hv) as (_ & Hlt & _).
    constructor; [lia|].
    eapply Forall_impl; [exact (IH _ H)|]. cbn. intros w [H1 H2]. lia.
Qed.

(** X28: every vertex of the cover lies inside the range, and is the
    root or has a parent whose block leaves the range. *)
Theorem vertices_for_range_maximal (start end_ : Z) :
  0 <= start -> start <= end_ -> end_ < 2 ^ 64 ->
  exists vs,
    vertices_for_range start end_ = Ok vs /\
    Forall (fun v => within start end_ v /\ maximal start end_ v) vs.
Proof.
  intros H0 H1 H2.
  destruct (vertices_for_range_maximal_run start end_ H0 H1 H2)
    as (vs & Hrun & Hv & Hch & Hmax).
  exists vs. split; [exact Hrun|].
  apply Forall_and. split; [|exact Hmax].
  exact (chain_within _ _ _ Hv Hch).
Qed.

Lemma vertices_for_range_maximal_witness :
  exists vs,
    vertices_for_range 5 10 = Ok vs /\
    Forall (fun v => within 5 10 v /\ maximal 5 10 v) vs.
Proof. apply (vertices_for_range_maximal 5 10); lia. Defined.

Lemma starts_in_split a m b ws :
  a <= m -> m <= b ->
  length (List.filter (starts_in a b) ws) =
  (length (List.filter (starts_in a m) ws) +
   length (List.filter (starts_in m b) ws))%nat.
Proof.
  intros H1 H2. induction ws as [|w ws IH]; [reflexivity|].
  cbn [List.filter].
  destruct (starts_in a b w) eqn:E1, (starts_in a m w) eqn:E2,
    (starts_in m b w) eqn:E3; cbn [length]; unfold starts_in in E1, E2, E3;
    rewrite ?andb_true_iff, ?andb_false_iff, ?Z.leb_le, ?Z.ltb_lt,
      ?Z.leb_gt, ?Z.ltb_ge in E1, E2, E3; lia.
Qed.

Lemma starts_in_pos a b (ws : list Vertex) w :
  w ∈ ws -> a <= v_lo w < b ->
  (1 <= length (List.filter (starts_in a b) ws))%nat.
Proof.
  intros Hin Hw. apply list_elem_of_In in Hin.
  assert (Hf : In w (List.filter (starts_in a b) ws)).
  { apply List.filter_In. split; [exact Hin|]. unfold starts_in.
    apply andb_true_intro. split; [apply Z.leb_le | apply Z.ltb_lt]; lia. }
  destruct (List.filter (starts_in a b) ws); [destruct Hf | cbn; lia].
Qed.

Lemma chain_count a vs b (ws : list Vertex) :
  Forall valid_vertex vs -> chain a vs b ->
  Forall (fun v => exists w, w ∈ ws /\ v_lo v <= v_lo w < v_next v) vs ->
  (length vs <= length (List.filter (starts_in a b) ws))%nat.
Proof.
  intros Hv. revert a.
  induction Hv as [|v vs Hv Hvs IH]; simpl; intros a H Hw.
  - lia.
  - destruct H as [<- H]. pose proof (chain_le _ _ _ Hvs H) as Hle.
    pose proof (v_lo_next v Hv) as (_ & Hlt & _).
    apply Forall_cons in Hw as [(w & Hin & Hw) Hws].
    rewrite (starts_in_split (v_lo v) (v_next v) b) by lia.
    pose proof (starts_in_pos _ _ _ _ Hin Hw).
    specialize (IH _ H Hws). lia.
Qed.

(** A vertex of an exact cover of the range lies inside the range. *)
Lemma exact_cover_within start end_ (ws : list Vertex) w :
  (forall t, (exists w, w ∈ ws /\ covers w t) -> start <= t <= end_) ->
  valid_vertex w -> w ∈ ws -> within start end_ w.
Proof.
  intros Hex Hv Hin. pose proof (v_lo_next w Hv) as (_ & Hlt & _).
  assert (H1 : covers w (v_lo w)) by (apply covers_iff; [exact Hv|lia]).
  assert (H2 : covers w (v_next w - 1)) by (apply covers_iff; [exact Hv|lia]).
  pose proof (Hex _ (ex_intro _ w (conj Hin H1))).
  pose proof (Hex _ (ex_intro _ w (conj Hin H2))).
  split; lia.
Qed.

(** X29: no list of vertices that covers exactly the range is shorter
    than the cover [vertices_for_range] returns. *)
Theorem vertices_for_range_minimal (start end_ : Z) (ws : list Vertex) :
  0 <= start -> start <= end_ -> end_ < 2 ^ 64 ->
  Forall valid_vertex ws ->
  (forall t, (exists w, w ∈ ws /\ covers w t) <-> start <= t <= end_) ->
  exists vs,
    vertices_for_range start end_ = Ok vs /\
    (length vs <= length ws)%nat.
Proof.
  intros H0 H1 H2 Hws Hex.
  destruct (vertices_for_range_maximal_run start end_ H0 H1 H2)
    as (vs & Hrun & Hv & Hch & Hmax).
  exists vs. split; [exact Hrun|].
  etransitivity; [|apply (List.filter_length_le (starts_in start (end_ + 1)))].
  apply chain_count; [exact Hv|exact Hch|].
  pose proof (chain_within _ _ _ Hv Hch) as Hin.
  rewrite Forall_forall in Hv, Hmax, Hin, Hws. apply Forall_forall.
  intros v Hvin. specialize (Hv _ Hvin). specialize (Hmax _ Hvin).
  specialize (Hin _ Hvin). cbn in Hin.
  pose proof (v_lo_next v Hv) as (_ & Hlt & _).
  assert (Hcv : covers v (v_lo v)) by (apply covers_iff; [exact Hv|lia]).
  destruct (proj2 (Hex (v_lo v))) as (w & Hwin & Hcw); [lia|].
  exists w. split; [exact Hwin|].
  pose proof (Hws _ Hwin) as Hw.
  assert (Hwithin : within start end_ w).
  { apply (exact_cover_within start end_ ws); [|exact Hw|exact Hwin].
    intros t Ht. apply Hex. exact Ht. }
  pose proof (maximal_not_below _ _ _ _ _ Hv Hw Hmax Hwithin Hcv Hcw) as Hb.
  destruct (ancestor_block v w) as [Ha1 Ha2].
  - destruct Hv; lia.
  - destruct Hw; lia.
  - apply (covers_ancestor v w (v_lo v)); try assumption;
      destruct Hv, Hw; lia.
  - pose proof (v_lo_next w Hw) as (_ & Hlt' & _). lia.
Qed.

Lemma vertices_for_range_minimal_witness :
  exists vs,
    vertices_for_range 4 5 = Ok vs /\
    (length vs <= length [MkVertex 4 64; MkVertex 5 64])%nat.
Proof.
  apply (vertices_for_range_minimal 4 5); try lia.
  - repeat constructor; cbn; lia.
  - intros t. split.
    + intros (w & Hin & [Ht Hc]).
      apply elem_of_cons in Hin as [->|Hin];
        [|apply elem_of_cons in Hin as [->|Hin]; [|inversion Hin]];
        cbn [bits prefix] in Hc; change (64 - 64) with 0 in Hc;
        rewrite Z.shiftr_0_r in Hc; lia.
    + intros Ht. assert (Hc : t = 4 \/ t = 5) by lia.
      destruct Hc as [-> | ->].
      * exists (MkVertex 4 64).
        split; [apply elem_of_cons; left; reflexivity|].
        split; [lia|reflexivity].
      * exists (MkVertex 5 64).
        split; [apply elem_of_cons; right; apply elem_of_cons; left; reflexivity|].
        split; [lia|reflexivity].
Defined.
